(** * Knowledge Vault: record store and search engine

    A shallow embedding of [knowledge_vault/storage.py] and
    [knowledge_vault/search.py], and the properties of the natural-language
    specification checked against it.

    Conventions of the embedding:
    - a Python [str] is the list of its code points ([list N]);
    - the Python built-ins the code calls ([strip], [split], [find], [in],
      slicing, [join], [list.sort], [set], [difflib.SequenceMatcher]) are
      written out as functions on that representation;
    - [str.lower] is the interpreter's Unicode lower-casing: it is a
      parameter [lower] of the development, and [ascii_lower] is its
      restriction to ASCII text, used to evaluate concrete runs;
    - the scores are computed twice: in the rationals ([Q]), for what
      rounding cannot change, and in binary64 floats as the interpreter
      computes them (module [Binary64]), for the order of the results;
    - the log file is a list of lines, each classified by what reading and
      [json.loads] make of it. *)

From Stdlib Require Import ZArith NArith QArith List Bool Lia String Ascii.
From Stdlib Require Import Sorting.Sorted Lqa.
From Stdlib Require Floats.
From stdpp Require Import base decidable countable gmap list sorting.
Import ListNotations.

Local Open Scope nat_scope.

(** ** Python strings *)

Abbreviation str := (list N).

(** UTF-8 decoding, so that string literals of the source can be written as
    they are: [u "api"], [u "技术"]. *)
Fixpoint utf8 (bs : list N) : str :=
  match bs with
  | [] => []
  | b0 :: r =>
    if (b0 <? 0x80)%N then b0 :: utf8 r
    else if (b0 <? 0xE0)%N then
      match r with
      | b1 :: r1 => N.lor (N.shiftl (N.land b0 0x1F) 6) (N.land b1 0x3F) :: utf8 r1
      | _ => []
      end
    else if (b0 <? 0xF0)%N then
      match r with
      | b1 :: b2 :: r2 =>
        N.lor (N.shiftl (N.land b0 0x0F) 12)
          (N.lor (N.shiftl (N.land b1 0x3F) 6) (N.land b2 0x3F)) :: utf8 r2
      | _ => []
      end
    else
      match r with
      | b1 :: b2 :: b3 :: r3 =>
        N.lor (N.shiftl (N.land b0 0x07) 18)
          (N.lor (N.shiftl (N.land b1 0x3F) 12)
             (N.lor (N.shiftl (N.land b2 0x3F) 6) (N.land b3 0x3F))) :: utf8 r3
      | _ => []
      end
  end.

Definition u (s : string) : str :=
  utf8 (List.map N_of_ascii (list_ascii_of_string s)).

(** [str.isspace] for one character: the code points Python treats as
    whitespace in [strip()] and [split()]. *)
Definition isspace (c : N) : bool :=
  ((0x09 <=? c) && (c <=? 0x0D) || (0x1C <=? c) && (c <=? 0x20)
   || (c =? 0x85) || (c =? 0xA0) || (c =? 0x1680)
   || (0x2000 <=? c) && (c <=? 0x200A)
   || (c =? 0x2028) || (c =? 0x2029) || (c =? 0x202F) || (c =? 0x205F)
   || (c =? 0x3000))%N.

Fixpoint lstrip (s : str) : str :=
  match s with
  | c :: r => if isspace c then lstrip r else s
  | [] => []
  end.

Definition rstrip (s : str) : str := rev (lstrip (rev s)).

(** [s.strip()] *)
Definition strip (s : str) : str := rstrip (lstrip s).

(** [s.split()]: maximal runs of non-whitespace characters. *)
Definition split_step (c : N) (acc : str * list str) : str * list str :=
  let '(w, ws) := acc in
  if isspace c then ([], match w with [] => ws | _ => w :: ws end)
  else (c :: w, ws).

Definition str_split (s : str) : list str :=
  let '(w, ws) := fold_right split_step ([], []) s in
  match w with [] => ws | _ => w :: ws end.

(** [s.split(sep)] for a one-character separator. *)
Fixpoint split_on (sep : N) (s : str) : list str :=
  match s with
  | [] => [[]]
  | c :: r =>
    if (c =? sep)%N then [] :: split_on sep r
    else match split_on sep r with
         | w :: ws => (c :: w) :: ws
         | [] => [[c]]
         end
  end.

Fixpoint startswith (s p : str) : bool :=
  match p, s with
  | [], _ => true
  | _ :: _, [] => false
  | x :: p', y :: s' => (x =? y)%N && startswith s' p'
  end.

Fixpoint find_from (s sub : str) (i : nat) : Z :=
  if startswith s sub then Z.of_nat i
  else match s with
       | [] => (-1)%Z
       | _ :: r => find_from r sub (S i)
       end.

(** [s.find(sub)]: the lowest index at which [sub] occurs, or -1. *)
Definition str_find (s sub : str) : Z := find_from s sub 0.

(** [sub in s] *)
Definition str_in (sub s : str) : bool := negb (str_find s sub =? -1)%Z.

(** [sep.join(l)] *)
Fixpoint str_join (sep : str) (l : list str) : str :=
  match l with
  | [] => []
  | [x] => x
  | x :: r => x ++ sep ++ str_join sep r
  end.

(** [s[lo:hi]] for [0 <= lo], [0 <= hi]. *)
Definition slice (s : str) (lo hi : nat) : str := take (hi - lo) (drop lo s).

(** [l[:n]] for any Python integer [n]: a negative [n] counts from the end. *)
Definition upto {A} (l : list A) (n : Z) : list A :=
  if (0 <=? n)%Z then take (Z.to_nat n) l
  else take (length l - Z.to_nat (- n)) l.

(** Lower-casing restricted to ASCII: what [str.lower] does on text whose
    cased characters are all ASCII. *)
Definition ascii_lower_char (c : N) : N :=
  if ((0x41 <=? c) && (c <=? 0x5A))%N then (c + 0x20)%N else c.

Definition ascii_lower (s : str) : str := List.map ascii_lower_char s.

Definition ellipsis : str := u "...".

(** ** Records, the log file and failures *)

(** A record as the code handles it: a JSON object (a Python [dict]) with the
    keys [id], [timestamp], [title], [content] and [tags].  The code reads
    them with [record.get(key, default)] or [record[key]], so each key may be
    absent ([None]). *)
Record record := mk_record {
  rec_id : option str;
  rec_timestamp : option str;
  rec_title : option str;
  rec_content : option str;
  rec_tags : option (list str)
}.

(** A line of [knowledge.jsonl], by what reading it gives:
    - [Json r]: the text [json.dumps(r)], on which [json.loads] returns [r];
    - [NotJson]: text on which [json.loads] raises [JSONDecodeError];
    - [Blank]: text that [strip()] leaves empty;
    - [NotUtf8]: bytes that are not UTF-8, on which the text-mode iteration
      of the file ([encoding="utf-8"]) raises [UnicodeDecodeError]. *)
Inductive line :=
| Json (r : record)
| NotJson
| Blank
| NotUtf8.

#[global] Instance record_eq_dec : EqDecision record.
Proof. solve_decision. Defined.

#[global] Instance line_eq_dec : EqDecision line.
Proof. solve_decision. Defined.

(** The data file: absent ([None]) or a sequence of lines. *)
Definition file := option (list line).

Inductive exn :=
| UnicodeDecodeError
| KeyError (key : str)
| StorageFailed.

Inductive result (A : Type) :=
| Ok (a : A)
| Raise (e : exn).
Arguments Ok {A} a.
Arguments Raise {A} e.

(** Sequencing: an exception raised by [m] propagates.  The notation
    [x ← m; k] below is this bind. *)
#[global] Instance result_bind : MBind result := fun A B f m =>
  match m with
  | Ok a => f a
  | Raise e => Raise e
  end.

(** [record[key]] *)
Definition getitem {A} (key : string) (field : option A) : result A :=
  match field with
  | Some v => Ok v
  | None => Raise (KeyError (u key))
  end.

(** [for x in l: ys.append(f(x))], stopping at the first exception. *)
Fixpoint map_result {A B} (f : A -> result B) (l : list A) : result (list B) :=
  match l with
  | [] => Ok []
  | x :: r => y ← f x; ys ← map_result f r; Ok (y :: ys)
  end.

(** How one attempt to open, lock and write the file ends: the line is
    written; or [open] raises and the file is as it was, an absent one
    still absent; or [open] returns, which creates an absent file, and the
    lock or the write raises with nothing written. *)
Inductive attempt :=
| Written
| OpenFailed
| FailedAfterOpen.

(** What the environment supplies to one [store] call: [uuid.uuid4()],
    [datetime.now().isoformat()], and how the [i]-th attempt to open, lock
    and write the file ends. *)
Record env := mk_env {
  uuid4 : str;
  now : str;
  attempts : nat -> attempt
}.

(** The [i]-th attempt goes through. *)
Definition write_ok (e : env) (i : nat) : bool :=
  match attempts e i with Written => true | _ => false end.

(** ** storage.py *)

(** [_generate_title] *)
Definition delimiters : list str :=
  [u "。"; u "."; u "?"; u "？"; u "!"; u "！"].

Fixpoint title_loop (ds : list str) (content title : str) : str :=
  match ds with
  | [] => title
  | delimiter :: ds' =>
    let pos := str_find title delimiter in
    if (10 <? pos)%Z then take (Z.to_nat (pos + 1)) content
    else title_loop ds' content title
  end.

Definition _generate_title (content : str) : str :=
  let title := strip (take 50 content) in
  let title := title_loop delimiters content title in
  if length title <? length content then title ++ ellipsis else title.

(** [_safe_append_record]: up to [max_retries] attempts; an attempt that
    goes through appends the serialized record as one line (creating the
    file when it is absent); one that fails adds no line, and when it
    fails after [open(path, "a")] has returned, an absent file has been
    created empty. *)
Definition max_retries : nat := 3.

Definition append_line (fs : file) (l : line) : file :=
  match fs with
  | Some ls => Some (ls ++ [l])
  | None => Some [l]
  end.

(** The file after [open(path, "a")]: created empty when it was absent. *)
Definition open_append (fs : file) : file :=
  match fs with
  | Some ls => Some ls
  | None => Some []
  end.

Fixpoint append_loop (io : nat -> attempt) (fs : file) (r : record)
    (i remaining : nat) : bool * file :=
  match remaining with
  | 0 => (false, fs)
  | S remaining' =>
    match io i with
    | Written => (true, append_line fs (Json r))
    | OpenFailed => append_loop io fs r (S i) remaining'
    | FailedAfterOpen => append_loop io (open_append fs) r (S i) remaining'
    end
  end.

Definition _safe_append_record (io : nat -> attempt) (fs : file) (r : record)
  : bool * file :=
  append_loop io fs r 0 max_retries.

(** [get_all_records] *)
Fixpoint read_lines (ls : list line) (records : list record)
  : result (list record) :=
  match ls with
  | [] => Ok records
  | NotUtf8 :: _ => Raise UnicodeDecodeError
  | Blank :: ls' => read_lines ls' records
  | NotJson :: ls' => read_lines ls' records
  | Json r :: ls' => read_lines ls' (records ++ [r])
  end.

Definition get_all_records (fs : file) : result (list record) :=
  match fs with
  | None => Ok []
  | Some ls => read_lines ls []
  end.

(** [get_by_id] *)
Fixpoint first_with_id (record_id : str) (records : list record)
  : option record :=
  match records with
  | [] => None
  | r :: records' =>
    if decide (rec_id r = Some record_id) then Some r
    else first_with_id record_id records'
  end.

Definition get_by_id (fs : file) (record_id : str) : result (option record) :=
  records ← get_all_records fs;
  Ok (first_with_id record_id records).

(** ** difflib.SequenceMatcher(None, a, b).ratio()

    The matcher is built with [isjunk=None] and the default [autojunk=True]:
    no element is junk, and when [b] has 200 elements or more, those that
    occur more than [len(b) // 100 + 1] times are "popular" and are left out
    of the index [b2j]. *)
Module SequenceMatcher.
Section Matcher.
Variables a b : str.

Fixpoint indices_from (x : N) (s : str) (j : nat) : list nat :=
  match s with
  | [] => []
  | y :: s' =>
    if (y =? x)%N then j :: indices_from x s' (S j)
    else indices_from x s' (S j)
  end.

Definition popular (x : N) : bool :=
  (200 <=? length b) && (length b / 100 + 1 <? length (indices_from x b 0)).

(** [b2j.get(x, [])] after [__chain_b]: the increasing indices of [x] in
    [b], none for a popular element. *)
Definition b2j (x : N) : list nat :=
  if popular x then [] else indices_from x b 0.

(** The candidate match [(besti, bestj, bestsize)]. *)
Definition block := (nat * nat * nat)%type.
Definition block_size (m : block) : nat := snd m.

(** Inner loop of [find_longest_match]: [for j in b2j[a[i]]]. *)
Fixpoint scan_row (js : list nat) (i blo bhi : nat)
    (j2len newj2len : gmap Z nat) (best : block) : gmap Z nat * block :=
  match js with
  | [] => (newj2len, best)
  | j :: js' =>
    if j <? blo then scan_row js' i blo bhi j2len newj2len best
    else if bhi <=? j then (newj2len, best)
    else
      let k := default 0 (j2len !! (Z.of_nat j - 1)%Z) + 1 in
      let newj2len := <[Z.of_nat j := k]> newj2len in
      let best := if block_size best <? k then (i + 1 - k, j + 1 - k, k) else best in
      scan_row js' i blo bhi j2len newj2len best
  end.

(** Outer loop: [for i in range(alo, ahi)]. *)
Fixpoint scan_rows (rows : list nat) (blo bhi : nat)
    (j2len : gmap Z nat) (best : block) : block :=
  match rows with
  | [] => best
  | i :: rows' =>
    let '(newj2len, best) :=
      scan_row (default [] (b2j <$> a !! i)) i blo bhi j2len ∅ best in
    scan_rows rows' blo bhi newj2len best
  end.

(** [while besti > alo and bestj > blo and a[besti-1] == b[bestj-1]] *)
Fixpoint extend_left (alo blo besti bestj bestsize : nat) : block :=
  match besti, bestj with
  | S i', S j' =>
    if (alo <? besti) && (blo <? bestj) && bool_decide (a !! i' = b !! j')
    then extend_left alo blo i' j' (S bestsize)
    else (besti, bestj, bestsize)
  | _, _ => (besti, bestj, bestsize)
  end.

(** [while besti+bestsize < ahi and bestj+bestsize < bhi and
    a[besti+bestsize] == b[bestj+bestsize]]; at most [ahi - besti -
    bestsize] rounds. *)
Fixpoint extend_right (rounds ahi bhi besti bestj bestsize : nat) : nat :=
  match rounds with
  | 0 => bestsize
  | S rounds' =>
    if (besti + bestsize <? ahi) && (bestj + bestsize <? bhi)
       && bool_decide (a !! (besti + bestsize) = b !! (bestj + bestsize))
    then extend_right rounds' ahi bhi besti bestj (S bestsize)
    else bestsize
  end.

(** [find_longest_match(alo, ahi, blo, bhi)].  The two last loops of the
    source extend the match over junk elements; there are none. *)
Definition find_longest_match (alo ahi blo bhi : nat) : block :=
  let '(besti, bestj, bestsize) :=
    scan_rows (seq alo (ahi - alo)) blo bhi ∅ (alo, blo, 0) in
  let '(besti, bestj, bestsize) :=
    extend_left alo blo besti bestj bestsize in
  let bestsize :=
    extend_right (ahi - (besti + bestsize)) ahi bhi besti bestj bestsize in
  (besti, bestj, bestsize).

(** The work list of [get_matching_blocks]: [queue.pop()] takes the range
    pushed last (the head of the list). *)
Definition range := (nat * nat * nat * nat)%type.

Fixpoint blocks_loop (rounds : nat) (queue : list range)
    (matching_blocks : list block) : list block :=
  match rounds, queue with
  | S rounds', (alo, ahi, blo, bhi) :: queue =>
    let '(i, j, k) := find_longest_match alo ahi blo bhi in
    if k =? 0 then blocks_loop rounds' queue matching_blocks
    else
      let queue :=
        if (alo <? i) && (blo <? j) then (alo, i, blo, j) :: queue
        else queue in
      let queue :=
        if (i + k <? ahi) && (j + k <? bhi) then (i + k, ahi, j + k, bhi) :: queue
        else queue in
      blocks_loop rounds' queue (matching_blocks ++ [(i, j, k)])
  | _, _ => matching_blocks
  end.

(** Every range taken from the queue either yields no block or is split
    around a block of one element or more, so the loop ends within
    [2 * len(a) + 1] rounds. *)
Definition get_matching_blocks : list block :=
  blocks_loop (2 * length a + 1) [(0, length a, 0, length b)] [].

(** [sum(triple[-1] for triple in self.get_matching_blocks())]; sorting
    the blocks, merging adjacent ones and the final [(la, lb, 0)] do not
    change the sum. *)
Definition matches : nat := foldr (fun m s => block_size m + s) 0 get_matching_blocks.

(** [_calculate_ratio(matches, len(a) + len(b))] *)
Definition ratio : Q :=
  let length := length a + length b in
  if length =? 0 then 1%Q
  else (2 * inject_Z (Z.of_nat matches) / inject_Z (Z.of_nat length))%Q.
End Matcher.
End SequenceMatcher.

(** ** Sorting

    [l.sort(key=key, reverse=True)]: Python's sort is stable, also with
    [reverse=True]: elements with equal keys keep their order. *)
Section Sort.
Context {A K : Type} (ltb : K -> K -> bool) (key : A -> K).

Fixpoint insert_desc (x : A) (l : list A) : list A :=
  match l with
  | [] => [x]
  | y :: l' => if ltb (key x) (key y) then y :: insert_desc x l' else x :: l
  end.

Definition sort_desc (l : list A) : list A := foldr insert_desc [] l.
End Sort.

(** [x < y] on rationals (the scores computed exactly) and on strings (code
    point order). *)
Definition Qltb (x y : Q) : bool := negb (Qle_bool y x).

Fixpoint str_ltb (x y : str) : bool :=
  match x, y with
  | _, [] => false
  | [], _ :: _ => true
  | c :: x', d :: y' => (c <? d)%N || (c =? d)%N && str_ltb x' y'
  end.

Definition is_empty {A} (l : list A) : bool :=
  match l with [] => true | _ => false end.

(** [Counter(l)]: the number of occurrences of each element, in the order of
    first occurrence. *)
Fixpoint counter_add (x : str) (c : list (str * nat)) : list (str * nat) :=
  match c with
  | [] => [(x, 1)]
  | (y, n) :: c' =>
    if decide (y = x) then (y, S n) :: c' else (y, n) :: counter_add x c'
  end.

Definition Counter (l : list str) : list (str * nat) :=
  foldl (fun c x => counter_add x c) [] l.

(** The summary returned by [store]. *)
Record summary := mk_summary {
  sum_id : str;
  sum_title : str;
  sum_tags : list str
}.

(** One entry of the results of [search] and [search_recent] (the latter
    without a score). *)
Record hit := mk_hit {
  hit_id : str;
  hit_title : str;
  hit_snippet : str;
  hit_tags : list str;
  hit_timestamp : str;
  hit_score : option Q
}.

Record response := mk_response {
  resp_query : str;
  resp_total : nat;
  resp_results : list hit
}.

Record stats := mk_stats {
  total_records : nat;
  total_tags : nat;
  top_tags : list (str * nat);
  data_location : str
}.

Section KnowledgeVault.
(** [str.lower] *)
Variable lower : str -> str.

(** *** storage.py, continued *)

Definition tag_keywords : list (str * list str) :=
  [ (u "技术", [u "技术"; u "编程"; u "代码"; u "api"; u "算法"; u "数据"; u "开发"]);
    (u "工作", [u "工作"; u "项目"; u "会议"; u "任务"; u "计划"; u "deadline"]);
    (u "学习", [u "学习"; u "教程"; u "笔记"; u "知识"; u "文档"; u "课程"]);
    (u "想法", [u "想法"; u "思考"; u "观点"; u "感悟"; u "心得"; u "反思"]);
    (u "生活", [u "生活"; u "日常"; u "个人"; u "健康"; u "休闲"; u "娱乐"]) ].

Definition _auto_suggest_tags (content title : str) : list str :=
  let text := lower (title ++ u " " ++ content) in
  let suggested :=
    List.map fst
      (List.filter
         (fun '(tag, keywords) => existsb (fun keyword => str_in keyword text) keywords)
         tag_keywords) in
  take 3 suggested.

(** [[tag.strip() for tag in tags.split(",") if tag.strip()]] *)
Definition manual_tags (tags : str) : list str :=
  List.filter (fun tag => negb (is_empty tag))
    (List.map strip (split_on 0x2C tags)).

Definition store (e : env) (fs : file) (content title tags : str)
    (auto_tag : bool) : result summary * file :=
  let record_id := uuid4 e in
  let timestamp := now e in
  let manual_tags := manual_tags tags in
  let suggested_tags :=
    if auto_tag then _auto_suggest_tags content title else [] in
  (* list(set(manual_tags + suggested_tags)) *)
  let all_tags :=
    elements (list_to_set (manual_tags ++ suggested_tags) : gset str) in
  let title :=
    if is_empty (strip title) then _generate_title content else title in
  let record :=
    {| rec_id := Some record_id;
       rec_timestamp := Some timestamp;
       rec_title := Some (strip title);
       rec_content := Some (strip content);
       rec_tags := Some all_tags |} in
  let '(success, fs) := _safe_append_record (attempts e) fs record in
  if success
  then (Ok {| sum_id := record_id; sum_title := title; sum_tags := all_tags |}, fs)
  else (Raise StorageFailed, fs).

Definition search_by_tags (fs : file) (tags : list str) (limit : Z)
  : result (list record) :=
  records ← get_all_records fs;
  let matching :=
    List.filter
      (fun record =>
         let record_tags := default [] (rec_tags record) in
         existsb
           (fun tag => bool_decide (lower tag ∈ List.map lower record_tags))
           tags)
      records in
  let matching :=
    sort_desc str_ltb (fun x => default [] (rec_timestamp x)) matching in
  Ok (upto matching limit).

(** [self.data_file], the path fixed when the storage object is built. *)
Variable data_file : str.

Definition get_stats (fs : file) : result stats :=
  records ← get_all_records fs;
  let all_tags := List.concat (List.map (fun r => default [] (rec_tags r)) records) in
  let tag_counts := Counter all_tags in
  Ok {| total_records := length records;
        total_tags := length (elements (list_to_set all_tags : gset str));
        top_tags := take 10 (sort_desc Nat.ltb snd tag_counts);
        data_location := data_file |}.

(** *** search.py *)

Import SequenceMatcher.

(** The loop over [query_words] in [_calculate_score]. *)
Definition word_boost (title content tags : str) (score : Q) (word : str) : Q :=
  if 2 <? length word then
    let score := if str_in word title then (score + 10)%Q else score in
    let score := if str_in word content then (score + 5)%Q else score in
    let score := if str_in word tags then (score + 15)%Q else score in
    score
  else score.

Definition _calculate_score (r : record) (query : str) : Q :=
  let title := lower (default [] (rec_title r)) in
  let content := lower (default [] (rec_content r)) in
  let tags := lower (str_join (u " ") (default [] (rec_tags r))) in
  let score := 0%Q in
  let score := if str_in query title then (score + 100)%Q else score in
  let score := if str_in query content then (score + 50)%Q else score in
  let score := if str_in query tags then (score + 75)%Q else score in
  let title_similarity := ratio query title in
  let content_similarity := ratio query content in
  let score := (score + title_similarity * 30)%Q in
  let score := (score + content_similarity * 20)%Q in
  let query_words := str_split query in
  foldl (word_boost title content tags) score query_words.

(** The loop over [query_words] in [_generate_snippet]: the position of
    the first word longer than 2 characters that occurs, or -1. *)
Fixpoint first_word_pos (content_lower : str) (query_words : list str) : Z :=
  match query_words with
  | [] => (-1)%Z
  | word :: query_words' =>
    if 2 <? length word then
      let pos := str_find content_lower word in
      if negb (pos =? -1)%Z then pos
      else first_word_pos content_lower query_words'
    else first_word_pos content_lower query_words'
  end.

Definition _generate_snippet (content query : str) (max_length : nat) : str :=
  let content_lower := lower content in
  let query_words := str_split query in
  let pos := str_find content_lower query in
  let best_pos :=
    if negb (pos =? -1)%Z then pos
    else first_word_pos content_lower query_words in
  let snippet :=
    if (best_pos =? -1)%Z then take max_length content
    else
      let start := Z.to_nat (Z.max 0 (best_pos - Z.of_nat (max_length / 3))) in
      let end_ := start + max_length in
      let snippet := slice content start end_ in
      let snippet := if 0 <? start then ellipsis ++ snippet else snippet in
      if end_ <? length content then snippet ++ ellipsis else snippet in
  strip snippet.

(** Step 2 of [search]: the tag filter. *)
Definition tag_filtered (tag_filter : str) (all_records : list record)
  : list record :=
  if is_empty tag_filter then all_records
  else
    let filter_tags :=
      List.map (fun tag => lower (strip tag)) (split_on 0x2C tag_filter) in
    List.filter
      (fun record =>
         let record_tags := List.map lower (default [] (rec_tags record)) in
         existsb (fun ftag => bool_decide (ftag ∈ record_tags)) filter_tags)
      all_records.

(** Step 3: the records that score more than 0, with their scores. *)
Definition scored (query_lower : str) (all_records : list record)
  : list (Q * record) :=
  List.filter (fun x => Qltb 0 (fst x))
    (List.map (fun record => (_calculate_score record query_lower, record))
       all_records).

(** Steps 3 to 5: scored, sorted by score and cut to [limit]. *)
Definition ranked (query_lower : str) (limit : Z) (all_records : list record)
  : list (Q * record) :=
  upto (sort_desc Qltb fst (scored query_lower all_records)) limit.

Definition format_result (query_lower : str) (x : Q * record) : result hit :=
  let '(score, record) := x in
  content ← getitem "content" (rec_content record);
  let snippet := _generate_snippet content query_lower 150 in
  id ← getitem "id" (rec_id record);
  title ← getitem "title" (rec_title record);
  timestamp ← getitem "timestamp" (rec_timestamp record);
  Ok {| hit_id := id; hit_title := title; hit_snippet := snippet;
        hit_tags := default [] (rec_tags record);
        hit_timestamp := timestamp; hit_score := Some score |}.

Definition search (fs : file) (query : str) (limit : Z) (tag_filter : str)
  : result response :=
  all_records ← get_all_records fs;
  let all_records := tag_filtered tag_filter all_records in
  let query_lower := lower query in
  let scored_results := sort_desc Qltb fst (scored query_lower all_records) in
  results ← map_result (format_result query_lower) (upto scored_results limit);
  Ok {| resp_query := query;
        resp_total := length scored_results;
        resp_results := results |}.

Definition format_recent (record : record) : result hit :=
  content ← getitem "content" (rec_content record);
  let snippet := take 150 content in
  let snippet := if 150 <? length content then snippet ++ ellipsis else snippet in
  id ← getitem "id" (rec_id record);
  title ← getitem "title" (rec_title record);
  timestamp ← getitem "timestamp" (rec_timestamp record);
  Ok {| hit_id := id; hit_title := title; hit_snippet := snippet;
        hit_tags := default [] (rec_tags record);
        hit_timestamp := timestamp; hit_score := None |}.

Definition search_recent (fs : file) (limit : Z) : result (list hit) :=
  records ← get_all_records fs;
  let records :=
    sort_desc str_ltb (fun x => default [] (rec_timestamp x)) records in
  map_result format_recent (upto records limit).

(** *** The operations as a state machine

    The public operations of the two classes, the reply of each and its
    effect on the data file.  The reading operations open the file in
    mode ["r"] and leave it as it is. *)
Inductive call :=
| Store (e : env) (content title tags : str) (auto_tag : bool)
| GetAllRecords
| GetById (record_id : str)
| SearchByTags (tags : list str) (limit : Z)
| GetStats
| Search (query : str) (limit : Z) (tag_filter : str)
| SearchRecent (limit : Z).

Inductive reply :=
| Stored (r : result summary)
| Records (r : result (list record))
| Found (r : result (option record))
| Stats (r : result stats)
| Results (r : result response)
| Recent (r : result (list hit)).

Definition exec (fs : file) (c : call) : reply * file :=
  match c with
  | Store e content title tags auto_tag =>
    let '(r, fs) := store e fs content title tags auto_tag in (Stored r, fs)
  | GetAllRecords => (Records (get_all_records fs), fs)
  | GetById record_id => (Found (get_by_id fs record_id), fs)
  | SearchByTags tags limit => (Records (search_by_tags fs tags limit), fs)
  | GetStats => (Stats (get_stats fs), fs)
  | Search query limit tag_filter => (Results (search fs query limit tag_filter), fs)
  | SearchRecent limit => (Recent (search_recent fs limit), fs)
  end.

(** A sequence of calls, one after the other: the replies and the file
    at the end. *)
Fixpoint run (fs : file) (cs : list call) : list reply * file :=
  match cs with
  | [] => ([], fs)
  | c :: cs' =>
    let '(r, fs) := exec fs c in
    let '(rs, fs) := run fs cs' in
    (r :: rs, fs)
  end.
End KnowledgeVault.

(** * Notions used to state the properties *)

(** [sub] occurs in [s] at index [p]. *)
Definition occurs_at (s sub : str) (p : nat) : Prop :=
  exists pre post, s = pre ++ sub ++ post /\ length pre = p.

(** [p] is the lowest index at which [sub] occurs in [s]. *)
Definition first_occurrence (s sub : str) (p : nat) : Prop :=
  occurs_at s sub p /\ forall p', occurs_at s sub p' -> p <= p'.

(** [sub] occurs in [s]. *)
Definition occurs (s sub : str) : Prop := exists p, occurs_at s sub p.

(** The lines of the data file; none when it is absent. *)
Definition lines (fs : file) : list line := default [] fs.

(** The records of the lines that parse, in file order. *)
Definition parsed (ls : list line) : list record :=
  flat_map (fun l => match l with Json r => [r] | _ => [] end) ls.

(** One of the three attempts of a [store] call to write goes through. *)
Definition write_succeeds (e : env) : bool :=
  write_ok e 0 || write_ok e 1 || write_ok e 2.

(** One of the three attempts of a [store] call fails after it has opened
    the file. *)
Definition opens_then_fails (e : env) : bool :=
  existsb
    (fun i => match attempts e i with FailedAfterOpen => true | _ => false end)
    [0; 1; 2].

(** The data file after a [store] call whose three attempts fail. *)
Definition after_failure (e : env) (fs : file) : file :=
  if opens_then_fails e then open_append fs else fs.

(** The tags [store] gives the record. *)
Definition tags_of (lower : str -> str) (content title tags : str)
    (auto_tag : bool) : list str :=
  elements
    (list_to_set
       (manual_tags tags ++
        (if auto_tag then _auto_suggest_tags lower content title else []))
     : gset str).

(** The record a [store] call writes. *)
Definition record_of (lower : str -> str) (e : env) (content title tags : str)
    (auto_tag : bool) : record :=
  {| rec_id := Some (uuid4 e);
     rec_timestamp := Some (now e);
     rec_title :=
       Some (strip (if is_empty (strip title) then _generate_title content
                    else title));
     rec_content := Some (strip content);
     rec_tags := Some (tags_of lower content title tags auto_tag) |}.

(** The reply of a [store] call that went through. *)
Definition stored_ok (r : reply) : bool :=
  match r with Stored (Ok _) => true | _ => false end.

(** The record written by a call, given its reply: that of a [store] call
    that returned a summary. *)
Definition written (lower : str -> str) (cr : call * reply) : option record :=
  match cr with
  | (Store e content title tags auto_tag, Stored (Ok _)) =>
    Some (record_of lower e content title tags auto_tag)
  | _ => None
  end.

(** The records written by the calls [cs] with replies [rs], in call order. *)
Definition successes (lower : str -> str) (cs : list call) (rs : list reply)
  : list record :=
  omap (written lower) (zip cs rs).

(** [ts] is, as a set, the union of the manually supplied tags (the pieces
    of [tags] between commas, trimmed, the empty ones dropped) and, with
    [auto_tag], of the suggested ones. *)
Definition tags_are_union (lower : str -> str) (content title tags : str)
    (auto_tag : bool) (ts : list str) : Prop :=
  NoDup ts /\
  forall t, t ∈ ts <->
    (t <> [] /\ exists piece, piece ∈ split_on 0x2C tags /\ t = strip piece) \/
    (auto_tag = true /\ t ∈ _auto_suggest_tags lower content title).

(** The round trip as the specification words it: the record fetched by the
    returned id has the content passed to [store]. *)
Definition roundtrip_claim (lower : str -> str) (e : env) (fs : file)
    (content title tags : str) (auto_tag : bool) : Prop :=
  forall s fs',
    store lower e fs content title tags auto_tag = (Ok s, fs') ->
    exists r ts,
      get_by_id fs' (sum_id s) = Ok (Some r) /\
      rec_content r = Some content /\
      rec_tags r = Some ts /\
      tags_are_union lower content title tags auto_tag ts.

(** An environment in which the first write goes through. *)
Definition env0 : env :=
  {| uuid4 := u "0b6f1c1e-5a57-4a8e-9d43-2f3f1f0c9a11";
     now := u "2024-05-01T09:30:00.000000";
     attempts := fun _ => Written |}.

(** [x] comes before [y] in [l]: at two positions, the one of [x] first. *)
Definition before {A} (l : list A) (x y : A) : Prop :=
  exists l1 l2 l3, l = l1 ++ x :: l2 ++ y :: l3.

(** Two stored notes that differ in id and time only, and the log that
    holds them. *)
Definition note_a : record :=
  {| rec_id := Some (u "a1"); rec_timestamp := Some (u "2024-05-01T09:30:00");
     rec_title := Some (u "Python API tutorial");
     rec_content := Some (u "Python API tutorial");
     rec_tags := Some [u "技术"] |}.

Definition note_b : record :=
  {| rec_id := Some (u "b2"); rec_timestamp := Some (u "2024-05-02T10:00:00");
     rec_title := Some (u "Python API tutorial");
     rec_content := Some (u "Python API tutorial");
     rec_tags := Some [u "技术"] |}.

Definition two_notes : file := Some [Json note_a; Json note_b].

(** [title], with the ellipsis marker when [content] is longer. *)
Definition with_ellipsis (content title : str) : str :=
  if length title <? length content then title ++ ellipsis else title.

(** The title generator as the specification words it: the first 50
    characters of the trimmed content, cut just after the first delimiter
    character of the candidate when that one is at a position greater than
    10. *)
Definition is_delimiter (c : N) : bool :=
  existsb (fun d => bool_decide (d = [c])) delimiters.

Fixpoint first_delimiter (s : str) (i : nat) : option nat :=
  match s with
  | [] => None
  | c :: s' => if is_delimiter c then Some i else first_delimiter s' (S i)
  end.

Definition spec_generate_title (content : str) : str :=
  let candidate := take 50 (strip content) in
  let title :=
    match first_delimiter candidate 0 with
    | Some p => if 10 <? p then take (p + 1) candidate else candidate
    | None => candidate
    end in
  with_ellipsis content title.

(** A note with two sentence ends in its first 50 characters. *)
Definition hello : str := u "Hello world! How are you. fine".

(** The window of [max_length] characters of [content] that starts
    [max_length / 3] characters before position [p] (at 0 when that is
    negative), with the ellipsis marker in front when it does not start at
    0 and behind when it does not reach the end. *)
Definition window (content : str) (p max_length : nat) : str :=
  let start := p - max_length / 3 in
  (if 0 <? start then ellipsis else []) ++
  slice content start (start + max_length) ++
  (if start + max_length <? length content then ellipsis else []).

(** The snippet as the specification words it: the window at the first
    occurrence of the query, else of the first query word longer than 2
    characters that occurs, else at position 0; trimmed. *)
Definition spec_match_position (content_lower query : str) : option nat :=
  if str_in query content_lower then Some (Z.to_nat (str_find content_lower query))
  else
    head
      (omap
         (fun word =>
            if (2 <? length word) && str_in word content_lower
            then Some (Z.to_nat (str_find content_lower word)) else None)
         (str_split query)).

Definition spec_snippet (lower : str -> str) (content query : str)
    (max_length : nat) : str :=
  let p := default 0 (spec_match_position (lower content) query) in
  strip (window content p max_length).

(** A note of 151 characters. *)
Definition long_note : str := List.repeat 0x61%N 151.

(** ** The relevance score in closed form *)

(** [w] when [c] holds, else 0. *)
Definition bonus (w : Q) (c : bool) : Q := if c then w else 0%Q.

Definition Qsum (l : list Q) : Q := foldr Qplus 0%Q l.

(** What one query word adds to the score. *)
Definition word_bonus (title content tags word : str) : Q :=
  if 2 <? length word
  then (bonus 10 (str_in word title) + bonus 5 (str_in word content)
        + bonus 15 (str_in word tags))%Q
  else 0%Q.

(** The score as the sum the specification gives, for a given similarity
    measure: the three exact-match bonuses, 30 and 20 times the similarity
    of the query to title and content, and the bonuses of the query words. *)
Definition score_formula (similarity : str -> str -> Q) (lower : str -> str)
    (r : record) (query : str) : Q :=
  let title := lower (default [] (rec_title r)) in
  let content := lower (default [] (rec_content r)) in
  let tags := lower (str_join (u " ") (default [] (rec_tags r))) in
  (bonus 100 (str_in query title) + bonus 50 (str_in query content)
   + bonus 75 (str_in query tags)
   + 30 * similarity query title + 20 * similarity query content
   + Qsum (List.map (word_bonus title content tags) (str_split query)))%Q.

(** A record with a given title, the other fields fixed. *)
Definition titled (title : str) : record :=
  {| rec_id := Some (u "c3"); rec_timestamp := Some (u "2024-05-03T08:00:00");
     rec_title := Some title;
     rec_content := Some (u "Notes for the team meeting");
     rec_tags := Some [u "工作"] |}.

(** A record that has the keys [search] reads with [record[key]]. *)
Definition complete (r : record) : Prop :=
  is_Some (rec_id r) /\ is_Some (rec_timestamp r) /\
  is_Some (rec_title r) /\ is_Some (rec_content r).

(** An operation that fails. *)
Definition rejected {A} (r : result A) : Prop := exists e, r = Raise e.

(** A record with no text at all: what [store] writes for empty content. *)
Definition empty_note : record :=
  {| rec_id := Some (u "d4"); rec_timestamp := Some (u "2024-05-04T07:00:00");
     rec_title := Some []; rec_content := Some []; rec_tags := Some [] |}.


(** ** Notions about the matcher *)

Section MatcherNotions.
Import SequenceMatcher.
Variables a b : str.
Variables alo ahi blo bhi : nat.

(** [a[i] == b[j]], for an element that is in the index [b2j]. *)
Definition eq_np (i j : nat) : bool :=
  match a !! i, b !! j with
  | Some x, Some y => bool_decide (x = y) && negb (popular b y)
  | _, _ => false
  end.

(** The length of the run of equal indexed elements that ends at [a[i]]
    and [b[j]] and stays at or above [alo] and [blo]: what [j2len[j]] holds
    after row [i]. *)
Fixpoint common_run (i j : nat) {struct i} : nat :=
  if (alo <=? i) && (blo <=? j) && eq_np i j then
    S (match i, j with S i', S j' => common_run i' j' | _, _ => 0 end)
  else 0.

(** The run that ends one step before [(i, j)]: what [j2len.get(j-1, 0)]
    gives in row [i]. *)
Definition prev_common_run (i j : nat) : nat :=
  match i, j with S i', S j' => common_run i' j' | _, _ => 0 end.

(** The update of [best] at the cell [(i, j)]. *)
Definition best_step (best : block) (ij : nat * nat) : block :=
  let k := common_run ij.1 ij.2 in
  if block_size best <? k then (ij.1 + 1 - k, ij.2 + 1 - k, k) else best.

(** The indices [j] of row [i] that the inner loop visits. *)
Definition row_js (bhi i : nat) : list nat :=
  List.filter (fun j => (blo <=? j) && (j <? bhi)) (default [] (b2j b <$> a !! i)).

(** The cells that the two loops visit, in the order of the visit. *)
Definition cells (bhi : nat) (rows : list nat) : list (nat * nat) :=
  flat_map (fun i => List.map (pair i) (row_js bhi i)) rows.

(** The map [j2len] when row [i] starts: the runs that end in the row
    before. *)
Definition prev_ok (i : nat) (m : gmap Z nat) : Prop :=
  forall j, blo <= j < bhi ->
    default 0 (m !! (Z.of_nat j - 1)%Z) = prev_common_run i j.

(** [blo <= j < bhi] *)
Definition in_range (j : nat) : bool := (blo <=? j) && (j <? bhi).

(** A block of [a] and [b] inside a range: [a[i:i+k] == b[j:j+k]] with
    [alo <= i], [i + k <= ahi], [blo <= j], [j + k <= bhi]. *)
Definition block_ok (a b : str) (alo ahi blo bhi : nat) (m : block) : Prop :=
  let '(i, j, k) := m in
  alo <= i /\ i + k <= ahi /\ blo <= j /\ j + k <= bhi /\
  forall t, t < k -> a !! (i + t) = b !! (j + t).

(** [best] is the initial candidate or the run that ends at a cell. *)
Definition best_inv (best : block) : Prop :=
  best = (alo, blo, 0) \/
  exists ie je,
    alo <= ie < ahi /\ blo <= je < bhi /\ 1 <= common_run ie je /\
    best = (ie + 1 - common_run ie je, je + 1 - common_run ie je, common_run ie je).

(** The sum of the sizes of a list of blocks. *)
Definition blocks_total (ms : list block) : nat :=
  foldr (fun m s => block_size m + s) 0 ms.

(** A range with [alo <= ahi] and [blo <= bhi]. *)
Definition range_ok (r : range) : Prop :=
  let '(alo, ahi, blo, bhi) := r in alo <= ahi /\ blo <= bhi.

(** What a range can still contribute to the sum. *)
Definition room (r : range) : nat :=
  let '(alo, ahi, blo, bhi) := r in Nat.min (ahi - alo) (bhi - blo).

Definition rooms (queue : list range) : nat :=
  foldr (fun r s => room r + s) 0 queue.

End MatcherNotions.

(** ** The Ratcliff-Obershelp similarity, as the specification words it *)

Section RatcliffObershelp.
Import SequenceMatcher.
Variables a b : str.

(** The length of the longest common prefix of two strings. *)
Fixpoint common_prefix (x y : str) : nat :=
  match x, y with
  | c :: x', d :: y' => if (c =? d)%N then S (common_prefix x' y') else 0
  | _, _ => 0
  end.

(** The length of the common block of [a[i:ahi]] and [b[j:bhi]] that starts
    at [i] and [j]. *)
Definition common_at (ahi bhi : nat) (ij : nat * nat) : nat :=
  common_prefix (slice a ij.1 ahi) (slice b ij.2 bhi).

Definition longest_step (ahi bhi : nat) (best : block) (ij : nat * nat) : block :=
  let k := common_at ahi bhi ij in
  if block_size best <? k then (ij.1, ij.2, k) else best.

(** The longest common contiguous block of [a[alo:ahi]] and [b[blo:bhi]]:
    of the longest ones the one that starts first in [a], and of those the
    one that starts first in [b]; [(alo, blo, 0)] when there is none. *)
Definition longest_block (alo ahi blo bhi : nat) : block :=
  foldl (longest_step ahi bhi) (alo, blo, 0)
    (list_prod (seq alo (ahi - alo)) (seq blo (bhi - blo))).

(** The number of matched characters: the longest common block, then the
    same for what is left of it and for what is right of it. *)
Fixpoint ro_matches (depth alo ahi blo bhi : nat) : nat :=
  match depth with
  | 0 => 0
  | S depth' =>
    let '(i, j, k) := longest_block alo ahi blo bhi in
    if k =? 0 then 0
    else k + ro_matches depth' alo i blo j
           + ro_matches depth' (i + k) ahi (j + k) bhi
  end.

(** [2M / (len(a) + len(b))], and 0 when both strings are empty.  Every
    level of the recursion takes a character of [a] or more, so a depth of
    [len(a) + 1] is enough. *)
Definition spec_similarity : Q :=
  let length := length a + length b in
  if length =? 0 then 0%Q
  else (2 * inject_Z (Z.of_nat (ro_matches (S (List.length a)) 0 (List.length a) 0 (List.length b)))
        / inject_Z (Z.of_nat length))%Q.
End RatcliffObershelp.

(** ** The longest block, as a property *)

(** The order in which the cells [(i, j)] are visited. *)
Definition lexlt (p q : nat * nat) : Prop :=
  p.1 < q.1 \/ (p.1 = q.1 /\ p.2 < q.2).

(** [m] is the longest block of the range [a[alo:ahi]], [b[blo:bhi]]: no
    block of the range is longer; of the blocks as long, none starts earlier
    in [a], or at the same place in [a] and earlier in [b]; and it is
    [(alo, blo, 0)] when the range has no block. *)
Definition is_longest (a b : str) (alo ahi blo bhi : nat) (m : SequenceMatcher.block)
  : Prop :=
  let '(i, j, k) := m in
  block_ok a b alo ahi blo bhi (i, j, k) /\
  (forall i' j' k', block_ok a b alo ahi blo bhi (i', j', k') -> k' <= k) /\
  (forall i' j', 1 <= k -> block_ok a b alo ahi blo bhi (i', j', k) ->
     i < i' \/ (i = i' /\ j <= j')) /\
  (k = 0 -> i = alo /\ j = blo).

(** The update of the best candidate at a cell [c] that offers the block
    [blk c] of size [v c]: taken when strictly longer. *)
Definition first_max_step {C} (v : C -> nat) (blk : C -> SequenceMatcher.block)
    (best : SequenceMatcher.block) (c : C) : SequenceMatcher.block :=
  if SequenceMatcher.block_size best <? v c then blk c else best.

(** A range inside the two strings. *)
Definition range_in (a b : str) (r : SequenceMatcher.range) : Prop :=
  let '(alo, ahi, blo, bhi) := r in alo <= ahi <= length a /\ blo <= bhi <= length b.

(** The rounds of the work list that a range can take: one for itself and
    two for each character of [a] in it. *)
Definition weight (r : SequenceMatcher.range) : nat :=
  let '(alo, ahi, _, _) := r in 2 * (ahi - alo) + 1.

Definition weights (queue : list SequenceMatcher.range) : nat :=
  foldr (fun r s => weight r + s) 0 queue.

(** The matched characters of a range, by the recursion of the
    specification at a depth that is enough for it. *)
Definition ro_range (a b : str) (r : SequenceMatcher.range) : nat :=
  let '(alo, ahi, blo, bhi) := r in ro_matches a b (S (ahi - alo)) alo ahi blo bhi.

Definition ro_ranges (a b : str) (queue : list SequenceMatcher.range) : nat :=
  foldr (fun r s => ro_range a b r + s) 0 queue.

(** ** Further notions *)

(** A string with no whitespace at either end. *)
Definition trimmed (s : str) : Prop := lstrip s = s /\ rstrip s = s.

(** The ids that the environment gives to the [store] calls of a run. *)
Definition store_ids (cs : list call) : list str :=
  omap (fun c => match c with
                 | Store e _ _ _ _ => Some (uuid4 e)
                 | _ => None
                 end) cs.

(** [record]'s timestamp as the sorts read it: [x.get("timestamp", "")]. *)
Definition timestamp_of (r : record) : str := default [] (rec_timestamp r).

(** [record] has a tag that equals one of [tags] when both are lower-cased. *)
Definition has_tag (lower : str -> str) (tags : list str) (r : record) : Prop :=
  exists tag t,
    tag ∈ tags /\ t ∈ default [] (rec_tags r) /\ lower tag = lower t.

(** The number of times [t] occurs in [l]. *)
Definition occurrences (t : str) (l : list str) : nat :=
  length (List.filter (fun x => bool_decide (x = t)) l).

(** All the tags of a list of records, with repetitions. *)
Definition all_tags_of (records : list record) : list str :=
  List.concat (List.map (fun r => default [] (rec_tags r)) records).

(** An environment in which the first write attempt fails after it has
    opened the file and the second goes through. *)
Definition env1 : env :=
  {| uuid4 := u "7c9e6679-7425-40de-944b-e07fc1f90ae7";
     now := u "2024-05-01T09:31:00.000000";
     attempts := fun i => if Nat.eqb i 1 then Written else FailedAfterOpen |}.

(** A run with two [store] calls. *)
Definition two_stores : list call :=
  [Store env0 (u "first note") [] [] true;
   GetAllRecords;
   Store env1 (u "  second note ") (u " Title ") (u "x, y") false].

(** An environment in which the first three write attempts fail after
    they have opened the file and a fourth one would go through. *)
Definition env_down : env :=
  {| uuid4 := u "1b4e28ba-2fa1-41d2-883f-0016d3cca427";
     now := u "2024-05-01T09:32:00.000000";
     attempts := fun i => if 3 <=? i then Written else FailedAfterOpen |}.

(** A note with a keyword of four tags of the table. *)
Definition busy_note : str := u "api 项目 笔记 思考".

(** The reply is the failure [e]. *)
Definition reply_raises (r : reply) (e : exn) : Prop :=
  match r with
  | Stored x => x = Raise e
  | Records x => x = Raise e
  | Found x => x = Raise e
  | Stats x => x = Raise e
  | Results x => x = Raise e
  | Recent x => x = Raise e
  end.

Definition is_store (c : call) : bool :=
  match c with Store _ _ _ _ _ => true | _ => false end.

(** A log with a line that is not UTF-8, and calls on it. *)
Definition damaged_log : file := Some [Json note_a; NotUtf8].

Definition calls_on_damaged_log : list call :=
  [GetById (u "a1"); Store env0 (u "a new note") [] [] true; SearchRecent 5;
   GetStats].

(** The record passes the tag filter of [search]: there is none, or one of
    its pieces between commas, trimmed, is a tag of the record, compared
    without regard to case. *)
Definition passes_filter (lower : str -> str) (tag_filter : str) (r : record)
  : Prop :=
  tag_filter = [] \/
  exists piece t,
    piece ∈ split_on 0x2C tag_filter /\ t ∈ default [] (rec_tags r) /\
    lower (strip piece) = lower t.

(** The reply is a result, not an exception. *)
Definition returns (r : reply) : Prop :=
  match r with
  | Stored (Ok _) | Records (Ok _) | Found (Ok _)
  | Stats (Ok _) | Results (Ok _) | Recent (Ok _) => True
  | _ => False
  end.

(** ** The scores as the interpreter computes them

    A Python float is an IEEE 754 binary64 number.  The definitions of this
    module repeat [ratio], [_calculate_score] and [search] with the kernel's
    binary64 floats, each operation rounded as the interpreter rounds it
    and in the order of the code.  Two scores that are equal as rationals
    can differ as floats, so what depends on the order of two scores is
    stated of these definitions. *)
Module Binary64.
Import Floats.

(** [float(n)]: the integer rounded to the nearest float. *)
Definition of_nat (n : nat) : float :=
  SF2Prim (binary_normalize prec emax (Z.of_nat n) 0 false).

(** [_calculate_ratio(matches, len(a) + len(b))]:
    [2.0 * matches / length], and [1.0] when [length] is 0. *)
Definition ratio (a b : str) : float :=
  let length := length a + length b in
  if length =? 0 then 1%float
  else (2 * of_nat (SequenceMatcher.matches a b) / of_nat length)%float.

(** One entry of the results of [search]. *)
Record hit := mk_hit {
  hit_id : str;
  hit_title : str;
  hit_snippet : str;
  hit_tags : list str;
  hit_timestamp : str;
  hit_score : float
}.

Record response := mk_response {
  resp_query : str;
  resp_total : nat;
  resp_results : list hit
}.

Section Scores.
(** [str.lower] *)
Variable lower : str -> str.

(** The loop over [query_words] in [_calculate_score]. *)
Definition word_boost (title content tags : str) (score : float) (word : str)
  : float :=
  if 2 <? length word then
    let score := if str_in word title then (score + 10)%float else score in
    let score := if str_in word content then (score + 5)%float else score in
    let score := if str_in word tags then (score + 15)%float else score in
    score
  else score.

Definition _calculate_score (r : record) (query : str) : float :=
  let title := lower (default [] (rec_title r)) in
  let content := lower (default [] (rec_content r)) in
  let tags := lower (str_join (u " ") (default [] (rec_tags r))) in
  let score := 0%float in
  let score := if str_in query title then (score + 100)%float else score in
  let score := if str_in query content then (score + 50)%float else score in
  let score := if str_in query tags then (score + 75)%float else score in
  let title_similarity := ratio query title in
  let content_similarity := ratio query content in
  let score := (score + title_similarity * 30)%float in
  let score := (score + content_similarity * 20)%float in
  let query_words := str_split query in
  foldl (word_boost title content tags) score query_words.

(** Step 3 of [search]: the records that score more than 0, with their
    scores. *)
Definition scored (query_lower : str) (all_records : list record)
  : list (float * record) :=
  List.filter (fun x => (0 <? fst x)%float)
    (List.map (fun record => (_calculate_score record query_lower, record))
       all_records).

Definition format_result (query_lower : str) (x : float * record) : result hit :=
  let '(score, record) := x in
  content ← getitem "content" (rec_content record);
  let snippet := _generate_snippet lower content query_lower 150 in
  id ← getitem "id" (rec_id record);
  title ← getitem "title" (rec_title record);
  timestamp ← getitem "timestamp" (rec_timestamp record);
  Ok {| hit_id := id; hit_title := title; hit_snippet := snippet;
        hit_tags := default [] (rec_tags record);
        hit_timestamp := timestamp; hit_score := score |}.

Definition search (fs : file) (query : str) (limit : Z) (tag_filter : str)
  : result response :=
  all_records ← get_all_records fs;
  let all_records := tag_filtered lower tag_filter all_records in
  let query_lower := lower query in
  let scored_results :=
    sort_desc PrimFloat.ltb fst (scored query_lower all_records) in
  results ← map_result (format_result query_lower) (upto scored_results limit);
  Ok {| resp_query := query;
        resp_total := length scored_results;
        resp_results := results |}.
End Scores.
End Binary64.

(** [x] comes immediately before [y] in [l]. *)
Definition next_to {A} (l : list A) (x y : A) : Prop :=
  exists l1 l2, l = l1 ++ x :: y :: l2.

(** Two notes with the same score for the query [abcde] in the rationals,
    20 times 2/5 for the first and 30 times 2/9 plus 20 times 1/15 for the
    second, and the log that holds the second before the first. *)
Definition note_x : record :=
  {| rec_id := Some (u "x1"); rec_timestamp := Some (u "2024-05-02T10:00:00");
     rec_title := Some (u "z");
     rec_content := Some (u "abzzz");
     rec_tags := Some [] |}.

Definition note_y : record :=
  {| rec_id := Some (u "y1"); rec_timestamp := Some (u "2024-05-01T09:30:00");
     rec_title := Some (u "azzz");
     rec_content := Some (u "azzzzzzzzzzzzzzzzzzzzzzzz");
     rec_tags := Some [] |}.

Definition y_then_x : file := Some [Json note_y; Json note_x].

(** * Properties of the string operations *)

Lemma startswith_spec s p :
  startswith s p = true <-> exists post, s = p ++ post.
Proof.
  revert s. induction p as [|x p IH]; intros s; simpl.
  - destruct s; split; eauto.
  - destruct s as [|y s]; simpl.
    + split; [discriminate|]. intros [post H]. discriminate.
    + rewrite andb_true_iff, N.eqb_eq, IH. split.
      * intros [-> [post ->]]. eauto.
      * intros [post H]. injection H as -> ->. eauto.
Qed.

Lemma occurs_at_0 s sub : occurs_at s sub 0 <-> startswith s sub = true.
Proof.
  rewrite startswith_spec. split.
  - intros (pre & post & -> & Hl). destruct pre; [|discriminate]. eauto.
  - intros [post ->]. exists [], post. auto.
Qed.

Lemma occurs_at_S c s sub p : occurs_at (c :: s) sub (S p) <-> occurs_at s sub p.
Proof.
  split.
  - intros (pre & post & H & Hl). destruct pre as [|d pre]; [discriminate|].
    injection H as -> ->. injection Hl as Hl. exists pre, post. auto.
  - intros (pre & post & -> & Hl). exists (c :: pre), post. simpl. auto.
Qed.

Lemma occurs_at_nil sub p : occurs_at [] sub p -> p = 0 /\ sub = [].
Proof.
  intros (pre & post & H & Hl). symmetry in H.
  apply app_eq_nil in H as [-> H]. apply app_eq_nil in H as [-> _]. auto.
Qed.

Lemma find_from_eq s sub i :
  find_from s sub i =
  if startswith s sub then Z.of_nat i
  else match s with [] => (-1)%Z | _ :: r => find_from r sub (S i) end.
Proof. by destruct s. Qed.

Lemma find_from_spec s sub i :
  (find_from s sub i = (-1)%Z /\ forall p, ~ occurs_at s sub p) \/
  (exists p, find_from s sub i = Z.of_nat (i + p) /\ first_occurrence s sub p).
Proof.
  revert i. induction s as [|c s IH]; intros i; rewrite find_from_eq.
  - destruct (startswith [] sub) eqn:E.
    + right. exists 0. rewrite Nat.add_0_r. split; [done|].
      split; [by apply occurs_at_0|]. intros; lia.
    + left. split; [done|]. intros p Hp.
      destruct (occurs_at_nil _ _ Hp) as [-> ->]. discriminate.
  - destruct (startswith (c :: s) sub) eqn:E.
    + right. exists 0. rewrite Nat.add_0_r. split; [done|].
      split; [by apply occurs_at_0|]. intros; lia.
    + destruct (IH (S i)) as [[H1 H2]|(p & H1 & H2 & H3)].
      * left. split; [done|]. intros [|p] Hp.
        -- apply occurs_at_0 in Hp. congruence.
        -- apply occurs_at_S in Hp. by apply (H2 p).
      * right. exists (S p). split; [rewrite H1; f_equal; lia|].
        split; [by apply occurs_at_S|].
        intros [|p'] Hp'.
        -- apply occurs_at_0 in Hp'. congruence.
        -- apply occurs_at_S in Hp'. apply H3 in Hp'. lia.
Qed.

Lemma str_find_spec s sub :
  (str_find s sub = (-1)%Z /\ ~ occurs s sub) \/
  (exists p, str_find s sub = Z.of_nat p /\ first_occurrence s sub p).
Proof.
  unfold str_find. destruct (find_from_spec s sub 0) as [[H1 H2]|(p & H1 & H2)].
  - left. split; [done|]. intros [p Hp]. by apply (H2 p).
  - right. exists p. auto.
Qed.

Lemma str_find_first s sub p :
  first_occurrence s sub p -> str_find s sub = Z.of_nat p.
Proof.
  intros [H1 H2]. destruct (str_find_spec s sub) as [[_ H]|(q & -> & H3 & H4)].
  - destruct H. by exists p.
  - f_equal. apply H2 in H3. apply H4 in H1. lia.
Qed.

Lemma str_find_absent s sub : ~ occurs s sub -> str_find s sub = (-1)%Z.
Proof.
  intros H. destruct (str_find_spec s sub) as [[? _]|(q & _ & [H3 _])]; [done|].
  destruct H. by exists q.
Qed.

Lemma str_find_ge s sub : (-1 <= str_find s sub)%Z.
Proof. destruct (str_find_spec s sub) as [[-> _]|(q & -> & _)]; lia. Qed.

Lemma str_in_spec sub s :
  str_in sub s = true <-> exists pre post, s = pre ++ sub ++ post.
Proof.
  unfold str_in. destruct (str_find_spec s sub) as [[-> H]|(q & -> & [H _])].
  - simpl. split; [discriminate|]. intros (pre & post & ->).
    destruct H. exists (length pre), pre, post. auto.
  - replace (Z.of_nat q =? -1)%Z with false by (symmetry; apply Z.eqb_neq; lia).
    simpl. split; [|done]. intros _. destruct H as (pre & post & -> & _). eauto.
Qed.

Lemma str_in_false sub s :
  str_in sub s = false <-> ~ exists pre post, s = pre ++ sub ++ post.
Proof. rewrite <- str_in_spec. destruct (str_in sub s); split; congruence. Qed.

Lemma str_in_nil s : str_in [] s = true.
Proof. apply str_in_spec. exists [], s. done. Qed.

Lemma str_in_trans x y z : str_in x y = true -> str_in y z = true -> str_in x z = true.
Proof.
  rewrite !str_in_spec. intros (p1 & q1 & ->) (p2 & q2 & ->).
  exists (p2 ++ p1), (q1 ++ q2). by rewrite <- !app_assoc.
Qed.

Lemma str_find_Some s sub p :
  str_find s sub = Z.of_nat p -> first_occurrence s sub p.
Proof.
  intros H. destruct (str_find_spec s sub) as [[E _]|(q & E & Hq)].
  - rewrite E in H. lia.
  - rewrite E in H. apply Nat2Z.inj in H. by subst q.
Qed.

Lemma str_find_None s sub : str_find s sub = (-1)%Z -> ~ occurs s sub.
Proof.
  intros H. destruct (str_find_spec s sub) as [[_ E]|(q & E & _)]; [done|].
  rewrite E in H. lia.
Qed.

(** * The record store *)

Local Arguments written : simpl never.

Lemma read_lines_acc ls acc :
  read_lines ls acc =
  match read_lines ls [] with Ok rs => Ok (acc ++ rs) | Raise e => Raise e end.
Proof.
  revert acc. induction ls as [|l ls IH]; intros acc; simpl.
  - by rewrite app_nil_r.
  - destruct l; auto. rewrite IH, (IH [r]).
    destruct (read_lines ls []); simpl; auto. by rewrite <- app_assoc.
Qed.

Lemma read_lines_readable ls :
  NotUtf8 ∉ ls -> read_lines ls [] = Ok (parsed ls).
Proof.
  induction ls as [|l ls IH]; intros H; simpl; auto.
  rewrite not_elem_of_cons in H. destruct H as [H1 H2].
  destruct l; auto; [|done]. rewrite read_lines_acc, IH; auto.
Qed.

Lemma read_lines_unreadable ls acc :
  NotUtf8 ∈ ls -> read_lines ls acc = Raise UnicodeDecodeError.
Proof.
  revert acc. induction ls as [|l ls IH]; intros acc H.
  - by apply elem_of_nil in H.
  - apply elem_of_cons in H. destruct l; simpl; auto;
      destruct H as [H|H]; try discriminate; auto.
Qed.

Lemma get_all_records_readable fs :
  NotUtf8 ∉ lines fs -> get_all_records fs = Ok (parsed (lines fs)).
Proof. destruct fs as [ls|]; simpl; [apply read_lines_readable | done]. Qed.

Lemma get_all_records_Ok fs rs :
  get_all_records fs = Ok rs -> (NotUtf8 ∉ lines fs) /\ rs = parsed (lines fs).
Proof.
  intros H. destruct (decide (NotUtf8 ∈ lines fs)) as [Hin|Hout].
  - destruct fs as [ls|]; simpl in *; [|by apply elem_of_nil in Hin].
    rewrite read_lines_unreadable in H; [discriminate | done].
  - split; [done|]. rewrite get_all_records_readable in H; congruence.
Qed.

Lemma parsed_app l1 l2 : parsed (l1 ++ l2) = parsed l1 ++ parsed l2.
Proof. unfold parsed. by rewrite flat_map_app. Qed.

Lemma lines_append_line fs l : lines (append_line fs l) = lines fs ++ [l].
Proof. by destruct fs. Qed.

Lemma append_line_open fs l : append_line (open_append fs) l = append_line fs l.
Proof. by destruct fs. Qed.

Lemma open_append_idem fs : open_append (open_append fs) = open_append fs.
Proof. by destruct fs. Qed.

Lemma lines_open_append fs : lines (open_append fs) = lines fs.
Proof. by destruct fs. Qed.

Lemma append_loop_eq e fs r :
  _safe_append_record (attempts e) fs r =
  if write_succeeds e then (true, append_line fs (Json r))
  else (false, after_failure e fs).
Proof.
  unfold _safe_append_record, max_retries, write_succeeds, write_ok,
    after_failure, opens_then_fails. simpl.
  destruct (attempts e 0), (attempts e 1), (attempts e 2); simpl;
    by rewrite ?append_line_open, ?open_append_idem.
Qed.

Lemma lines_after_failure e fs : lines (after_failure e fs) = lines fs.
Proof.
  unfold after_failure. destruct (opens_then_fails e); [|done].
  apply lines_open_append.
Qed.

(** What [store] does, by whether the write goes through. *)
Lemma store_eq lower e fs content title tags auto_tag :
  store lower e fs content title tags auto_tag =
  if write_succeeds e
  then (Ok {| sum_id := uuid4 e;
              sum_title := if is_empty (strip title) then _generate_title content
                           else title;
              sum_tags := tags_of lower content title tags auto_tag |},
        append_line fs (Json (record_of lower e content title tags auto_tag)))
  else (Raise StorageFailed, after_failure e fs).
Proof.
  unfold store. rewrite append_loop_eq. by destruct (write_succeeds e).
Qed.

Lemma exec_lines lower data_file fs c :
  lines (exec lower data_file fs c).2 =
  lines fs ++
  match written lower (c, (exec lower data_file fs c).1) with
  | Some r => [Json r]
  | None => []
  end.
Proof.
  destruct c; simpl; try by rewrite app_nil_r.
  rewrite store_eq. destruct (write_succeeds e); simpl.
  - apply lines_append_line.
  - by rewrite app_nil_r, lines_after_failure.
Qed.

Lemma run_lines lower data_file cs : forall fs,
  lines (run lower data_file fs cs).2 =
  lines fs ++ List.map Json (successes lower cs (run lower data_file fs cs).1).
Proof.
  induction cs as [|c cs IH]; intros fs; simpl.
  - by rewrite app_nil_r.
  - pose proof (exec_lines lower data_file fs c) as Hc.
    destruct (exec lower data_file fs c) as [r fs1]. simpl in Hc.
    specialize (IH fs1). destruct (run lower data_file fs1 cs) as [rs fs2].
    simpl in *. rewrite IH, Hc, <- app_assoc. f_equal.
    unfold successes. simpl. by destruct (written lower (c, r)).
Qed.

Lemma run_length lower data_file cs : forall fs,
  length (run lower data_file fs cs).1 = length cs.
Proof.
  induction cs as [|c cs IH]; intros fs; simpl; auto.
  destruct (exec lower data_file fs c) as [r fs1]. specialize (IH fs1).
  destruct (run lower data_file fs1 cs). simpl in *. by rewrite IH.
Qed.

Lemma parsed_map_Json rs : parsed (List.map Json rs) = rs.
Proof. induction rs; simpl; congruence. Qed.

Lemma NotUtf8_not_Json rs : NotUtf8 ∉ List.map Json rs.
Proof. induction rs; simpl; [apply not_elem_of_nil|]. by apply not_elem_of_cons. Qed.

Lemma exec_reply_kind lower data_file fs c :
  stored_ok (exec lower data_file fs c).1 = true ->
  exists e content title tags auto_tag, c = Store e content title tags auto_tag.
Proof.
  destruct c; simpl; try discriminate.
  intros _. eauto 10.
Qed.

Lemma successes_length lower data_file cs : forall fs,
  length (successes lower cs (run lower data_file fs cs).1) =
  length (List.filter stored_ok (run lower data_file fs cs).1).
Proof.
  induction cs as [|c cs IH]; intros fs; simpl; auto.
  pose proof (exec_reply_kind lower data_file fs c) as Hk.
  destruct (exec lower data_file fs c) as [r fs1]. specialize (IH fs1).
  destruct (run lower data_file fs1 cs) as [rs fs2]. simpl in *.
  unfold successes in *. simpl.
  destruct (stored_ok r) eqn:Er.
  - destruct Hk as (e & content & title & tags & auto_tag & ->); auto.
    destruct r as [[s|x]| | | | |]; try discriminate.
    unfold written. simpl. f_equal. exact IH.
  - assert (written lower (c, r) = None) as ->; [|done].
    destruct c; auto. destruct r as [[s|x]| | | | |]; auto. discriminate.
Qed.

(** C3. Append-only: from an empty or absent data file, after any sequence
    of calls [get_all_records] returns exactly the records written by the
    [store] calls that went through, as many as there were and in call
    order; and no call, on any file, changes or removes a line that is
    there: the file after the call extends the file before it. *)
Theorem append_only lower data_file (fs : file) (cs : list call) :
  lines fs = [] ->
  (forall rs fs', run lower data_file fs cs = (rs, fs') ->
     get_all_records fs' = Ok (successes lower cs rs) /\
     length (successes lower cs rs) = length (List.filter stored_ok rs)) /\
  (forall fs0 c, lines fs0 `prefix_of` lines (exec lower data_file fs0 c).2).
Proof.
  intros Hempty. split.
  - intros rs fs' Hrun.
    pose proof (run_lines lower data_file cs fs) as Hl.
    pose proof (successes_length lower data_file cs fs) as Hn.
    rewrite Hrun in Hl, Hn. simpl in Hl, Hn. rewrite Hempty in Hl. simpl in Hl.
    split; [|done]. rewrite get_all_records_readable; rewrite Hl.
    + by rewrite parsed_map_Json.
    + apply NotUtf8_not_Json.
  - intros fs0 c. rewrite exec_lines. apply prefix_app_r. done.
Qed.

(** C8, at the failing input: a line that is not UTF-8 among well-formed
    lines makes [get_all_records] raise [UnicodeDecodeError] (the code
    catches [JSONDecodeError] and [FileNotFoundError] only), and no record
    is returned. *)
Theorem undecodable_line_is_fatal (before after : list line) :
  get_all_records (Some (before ++ NotUtf8 :: after)) = Raise UnicodeDecodeError.
Proof.
  simpl. apply read_lines_unreadable. set_solver.
Qed.

(** A line that is not JSON, or blank, among lines that parse is skipped. *)
Lemma malformed_line_is_skipped (rs1 rs2 : list record) (l : line) :
  l = NotJson \/ l = Blank ->
  get_all_records (Some (List.map Json rs1 ++ l :: List.map Json rs2)) = Ok (rs1 ++ rs2).
Proof.
  intros Hl. rewrite get_all_records_readable; simpl.
  - rewrite parsed_app. simpl. rewrite !parsed_map_Json.
    by destruct Hl as [-> | ->].
  - rewrite elem_of_app, elem_of_cons. intros [H|[H|H]].
    + by apply NotUtf8_not_Json in H.
    + destruct Hl; congruence.
    + by apply NotUtf8_not_Json in H.
Qed.

(** A missing data file reads as no record. *)
Lemma missing_file_is_empty : get_all_records None = Ok [].
Proof. reflexivity. Qed.

Lemma first_with_id_app record_id rs r :
  (forall r', r' ∈ rs -> rec_id r' <> Some record_id) ->
  rec_id r = Some record_id ->
  first_with_id record_id (rs ++ [r]) = Some r.
Proof.
  intros Hfresh Hid. induction rs as [|r' rs IH]; simpl.
  - by rewrite decide_True.
  - rewrite decide_False; [|apply Hfresh; set_solver].
    apply IH. intros r'' H. apply Hfresh. set_solver.
Qed.

Lemma elem_of_manual_tags t tags :
  t ∈ manual_tags tags <->
  t <> [] /\ exists piece, piece ∈ split_on 0x2C tags /\ t = strip piece.
Proof.
  unfold manual_tags. rewrite list_elem_of_In, filter_In, in_map_iff.
  split.
  - intros [(piece & <- & Hin) Hne]. split.
    + intros E. by rewrite E in Hne.
    + exists piece. by rewrite list_elem_of_In.
  - intros [Hne (piece & Hin & ->)]. split.
    + exists piece. by rewrite <- list_elem_of_In.
    + by destruct (strip piece).
Qed.

Lemma tags_of_union lower content title tags auto_tag :
  tags_are_union lower content title tags auto_tag
    (tags_of lower content title tags auto_tag).
Proof.
  unfold tags_are_union, tags_of. split; [apply NoDup_elements|].
  intros t. rewrite elem_of_elements, elem_of_list_to_set, elem_of_app.
  rewrite elem_of_manual_tags. destruct auto_tag.
  - split; (intros [H|H]; [by left | right]); [done | by destruct H].
  - split; (intros [H|H]; [by left |]).
    + by apply elem_of_nil in H.
    + by destruct H.
Qed.

(** The record fetched after a [store] call that went through. *)
Lemma get_by_id_after_store lower e fs content title tags auto_tag :
  NotUtf8 ∉ lines fs ->
  (forall r, r ∈ parsed (lines fs) -> rec_id r <> Some (uuid4 e)) ->
  get_by_id (append_line fs (Json (record_of lower e content title tags auto_tag)))
    (uuid4 e) = Ok (Some (record_of lower e content title tags auto_tag)).
Proof.
  intros Hread Hfresh. unfold get_by_id. rewrite get_all_records_readable.
  - rewrite lines_append_line, parsed_app.
    change (parsed [Json ?r]) with [r].
    cbn [mbind result_bind]. by rewrite first_with_id_app.
  - rewrite lines_append_line. rewrite not_elem_of_app. split; [done|].
    apply not_elem_of_cons. split; [done|apply not_elem_of_nil].
Qed.

(** C2 (amended).  After a [store] call that went through, on a readable
    log that does not hold the new id yet, [get_by_id] on the returned id
    returns a record whose content is the content passed to [store] with
    the surrounding whitespace removed, and whose tags are, without
    duplicates, the union of the manual and the suggested tags. *)
Theorem store_then_get_by_id lower e fs content title tags auto_tag s fs' :
  store lower e fs content title tags auto_tag = (Ok s, fs') ->
  NotUtf8 ∉ lines fs ->
  (forall r, r ∈ parsed (lines fs) -> rec_id r <> Some (uuid4 e)) ->
  exists r ts,
    get_by_id fs' (sum_id s) = Ok (Some r) /\
    rec_content r = Some (strip content) /\
    rec_tags r = Some ts /\
    tags_are_union lower content title tags auto_tag ts.
Proof.
  intros Hstore Hread Hfresh. rewrite store_eq in Hstore.
  destruct (write_succeeds e); [|discriminate].
  injection Hstore as <- <-. cbn [sum_id].
  exists (record_of lower e content title tags auto_tag),
         (tags_of lower content title tags auto_tag).
  split; [by apply get_by_id_after_store|].
  split; [done|split; [done|apply tags_of_union]].
Qed.

Lemma store_then_get_by_id_witness :
  exists s fs' r ts,
    store ascii_lower env0 None (u " a") [] (u "x, y,x") true = (Ok s, fs') /\
    (NotUtf8 ∉ lines None) /\
    get_by_id fs' (sum_id s) = Ok (Some r) /\
    rec_content r = Some (strip (u " a")) /\
    rec_tags r = Some ts /\
    tags_are_union ascii_lower (u " a") [] (u "x, y,x") true ts.
Proof.
  assert (H1 : NotUtf8 ∉ lines None) by apply not_elem_of_nil.
  assert (H2 : forall r, r ∈ parsed (lines None) -> rec_id r <> Some (uuid4 env0)).
  { intros r H. by apply elem_of_nil in H. }
  pose proof (store_eq ascii_lower env0 None (u " a") [] (u "x, y,x") true) as E.
  change (write_succeeds env0) with true in E. cbv iota in E.
  destruct (store_then_get_by_id _ _ _ _ _ _ _ _ _ E H1 H2) as (r & ts & H).
  eexists _, _, r, ts. split; [exact E|]. split; [exact H1|exact H].
Defined.

(** The round trip as worded holds only for content that [strip] leaves
    as it is. *)
Lemma roundtrip_claim_strip lower e content title tags auto_tag :
  write_succeeds e = true ->
  roundtrip_claim lower e None content title tags auto_tag ->
  strip content = content.
Proof.
  intros Hw H.
  pose proof (store_eq lower e None content title tags auto_tag) as E.
  rewrite Hw in E.
  destruct (H _ _ E) as (r & ts & Hget & Hc & _).
  cbn [sum_id] in Hget. rewrite get_by_id_after_store in Hget.
  - injection Hget as <-. cbn [rec_content record_of] in Hc. congruence.
  - apply not_elem_of_nil.
  - intros r' Hr. by apply elem_of_nil in Hr.
Qed.

(** C2, as stated, fails: content with surrounding whitespace is stored
    trimmed. *)
Lemma roundtrip_content_counterexample :
  ~ roundtrip_claim ascii_lower env0 None (u " a") [] [] true.
Proof.
  intros H. apply roundtrip_claim_strip in H; [|reflexivity].
  vm_compute in H. discriminate H.
Qed.

Lemma append_only_witness :
  lines None = [] /\
  (forall rs fs',
     run ascii_lower (u "/home/u/.knowledge-vault/knowledge.jsonl") None
       [Store env0 (u "note") [] [] true; GetAllRecords] = (rs, fs') ->
     get_all_records fs' =
       Ok (successes ascii_lower [Store env0 (u "note") [] [] true; GetAllRecords] rs) /\
     length (successes ascii_lower [Store env0 (u "note") [] [] true; GetAllRecords] rs) =
       length (List.filter stored_ok rs)).
Proof.
  split; [reflexivity|].
  apply (append_only ascii_lower (u "/home/u/.knowledge-vault/knowledge.jsonl") None
           [Store env0 (u "note") [] [] true; GetAllRecords]).
  reflexivity.
Defined.

(** * Sorting and the order of the results *)

Section Before.
Context {A B : Type}.
Implicit Types (l : list A) (x y : A).

Lemma before_cons l a x y : before l x y -> before (a :: l) x y.
Proof. intros (l1 & l2 & l3 & ->). by exists (a :: l1), l2, l3. Qed.

Lemma before_head l x y : y ∈ l -> before (x :: l) x y.
Proof.
  intros H. apply list_elem_of_split in H as (l2 & l3 & ->). by exists [], l2, l3.
Qed.

Lemma before_cons_inv l a x y :
  before (a :: l) x y -> (x = a /\ y ∈ l) \/ before l x y.
Proof.
  intros (l1 & l2 & l3 & H). destruct l1 as [|b l1]; simplify_eq/=.
  - left. split; [done|]. set_solver.
  - right. by exists l1, l2, l3.
Qed.

Lemma before_elem_of_l l x y : before l x y -> x ∈ l.
Proof. intros (l1 & l2 & l3 & ->). set_solver. Qed.

Lemma before_elem_of_r l x y : before l x y -> y ∈ l.
Proof. intros (l1 & l2 & l3 & ->). set_solver. Qed.

Lemma before_take l n x y : before (take n l) x y -> before l x y.
Proof.
  intros (l1 & l2 & l3 & H). exists l1, l2, (l3 ++ drop n l).
  rewrite <- (take_drop n l) at 1. rewrite H.
  rewrite <- app_assoc. simpl. by rewrite <- app_assoc.
Qed.

Lemma before_upto l n x y : before (upto l n) x y -> before l x y.
Proof. unfold upto. destruct (0 <=? n)%Z; apply before_take. Qed.

Lemma before_filter_inv (P : A -> bool) l x y :
  before (List.filter P l) x y -> before l x y.
Proof.
  induction l as [|a l IH]; simpl.
  - intros (l1 & l2 & l3 & H). by destruct l1.
  - destruct (P a) eqn:E; [|by intros H; apply before_cons, IH].
    intros H. apply before_cons_inv in H as [[-> H]|H].
    + apply before_head. rewrite list_elem_of_In in H.
      apply filter_In in H as [H _]. by rewrite list_elem_of_In.
    + by apply before_cons, IH.
Qed.

Lemma before_map_inv (f : A -> B) l (x y : B) :
  before (List.map f l) x y ->
  exists a b, before l a b /\ f a = x /\ f b = y.
Proof.
  intros (m1 & m2 & m3 & H).
  apply map_eq_app in H as (l1 & r1 & -> & <- & H).
  apply map_eq_cons in H as (a & r2 & -> & <- & H).
  apply map_eq_app in H as (l2 & r3 & -> & <- & H).
  apply map_eq_cons in H as (b & l3 & -> & <- & <-).
  exists a, b. split; [|done]. by exists l1, l2, l3.
Qed.
End Before.

Section SortProperties.
Context {A K : Type} (ltb : K -> K -> bool) (key : A -> K).
Implicit Types (l : list A) (x y : A).

Lemma elem_of_insert_desc a l x : x ∈ insert_desc ltb key a l <-> x = a \/ x ∈ l.
Proof.
  induction l as [|b l IH]; simpl.
  - rewrite elem_of_cons. done.
  - destruct (ltb (key a) (key b)).
    + rewrite !elem_of_cons, IH. tauto.
    + rewrite !elem_of_cons. tauto.
Qed.

Lemma elem_of_sort_desc l x : x ∈ sort_desc ltb key l <-> x ∈ l.
Proof.
  induction l as [|a l IH]; simpl; [done|].
  rewrite elem_of_insert_desc, elem_of_cons, IH. done.
Qed.

Lemma sort_desc_length l : length (sort_desc ltb key l) = length l.
Proof.
  induction l as [|a l IH]; simpl; [done|]. rewrite <- IH. clear IH.
  induction (sort_desc ltb key l) as [|b s IH]; simpl; [done|].
  destruct (ltb (key a) (key b)); simpl; congruence.
Qed.

(** An element put in by [insert_desc] goes behind those with a greater
    key only. *)
Lemma before_insert_desc a l x y :
  before (insert_desc ltb key a l) x y ->
  (x = a /\ y ∈ l) \/ before l x y \/
  (y = a /\ x ∈ l /\ ltb (key a) (key x) = true).
Proof.
  induction l as [|b l IH]; simpl.
  - intros (l1 & l2 & l3 & H). destruct l1 as [|? [|]]; simplify_eq/=.
    all: by destruct l2.
  - destruct (ltb (key a) (key b)) eqn:E.
    + intros H. apply before_cons_inv in H as [[-> H]|H].
      * apply elem_of_insert_desc in H as [->|H].
        -- right. right. split; [done|]. split; [set_solver|done].
        -- right. left. by apply before_head.
      * apply IH in H as [[-> H]|[H|(-> & H1 & H2)]].
        -- left. split; [done|]. set_solver.
        -- right. left. by apply before_cons.
        -- right. right. split; [done|]. split; [set_solver|done].
    + intros H. apply before_cons_inv in H as [[-> H]|H]; [by left|by right; left].
Qed.

(** Stability: two elements come out of the sort in the order they went
    in, unless the second has the greater key. *)
Lemma before_sort_desc l x y :
  before (sort_desc ltb key l) x y ->
  before l x y \/ ltb (key y) (key x) = true.
Proof.
  revert x y. induction l as [|a l IH]; intros x y; simpl.
  - intros (l1 & l2 & l3 & H). by destruct l1.
  - intros H. apply before_insert_desc in H as [[-> H]|[H|(-> & H1 & H2)]].
    + left. apply before_head. exact (proj1 (elem_of_sort_desc _ _) H).
    + apply IH in H as [H|H]; [left; by apply before_cons | by right].
    + by right.
Qed.

(** The sort puts no element behind one with a smaller key, provided
    "not less than" is transitive. *)
Lemma sort_desc_sorted l x y :
  (forall k1 k2 k3, ltb k1 k2 = false -> ltb k2 k3 = false -> ltb k1 k3 = false) ->
  (forall k1 k2, ltb k1 k2 = true -> ltb k2 k1 = false) ->
  before (sort_desc ltb key l) x y -> ltb (key x) (key y) = false.
Proof.
  intros Htrans Hasym. revert x y.
  assert (Hins : forall a s,
             (forall x y, before s x y -> ltb (key x) (key y) = false) ->
             forall x y, before (insert_desc ltb key a s) x y ->
                         ltb (key x) (key y) = false).
  { intros a s. induction s as [|b s IHs]; intros Hs x y; simpl.
    - intros (l1 & l2 & l3 & H). destruct l1 as [|? [|]]; simplify_eq/=.
      all: by destruct l2.
    - destruct (ltb (key a) (key b)) eqn:E.
      + intros H. apply before_cons_inv in H as [[-> H]|H].
        * apply elem_of_insert_desc in H as [->|H]; [by apply Hasym|].
          apply Hs. by apply before_head.
        * apply IHs; [|done]. intros x' y' H'. by apply Hs, before_cons.
      + intros H. apply before_cons_inv in H as [[-> H]|H]; [|by apply Hs].
        apply elem_of_cons in H as [->|H]; [done|].
        apply (Htrans _ (key b)); [done|]. apply Hs. by apply before_head. }
  induction l as [|a l IH]; simpl.
  - intros x y (l1 & l2 & l3 & H). by destruct l1.
  - apply Hins, IH.
Qed.
End SortProperties.

Lemma Qltb_spec (x y : Q) : Qltb x y = true <-> (x < y)%Q.
Proof.
  unfold Qltb. rewrite negb_true_iff. split.
  - intros H. apply Qnot_le_lt. intros Hle. apply Qle_bool_iff in Hle. congruence.
  - intros H. destruct (Qle_bool y x) eqn:E; [|done].
    apply Qle_bool_iff in E. by apply Qlt_not_le in H.
Qed.

Lemma Qltb_false (x y : Q) : Qltb x y = false <-> (y <= x)%Q.
Proof.
  unfold Qltb. rewrite negb_false_iff. apply Qle_bool_iff.
Qed.

Lemma map_result_Ok {A B} (f : A -> result B) l ys :
  map_result f l = Ok ys -> Forall2 (fun x y => f x = Ok y) l ys.
Proof.
  revert ys. induction l as [|x l IH]; intros ys; simpl.
  - intros [= <-]. constructor.
  - destruct (f x) as [y|e] eqn:E; [|done]. simpl.
    destruct (map_result f l) as [ys'|e] eqn:E'; [|done]. simpl.
    intros [= <-]. constructor; auto.
Qed.

Lemma before_Forall2 {A B} (R : A -> B -> Prop) l m (x y : B) :
  Forall2 R l m -> before m x y ->
  exists a b, before l a b /\ R a x /\ R b y.
Proof.
  intros HF (m1 & m2 & m3 & ->).
  apply Forall2_app_inv_r in HF as (l1 & r1 & _ & HF & ->).
  apply Forall2_cons_inv_r in HF as (a & r2 & Ha & HF & ->).
  apply Forall2_app_inv_r in HF as (l2 & r3 & _ & HF & ->).
  apply Forall2_cons_inv_r in HF as (b & l3 & Hb & _ & ->).
  exists a, b. split; [|done]. by exists l1, l2, l3.
Qed.

Lemma Qltb_trans k1 k2 k3 :
  Qltb k1 k2 = false -> Qltb k2 k3 = false -> Qltb k1 k3 = false.
Proof. rewrite !Qltb_false. intros H1 H2. by apply (Qle_trans _ k2). Qed.

Lemma Qltb_asym k1 k2 : Qltb k1 k2 = true -> Qltb k2 k1 = false.
Proof. rewrite Qltb_spec, Qltb_false. apply Qlt_le_weak. Qed.

Lemma elem_of_scored lower q l x :
  x ∈ scored lower q l ->
  x = (_calculate_score lower x.2 q, x.2) /\ x.2 ∈ l.
Proof.
  unfold scored. rewrite list_elem_of_In, filter_In, in_map_iff.
  intros [(r & <- & Hin) _]. split; [done|]. by apply list_elem_of_In.
Qed.

Lemma before_scored lower q l x y :
  before (scored lower q l) x y -> before l x.2 y.2.
Proof.
  unfold scored. intros H. apply before_filter_inv in H.
  apply before_map_inv in H as (a & b & H & <- & <-). done.
Qed.

Lemma format_result_score lower q x h :
  format_result lower q x = Ok h -> hit_score h = Some x.1.
Proof.
  destruct x as [c r]. unfold format_result.
  destruct (rec_content r), (rec_id r), (rec_title r), (rec_timestamp r);
    simpl; try discriminate.
  by intros [= <-].
Qed.


(** * The title generator *)

Lemma lstrip_suffix s : exists w, s = w ++ lstrip s.
Proof.
  induction s as [|c s [w IH]]; simpl; [by exists []|].
  destruct (isspace c); [|by exists []].
  exists (c :: w). simpl. by rewrite <- IH.
Qed.

Lemma rstrip_prefix s : exists w, s = rstrip s ++ w.
Proof.
  unfold rstrip. destruct (lstrip_suffix (rev s)) as [w H].
  exists (rev w). rewrite <- rev_app_distr, <- H. by rewrite rev_involutive.
Qed.

Lemma lstrip_take s n : lstrip s = s -> lstrip (take n s) = take n s.
Proof.
  destruct s as [|c s]; [by destruct n|]. destruct n; [done|]. simpl.
  destruct (isspace c) eqn:E; [|done]. intros H.
  destruct (lstrip_suffix s) as [w Hw].
  assert (Hlen : length (lstrip s) = length (c :: s)) by by rewrite H.
  rewrite Hw in Hlen at 2. simpl in Hlen. rewrite length_app in Hlen. lia.
Qed.

(** With no whitespace in front, the candidate is a prefix of the content. *)
Lemma candidate_prefix content :
  lstrip content = content ->
  exists rest, content = strip (take 50 content) ++ rest.
Proof.
  intros H. unfold strip. rewrite (lstrip_take _ 50 H).
  destruct (rstrip_prefix (take 50 content)) as [w Hw].
  exists (w ++ drop 50 content). rewrite app_assoc, <- Hw. by rewrite take_drop.
Qed.

Lemma first_occurrence_lt s sub p :
  first_occurrence s sub p -> p + length sub <= length s.
Proof.
  intros [(pre & post & -> & <-) _]. rewrite !length_app. lia.
Qed.

Lemma first_occurrence_unique s sub p q :
  first_occurrence s sub p -> first_occurrence s sub q -> p = q.
Proof. intros [H1 H2] [H3 H4]. apply H2 in H3. apply H4 in H1. lia. Qed.

(** What the loop over the delimiters returns. *)
Lemma title_loop_none ds content title :
  (forall d p, d ∈ ds -> first_occurrence title d p -> p <= 10) ->
  title_loop ds content title = title.
Proof.
  induction ds as [|d ds IH]; intros H; simpl; [done|].
  destruct (str_find_spec title d) as [[-> _]|(p & -> & Hp)]; simpl.
  - apply IH. intros d' p' Hd. apply H. set_solver.
  - apply (H d p) in Hp; [|set_solver].
    replace (10 <? Z.of_nat p)%Z with false by (symmetry; apply Z.ltb_ge; lia).
    apply IH. intros d' p' Hd. apply H. set_solver.
Qed.

Lemma title_loop_some ds1 d ds2 p content title :
  (forall d' p', d' ∈ ds1 -> first_occurrence title d' p' -> p' <= 10) ->
  first_occurrence title d p -> 10 < p ->
  title_loop (ds1 ++ d :: ds2) content title = take (p + 1) content.
Proof.
  intros H Hp Hlt. induction ds1 as [|d1 ds1 IH]; simpl.
  - rewrite (str_find_first _ _ _ Hp).
    replace (10 <? Z.of_nat p)%Z with true by (symmetry; apply Z.ltb_lt; lia).
    f_equal. lia.
  - destruct (str_find_spec title d1) as [[-> _]|(p1 & -> & Hp1)]; simpl.
    + apply IH. intros d' p' Hd. apply H. set_solver.
    + apply (H d1 p1) in Hp1; [|set_solver].
      replace (10 <? Z.of_nat p1)%Z with false by (symmetry; apply Z.ltb_ge; lia).
      apply IH. intros d' p' Hd. apply H. set_solver.
Qed.

(** C4 (amended).  For content that does not start with whitespace, the
    generated title is the trimmed first 50 characters of the content (the
    candidate), unless one of the delimiters has its first occurrence in
    the candidate at a position greater than 10: then, for the first such
    delimiter in the order 。 . ? ？ ! ！ of the list, the title is the
    candidate up to and including that first occurrence.  In both cases the
    ellipsis marker is appended when the content is longer than the title. *)
Theorem generate_title_by_delimiter_order content :
  lstrip content = content ->
  let candidate := strip (take 50 content) in
  ((forall d p, d ∈ delimiters -> first_occurrence candidate d p -> p <= 10) ->
   _generate_title content = with_ellipsis content candidate) /\
  (forall ds1 d ds2 p,
     delimiters = ds1 ++ d :: ds2 ->
     (forall d' p', d' ∈ ds1 -> first_occurrence candidate d' p' -> p' <= 10) ->
     first_occurrence candidate d p -> 10 < p ->
     take (p + 1) candidate = take p candidate ++ d /\
     _generate_title content = with_ellipsis content (take (p + 1) candidate)).
Proof.
  intros Hl candidate. split.
  - intros H. unfold _generate_title. fold candidate.
    by rewrite title_loop_none.
  - intros ds1 d ds2 p Hds Hnone Hp Hlt.
    assert (Hd : length d = 1).
    { assert (Hin : d ∈ delimiters) by (rewrite Hds; set_solver).
      unfold delimiters in Hin. rewrite !elem_of_cons in Hin.
      destruct Hin as [->|[->|[->|[->|[->|[->|Hin]]]]]]; try reflexivity.
      by apply elem_of_nil in Hin. }
    pose proof (first_occurrence_lt _ _ _ Hp) as Hlen. rewrite Hd in Hlen.
    split.
    + destruct Hp as [(pre & post & E & <-) _]. rewrite E.
      rewrite take_app_length. destruct d as [|c [|]]; try discriminate.
      simpl. rewrite take_app_ge by lia.
      replace (length pre + 1 - length pre) with 1 by lia. done.
    + unfold _generate_title. fold candidate. rewrite Hds.
      rewrite (title_loop_some _ _ _ p) by done.
      destruct (candidate_prefix content Hl) as [rest Hrest].
      fold candidate in Hrest. unfold with_ellipsis.
      assert (take (p + 1) content = take (p + 1) candidate) as ->; [|done].
      rewrite Hrest. apply take_app_le. lia.
Qed.

Lemma generate_title_by_delimiter_order_witness :
  lstrip hello = hello /\
  _generate_title hello = with_ellipsis hello (take 25 (strip (take 50 hello))).
Proof.
  assert (Hl : lstrip hello = hello) by (vm_compute; reflexivity).
  split; [exact Hl|].
  destruct (generate_title_by_delimiter_order hello Hl) as [_ H].
  apply (H [u "。"] (u ".") [u "?"; u "？"; u "!"; u "！"] 24).
  - vm_compute; reflexivity.
  - intros d' p' Hd Hp. apply list_elem_of_singleton in Hd. subst d'.
    destruct Hp as [Hp _]. exfalso.
    apply (str_find_None (strip (take 50 hello)) (u "。"));
      [vm_compute; reflexivity|].
    by exists p'.
  - apply str_find_Some. vm_compute; reflexivity.
  - lia.
Defined.

(** C4, as stated, fails: with two sentence ends in the candidate, the
    code cuts at the first full stop (position 24), not at the exclamation
    mark that comes first (position 11). *)
Lemma generate_title_counterexample :
  _generate_title hello = u "Hello world! How are you...." /\
  spec_generate_title hello = u "Hello world!..." /\
  _generate_title hello <> spec_generate_title hello.
Proof.
  split; [vm_compute; reflexivity|]. split; [vm_compute; reflexivity|].
  vm_compute. discriminate.
Qed.

(** Content that starts with whitespace: the position of the delimiter is
    found in the trimmed candidate and used to cut the untrimmed content,
    so the title stops short of the delimiter. *)
Lemma title_after_leading_whitespace :
  _generate_title (u "   Hello world, this is. More") = u "   Hello world, this ...".
Proof. vm_compute; reflexivity. Qed.

(** * The snippet *)

Lemma first_word_pos_none content_lower ws :
  (forall w, w ∈ ws -> 2 < length w -> ~ occurs content_lower w) ->
  first_word_pos content_lower ws = (-1)%Z.
Proof.
  induction ws as [|w ws IH]; intros H; simpl; [done|].
  destruct (2 <? length w) eqn:E.
  - apply Nat.ltb_lt in E. rewrite (str_find_absent content_lower w).
    + simpl. apply IH. intros w' Hw'. apply H. set_solver.
    + apply H; [set_solver|done].
  - apply IH. intros w' Hw'. apply H. set_solver.
Qed.

Lemma first_word_pos_some content_lower ws1 w ws2 p :
  (forall w', w' ∈ ws1 -> 2 < length w' -> ~ occurs content_lower w') ->
  2 < length w -> first_occurrence content_lower w p ->
  first_word_pos content_lower (ws1 ++ w :: ws2) = Z.of_nat p.
Proof.
  intros H Hw Hp. induction ws1 as [|w1 ws1 IH]; simpl.
  - replace (2 <? length w) with true by (symmetry; by apply Nat.ltb_lt).
    rewrite (str_find_first _ _ _ Hp).
    replace (Z.of_nat p =? -1)%Z with false by (symmetry; apply Z.eqb_neq; lia).
    done.
  - destruct (2 <? length w1) eqn:E.
    + apply Nat.ltb_lt in E. rewrite (str_find_absent content_lower w1).
      * simpl. apply IH. intros w' Hw'. apply H. set_solver.
      * apply H; [set_solver|done].
    + apply IH. intros w' Hw'. apply H. set_solver.
Qed.

(** The snippet when there is a match at [p]. *)
Lemma snippet_at lower content query max_length p :
  (let pos := str_find (lower content) query in
   if negb (pos =? -1)%Z then pos
   else first_word_pos (lower content) (str_split query)) = Z.of_nat p ->
  _generate_snippet lower content query max_length =
  strip (window content p max_length).
Proof.
  intros H. unfold _generate_snippet. cbv zeta in H. rewrite H.
  replace (Z.of_nat p =? -1)%Z with false by (symmetry; apply Z.eqb_neq; lia).
  replace (Z.to_nat (Z.max 0 (Z.of_nat p - Z.of_nat (max_length / 3))))
    with (p - max_length / 3) by lia.
  unfold window. cbv zeta. f_equal.
  destruct (0 <? p - max_length / 3),
    (p - max_length / 3 + max_length <? length content).
  - by rewrite <- app_assoc.
  - by rewrite !app_nil_r.
  - done.
  - by rewrite app_nil_r.
Qed.

(** C5 (amended).  The snippet is the trimmed window at the first
    occurrence of the query in the lower-cased content; when the query
    does not occur, the trimmed window at the first occurrence of the first
    query word longer than 2 characters that occurs; and when no such word
    occurs either, the first [max_length] characters of the content,
    trimmed, with no ellipsis marker. *)
Theorem generate_snippet_cases lower content query max_length :
  let content_lower := lower content in
  let snippet := _generate_snippet lower content query max_length in
  (forall p, first_occurrence content_lower query p ->
     snippet = strip (window content p max_length)) /\
  (forall ws1 w ws2 p,
     ~ occurs content_lower query ->
     str_split query = ws1 ++ w :: ws2 ->
     (forall w', w' ∈ ws1 -> 2 < length w' -> ~ occurs content_lower w') ->
     2 < length w -> first_occurrence content_lower w p ->
     snippet = strip (window content p max_length)) /\
  (~ occurs content_lower query ->
   (forall w, w ∈ str_split query -> 2 < length w -> ~ occurs content_lower w) ->
   snippet = strip (take max_length content)).
Proof.
  intros content_lower snippet. subst snippet. split; [|split].
  - intros p Hp. apply snippet_at. cbv zeta. fold content_lower.
    rewrite (str_find_first _ _ _ Hp).
    by replace (Z.of_nat p =? -1)%Z with false
      by (symmetry; apply Z.eqb_neq; lia).
  - intros ws1 w ws2 p Hq Hsplit Hnone Hw Hp. apply snippet_at. cbv zeta.
    fold content_lower. rewrite (str_find_absent _ _ Hq). simpl.
    rewrite Hsplit. by apply first_word_pos_some.
  - intros Hq Hnone. unfold _generate_snippet. fold content_lower.
    rewrite (str_find_absent _ _ Hq). simpl.
    by rewrite first_word_pos_none.
Qed.

(** C5, as stated, fails: when nothing matches, the code returns the first
    150 characters with no ellipsis marker, also when the content goes on. *)
Lemma generate_snippet_counterexample :
  _generate_snippet ascii_lower long_note (u "zzz") 150 = List.repeat 0x61%N 150 /\
  spec_snippet ascii_lower long_note (u "zzz") 150 = List.repeat 0x61%N 150 ++ ellipsis /\
  _generate_snippet ascii_lower long_note (u "zzz") 150
    <> spec_snippet ascii_lower long_note (u "zzz") 150.
Proof.
  split; [vm_compute; reflexivity|]. split; [vm_compute; reflexivity|].
  vm_compute. discriminate.
Qed.

(** * The matcher *)

Import SequenceMatcher.

Section Runs.
Variables a b : str.
Variables alo blo : nat.

Lemma run_eq i j :
  common_run a b alo blo i j =
  if (alo <=? i) && (blo <=? j) && eq_np a b i j
  then S (prev_common_run a b alo blo i j) else 0.
Proof. by destruct i. Qed.

Lemma elem_of_indices_from x s j0 j :
  j ∈ indices_from x s j0 <-> j0 <= j /\ s !! (j - j0) = Some x.
Proof.
  revert j0. induction s as [|y s IH]; intros j0; simpl.
  - rewrite elem_of_nil. split; [done|]. by intros [_ ?].
  - assert (Hrec : j ∈ indices_from x s (S j0) <-> j0 < j /\ s !! (j - S j0) = Some x).
    { rewrite IH. split; intros [? ?]; split; auto; lia. }
    destruct (N.eqb_spec y x) as [->|Hne].
    + rewrite elem_of_cons, Hrec. split.
      * intros [->|[H1 H2]].
        -- split; [lia|]. by rewrite Nat.sub_diag.
        -- split; [lia|]. by replace (j - j0) with (S (j - S j0)) by lia.
      * intros [H1 H2]. destruct (decide (j = j0)) as [->|Hj]; [by left|right].
        split; [lia|]. by replace (j - j0) with (S (j - S j0)) in H2 by lia.
    + rewrite Hrec. split.
      * intros [H1 H2]. split; [lia|].
        by replace (j - j0) with (S (j - S j0)) by lia.
      * intros [H1 H2]. destruct (decide (j = j0)) as [->|Hj].
        -- rewrite Nat.sub_diag in H2. simpl in H2. congruence.
        -- split; [lia|]. by replace (j - j0) with (S (j - S j0)) in H2 by lia.
Qed.

Lemma indices_from_sorted x s j0 : StronglySorted lt (indices_from x s j0).
Proof.
  revert j0. induction s as [|y s IH]; intros j0; simpl; [constructor|].
  destruct (y =? x)%N; [|apply IH]. constructor; [apply IH|].
  apply Forall_forall. intros j Hj. apply elem_of_indices_from in Hj. lia.
Qed.

Lemma b2j_sorted x : StronglySorted lt (b2j b x).
Proof. unfold b2j. destruct (popular b x); [constructor|apply indices_from_sorted]. Qed.

Lemma elem_of_b2j x j :
  j ∈ b2j b x <-> b !! j = Some x /\ popular b x = false.
Proof.
  unfold b2j. destruct (popular b x).
  - rewrite elem_of_nil. split; [done|]. by intros [_ ?].
  - rewrite elem_of_indices_from, Nat.sub_0_r. split; [by intros [_ ?]|].
    intros [? _]. split; [lia|done].
Qed.

Lemma elem_of_row_js bhi i j :
  j ∈ row_js a b blo bhi i <-> blo <= j < bhi /\ eq_np a b i j = true.
Proof.
  unfold row_js, eq_np. rewrite list_elem_of_In, filter_In, <- list_elem_of_In.
  rewrite andb_true_iff, Nat.leb_le, Nat.ltb_lt.
  destruct (a !! i) as [x|]; simpl.
  - rewrite elem_of_b2j. destruct (b !! j) as [y|]; simpl.
    + rewrite andb_true_iff, bool_decide_eq_true, negb_true_iff. split.
      * intros [[[= ->] ?] ?]. done.
      * intros [? [-> ?]]. done.
    + split; [by intros [[? ?] ?]|by intros [? ?]].
  - rewrite elem_of_nil. split; [by intros [? ?]|by intros [? ?]].
Qed.
End Runs.

Lemma filter_none {A} (f : A -> bool) l :
  (forall x, x ∈ l -> f x = false) -> List.filter f l = [].
Proof.
  induction l as [|x l IH]; intros H; simpl; [done|].
  rewrite H by (by left). apply IH. intros y Hy. apply H. by right.
Qed.

Section Scan.
Variables a b : str.
Variables alo blo bhi : nat.

Lemma scan_row_spec js i m best : forall acc,
  StronglySorted lt js ->
  alo <= i ->
  prev_ok a b alo blo bhi i m ->
  (forall j, j ∈ js -> blo <= j < bhi -> eq_np a b i j = true) ->
  exists acc',
    scan_row js i blo bhi m acc best =
      (acc', foldl (best_step a b alo blo) best
               (List.map (pair i) (List.filter (in_range blo bhi) js))) /\
    (forall j, j ∈ js -> blo <= j < bhi ->
       acc' !! Z.of_nat j = Some (common_run a b alo blo i j)) /\
    (forall z, (forall j, j ∈ js -> blo <= j < bhi -> z <> Z.of_nat j) ->
       acc' !! z = acc !! z).
Proof.
  revert best. induction js as [|j js IH]; intros best acc Hs Hi Hm Heq.
  - exists acc. simpl. split; [done|]. split; [|done].
    intros j Hj. by apply elem_of_nil in Hj.
  - apply StronglySorted_inv in Hs as [Hs Hlt].
    rewrite Forall_forall in Hlt.
    assert (Hgt : forall j', j' ∈ js -> j < j') by done.
    simpl. unfold in_range at 1.
    destruct (Nat.ltb_spec j blo) as [Hlo|Hlo].
    + replace (blo <=? j) with false by (symmetry; apply Nat.leb_gt; lia).
      simpl.
      destruct (IH best acc Hs Hi Hm) as (acc' & E & H1 & H2).
      { intros j' Hj'. apply Heq. by right. }
      exists acc'. split; [done|]. split.
      * intros j' Hj' Hr. apply elem_of_cons in Hj' as [->|Hj']; [lia|].
        by apply H1.
      * intros z Hz. apply H2. intros j' Hj'. apply Hz. by right.
    + replace (blo <=? j) with true by (symmetry; apply Nat.leb_le; lia).
      simpl. destruct (Nat.leb_spec bhi j) as [Hhi|Hhi].
      * replace (j <? bhi) with false by (symmetry; apply Nat.ltb_ge; lia).
        assert (List.filter (in_range blo bhi) js = []) as ->.
        { apply filter_none. intros j' Hj'.
          apply Hgt in Hj'. unfold in_range.
          replace (j' <? bhi) with false by (symmetry; apply Nat.ltb_ge; lia).
          by rewrite andb_false_r. }
        exists acc. split; [done|]. split; [|done].
        intros j' Hj' Hr. apply elem_of_cons in Hj' as [->|Hj']; [lia|].
        apply Hgt in Hj'. lia.
      * replace (j <? bhi) with true by (symmetry; apply Nat.ltb_lt; lia).
        assert (Hk : default 0 (m !! (Z.of_nat j - 1)%Z) + 1 = common_run a b alo blo i j).
        { rewrite Hm by lia. rewrite run_eq.
          replace (alo <=? i) with true by (symmetry; apply Nat.leb_le; lia).
          replace (blo <=? j) with true by (symmetry; apply Nat.leb_le; lia).
          rewrite Heq; [simpl; lia|by left|lia]. }
        rewrite Hk.
        destruct (IH (best_step a b alo blo best (i, j))
                     (<[Z.of_nat j := common_run a b alo blo i j]> acc) Hs Hi Hm)
          as (acc' & E & H1 & H2).
        { intros j' Hj'. apply Heq. by right. }
        exists acc'. split; [exact E|]. split.
        -- intros j' Hj' Hr. apply elem_of_cons in Hj' as [->|Hj']; [|by apply H1].
           rewrite H2; [by rewrite lookup_insert_eq|].
           intros j' Hj' _. apply Hgt in Hj'. lia.
        -- intros z Hz. rewrite H2.
           ++ rewrite lookup_insert_ne; [done|]. intros E'. symmetry in E'.
              revert E'. apply Hz; [by left|lia].
           ++ intros j' Hj'. apply Hz. by right.
Qed.

Lemma prev_ok_first m : m = ∅ -> prev_ok a b alo blo bhi alo m.
Proof.
  intros -> j _. rewrite lookup_empty. simpl. unfold prev_common_run.
  destruct alo as [|i'] eqn:E; [done|]. destruct j as [|j']; [done|].
  rewrite run_eq.
  by replace (S i' <=? i') with false by (symmetry; apply Nat.leb_gt; lia).
Qed.

(** One row of the scan: [best] is updated at the cells of the row, and
    the new map holds the runs that end in the row. *)
Lemma scan_row_correct i m best :
  alo <= i -> prev_ok a b alo blo bhi i m ->
  exists new,
    scan_row (default [] (b2j b <$> a !! i)) i blo bhi m ∅ best =
      (new, foldl (best_step a b alo blo) best
              (List.map (pair i) (row_js a b blo bhi i))) /\
    prev_ok a b alo blo bhi (S i) new.
Proof.
  intros Hi Hm.
  destruct (scan_row_spec (default [] (b2j b <$> a !! i)) i m best ∅)
    as (new & E & H1 & H2); auto.
  { destruct (a !! i); simpl; [apply b2j_sorted|constructor]. }
  { intros j Hj Hr. apply (elem_of_row_js a b blo bhi i j).
    unfold row_js. rewrite list_elem_of_In, filter_In, <- list_elem_of_In.
    split; [done|]. apply andb_true_iff. rewrite Nat.leb_le, Nat.ltb_lt. lia. }
  exists new. split; [exact E|].
  intros j Hr. unfold prev_common_run. destruct j as [|j0].
  - rewrite H2; [by rewrite lookup_empty|]. intros; lia.
  - replace (Z.of_nat (S j0) - 1)%Z with (Z.of_nat j0) by lia.
    destruct (decide (j0 ∈ row_js a b blo bhi i)) as [Hin|Hout].
    + pose proof Hin as Hin'. apply elem_of_row_js in Hin' as [Hr' _].
      rewrite H1; [done| |done].
      unfold row_js in Hin. rewrite list_elem_of_In, filter_In in Hin.
      destruct Hin as [Hin _]. by apply list_elem_of_In.
    + rewrite H2.
      * rewrite lookup_empty. simpl. rewrite run_eq.
        destruct (Nat.leb_spec blo j0) as [Hb|Hb]; [|by rewrite andb_false_r].
        destruct (eq_np a b i j0) eqn:En; [|by rewrite andb_false_r].
        destruct Hout. apply elem_of_row_js. split; [lia|done].
      * intros j' Hj' Hr' E'. apply Nat2Z.inj in E'. subst j'.
        apply Hout. unfold row_js. rewrite list_elem_of_In, filter_In.
        split; [by apply list_elem_of_In|].
        apply andb_true_iff. rewrite Nat.leb_le, Nat.ltb_lt. lia.
Qed.

(** The two nested loops of [find_longest_match]: [best] is updated at
    every cell, row by row. *)
Lemma scan_rows_correct n : forall i m best,
  alo <= i -> prev_ok a b alo blo bhi i m ->
  scan_rows a b (seq i n) blo bhi m best =
  foldl (best_step a b alo blo) best (cells a b blo bhi (seq i n)).
Proof.
  induction n as [|n IH]; intros i m best Hi Hm; simpl; [done|].
  destruct (scan_row_correct i m best Hi Hm) as (new & -> & Hnew).
  rewrite IH by (done || lia).
  unfold cells. simpl. by rewrite foldl_app.
Qed.
End Scan.

Section RunFacts.
Variables a b : str.
Variables alo blo : nat.
Local Abbreviation crun := (common_run a b alo blo).

Lemma run_bound i : forall j, crun i j <= S i - alo /\ crun i j <= S j - blo.
Proof.
  induction i as [|i IH]; intros j; rewrite run_eq; unfold prev_common_run.
  - destruct (Nat.leb_spec alo 0), (Nat.leb_spec blo j), (eq_np a b 0 j);
      simpl; lia.
  - destruct (Nat.leb_spec alo (S i)), (Nat.leb_spec blo j), (eq_np a b (S i) j);
      simpl; try lia.
    destruct j as [|j]; [lia|]. specialize (IH j). lia.
Qed.

Lemma eq_np_eq i j : eq_np a b i j = true -> a !! i = b !! j.
Proof.
  unfold eq_np. destruct (a !! i), (b !! j); try done.
  rewrite andb_true_iff, bool_decide_eq_true. by intros [-> _].
Qed.

Lemma run_match i : forall j t,
  t < crun i j -> a !! (i - t) = b !! (j - t).
Proof.
  induction i as [|i IH]; intros j t; rewrite run_eq; unfold prev_common_run.
  - destruct ((alo <=? 0) && (blo <=? j) && eq_np a b 0 j) eqn:E; [|lia].
    intros Ht. assert (t = 0) as -> by lia. rewrite !Nat.sub_0_r.
    apply andb_true_iff in E as [_ E]. by apply eq_np_eq.
  - destruct ((alo <=? S i) && (blo <=? j) && eq_np a b (S i) j) eqn:E; [|lia].
    apply andb_true_iff in E as [_ E]. apply eq_np_eq in E.
    intros Ht. destruct t as [|t]; [by rewrite !Nat.sub_0_r|].
    destruct j as [|j]; [lia|]. simpl. apply IH. lia.
Qed.
End RunFacts.

Section Best.
Variables a b : str.
Variables alo ahi blo bhi : nat.
Local Abbreviation crun := (common_run a b alo blo).

Lemma elem_of_cells i j n i0 :
  (i, j) ∈ cells a b blo bhi (seq i0 n) ->
  i0 <= i < i0 + n /\ blo <= j < bhi /\ eq_np a b i j = true.
Proof.
  unfold cells. rewrite list_elem_of_In, in_flat_map.
  intros (i' & Hi' & Hin). apply in_seq in Hi'.
  apply in_map_iff in Hin as (j' & [= <- <-] & Hj').
  apply list_elem_of_In, elem_of_row_js in Hj'. split; [lia|done].
Qed.

Lemma best_step_inv best i j :
  alo <= i < ahi -> blo <= j < bhi ->
  best_inv a b alo ahi blo bhi best -> best_inv a b alo ahi blo bhi (best_step a b alo blo best (i, j)).
Proof.
  intros Hi Hj Hb. unfold best_step. simpl.
  destruct (Nat.ltb_spec (block_size best) (crun i j)); [|done].
  right. exists i, j. split; [done|]. split; [done|]. split; [lia|done].
Qed.

Lemma foldl_best_inv cs best :
  (forall i j, (i, j) ∈ cs -> alo <= i < ahi /\ blo <= j < bhi) ->
  best_inv a b alo ahi blo bhi best -> best_inv a b alo ahi blo bhi (foldl (best_step a b alo blo) best cs).
Proof.
  revert best. induction cs as [|[i j] cs IH]; intros best Hcs Hb; simpl; [done|].
  apply IH.
  - intros i' j' H. apply Hcs. by right.
  - destruct (Hcs i j) as [? ?]; [by left|]. by apply best_step_inv.
Qed.

Lemma best_inv_block_ok best :
  alo <= ahi -> blo <= bhi -> best_inv a b alo ahi blo bhi best -> block_ok a b alo ahi blo bhi best.
Proof.
  intros Ha Hb [->|(ie & je & Hi & Hj & Hr & ->)]; unfold block_ok.
  - repeat split; try lia. all: intros; lia.
  - destruct (run_bound a b alo blo ie je) as [H1 H2].
    repeat split; try lia. intros t Ht.
    pose proof (run_match a b alo blo ie je (crun ie je - 1 - t)) as Hm.
    replace (ie - (crun ie je - 1 - t)) with (ie + 1 - crun ie je + t) in Hm by lia.
    replace (je - (crun ie je - 1 - t)) with (je + 1 - crun ie je + t) in Hm by lia.
    apply Hm. lia.
Qed.

Lemma extend_left_ok i : forall j k,
  block_ok a b alo ahi blo bhi (i, j, k) ->
  block_ok a b alo ahi blo bhi (extend_left a b alo blo i j k).
Proof.
  induction i as [|i IH]; intros j k Hok; simpl; [done|].
  destruct j as [|j]; [done|].
  destruct ((alo <? S i) && (blo <? S j) && bool_decide (a !! i = b !! j)) eqn:E;
    [|done].
  apply andb_true_iff in E as [E E3]. apply andb_true_iff in E as [E1 E2].
  apply Nat.ltb_lt in E1, E2. apply bool_decide_eq_true in E3.
  apply IH. destruct Hok as (H1 & H2 & H3 & H4 & H5).
  unfold block_ok. repeat split; try lia.
  intros [|t] Ht; [by rewrite !Nat.add_0_r|].
  replace (i + S t) with (S i + t) by lia. replace (j + S t) with (S j + t) by lia.
  apply H5. lia.
Qed.

Lemma extend_right_ok rounds : forall i j k,
  block_ok a b alo ahi blo bhi (i, j, k) ->
  block_ok a b alo ahi blo bhi (i, j, extend_right a b rounds ahi bhi i j k).
Proof.
  induction rounds as [|rounds IH]; intros i j k Hok; simpl; [done|].
  destruct ((i + k <? ahi) && (j + k <? bhi)
            && bool_decide (a !! (i + k) = b !! (j + k))) eqn:E; [|done].
  apply andb_true_iff in E as [E E3]. apply andb_true_iff in E as [E1 E2].
  apply Nat.ltb_lt in E1, E2. apply bool_decide_eq_true in E3.
  apply IH. destruct Hok as (H1 & H2 & H3 & H4 & H5).
  unfold block_ok. repeat split; try lia.
  intros t Ht. destruct (decide (t = k)) as [->|Hne]; [done|]. apply H5. lia.
Qed.

(** [find_longest_match] returns a block of the range it is given. *)
Lemma find_longest_match_ok :
  alo <= ahi -> blo <= bhi ->
  block_ok a b alo ahi blo bhi (find_longest_match a b alo ahi blo bhi).
Proof.
  intros Ha Hb. unfold find_longest_match.
  rewrite (scan_rows_correct a b alo blo bhi); [|done|by apply prev_ok_first].
  pose proof (foldl_best_inv (cells a b blo bhi (seq alo (ahi - alo))) (alo, blo, 0))
    as Hinv.
  destruct (foldl _ _ _) as [[i j] k].
  assert (Hok : block_ok a b alo ahi blo bhi (i, j, k)).
  { apply best_inv_block_ok; [done|done|]. apply Hinv; [|by left].
    intros i' j' H. apply elem_of_cells in H. lia. }
  apply extend_left_ok in Hok.
  destruct (extend_left a b alo blo i j k) as [[i' j'] k'].
  by apply extend_right_ok.
Qed.
End Best.

Section Blocks.
Variables a b : str.

Lemma blocks_total_app ms1 ms2 : blocks_total (ms1 ++ ms2) = blocks_total ms1 + blocks_total ms2.
Proof. induction ms1 as [|m ms1 IH]; simpl; [done|]. rewrite IH. lia. Qed.

Lemma blocks_loop_total rounds : forall queue ms,
  Forall range_ok queue ->
  blocks_total (blocks_loop a b rounds queue ms) <= blocks_total ms + rooms queue.
Proof.
  induction rounds as [|rounds IH]; intros queue ms Hq; simpl; [lia|].
  destruct queue as [|[[[alo ahi] blo] bhi] queue]; [simpl; lia|].
  apply Forall_cons in Hq as [[Ha Hb] Hq].
  pose proof (find_longest_match_ok a b alo ahi blo bhi Ha Hb) as Hok.
  destruct (find_longest_match a b alo ahi blo bhi) as [[i j] k].
  destruct Hok as (H1 & H2 & H3 & H4 & _).
  destruct (Nat.eqb_spec k 0) as [->|Hk].
  - etransitivity; [apply IH; done|]. simpl. lia.
  - set (q1 := if (alo <? i) && (blo <? j) then (alo, i, blo, j) :: queue else queue).
    set (q2 := if (i + k <? ahi) && (j + k <? bhi) then (i + k, ahi, j + k, bhi) :: q1
               else q1).
    assert (Hq1 : Forall range_ok q1 /\ rooms q1 <= Nat.min (i - alo) (j - blo) + rooms queue).
    { subst q1. destruct ((alo <? i) && (blo <? j)).
      - split; [|simpl; lia]. apply Forall_cons. split; [simpl; lia|done].
      - split; [done|lia]. }
    destruct Hq1 as [Hq1 Hr1].
    assert (Hq2 : Forall range_ok q2 /\
                  rooms q2 <= Nat.min (ahi - (i + k)) (bhi - (j + k)) + rooms q1).
    { subst q2. destruct ((i + k <? ahi) && (j + k <? bhi)).
      - split; [|simpl; lia]. apply Forall_cons. split; [simpl; lia|done].
      - split; [done|lia]. }
    destruct Hq2 as [Hq2 Hr2].
    etransitivity; [apply IH; done|]. rewrite blocks_total_app. simpl. lia.
Qed.

(** The matched characters are characters of [a] and of [b]. *)
Lemma matches_le : matches a b <= length a /\ matches a b <= length b.
Proof.
  unfold matches, get_matching_blocks.
  pose proof (blocks_loop_total (2 * length a + 1) [(0, length a, 0, length b)] [])
    as H.
  fold (blocks_total (blocks_loop a b (2 * length a + 1) [(0, length a, 0, length b)] [])).
  assert (Hok : Forall range_ok [(0, length a, 0, length b)]).
  { apply Forall_cons. split; [simpl; lia|constructor]. }
  specialize (H Hok). unfold rooms, room in H. cbn [foldr] in H.
  change (blocks_total []) with 0 in H. lia.
Qed.

Lemma ratio_eq :
  ratio a b =
  if length a + length b =? 0 then 1%Q
  else (2 * inject_Z (Z.of_nat (matches a b))
        / inject_Z (Z.of_nat (length a + length b)))%Q.
Proof. reflexivity. Qed.

(** The ratio is a number between 0 and 1. *)
Lemma ratio_bounds : (0 <= ratio a b)%Q /\ (ratio a b <= 1)%Q.
Proof.
  rewrite ratio_eq. destruct (Nat.eqb_spec (length a + length b) 0) as [E|E].
  - split; [discriminate|apply Qle_refl].
  - assert (Hpos : (0 < inject_Z (Z.of_nat (length a + length b)))%Q).
    { change 0%Q with (inject_Z 0). rewrite <- Zlt_Qlt. lia. }
    destruct matches_le as [Ha Hb]. split.
    + apply Qle_shift_div_l; [done|]. rewrite Qmult_0_l.
      change 2%Q with (inject_Z 2). rewrite <- inject_Z_mult.
      change 0%Q with (inject_Z 0). rewrite <- Zle_Qle. lia.
    + apply Qle_shift_div_r; [done|]. rewrite Qmult_1_l.
      change 2%Q with (inject_Z 2). rewrite <- inject_Z_mult.
      rewrite <- Zle_Qle. lia.
Qed.
End Blocks.


(** * The longest match *)

Section FirstMax.
Context {C : Type} (v : C -> nat) (blk : C -> block).
Hypothesis blk_size : forall c, block_size (blk c) = v c.

(** A loop that takes a candidate when it is strictly longer ends with the
    first of the longest candidates. *)
Lemma foldl_first_max cs : forall best0,
  let best := foldl (first_max_step v blk) best0 cs in
  (best = best0 /\ forall c, c ∈ cs -> v c <= block_size best0) \/
  (exists l1 c l2,
     cs = l1 ++ c :: l2 /\ best = blk c /\ block_size best0 < v c /\
     (forall c', c' ∈ l1 -> v c' < v c) /\
     (forall c', c' ∈ l2 -> v c' <= v c)).
Proof.
  induction cs as [|c cs IH]; intros best0; cbv zeta; simpl.
  - left. split; [done|]. intros c Hc. by apply elem_of_nil in Hc.
  - destruct (Nat.ltb_spec (block_size best0) (v c)) as [Hlt|Hge].
    + assert (first_max_step v blk best0 c = blk c) as ->.
      { unfold first_max_step. by apply Nat.ltb_lt in Hlt as ->. }
      right. destruct (IH (blk c)) as [[E Hall]|(l1 & c' & l2 & E & Hb & Hlt' & H1 & H2)].
      * exists [], c, cs. split; [done|]. split; [done|]. split; [done|].
        split; [intros c' Hc'; by apply elem_of_nil in Hc'|].
        intros c' Hc'. rewrite <- (blk_size c). by apply Hall.
      * exists (c :: l1), c', l2. rewrite blk_size in Hlt'.
        split; [by rewrite E|]. split; [done|]. split; [lia|]. split; [|done].
        intros x Hx. apply elem_of_cons in Hx as [->|Hx]; [done|by apply H1].
    + assert (first_max_step v blk best0 c = best0) as ->.
      { unfold first_max_step. by apply Nat.ltb_ge in Hge as ->. }
      destruct (IH best0) as [[E Hall]|(l1 & c' & l2 & E & Hb & Hlt' & H1 & H2)].
      * left. split; [done|]. intros x Hx.
        apply elem_of_cons in Hx as [->|Hx]; [done|by apply Hall].
      * right. exists (c :: l1), c', l2.
        split; [by rewrite E|]. split; [done|]. split; [done|]. split; [|done].
        intros x Hx. apply elem_of_cons in Hx as [->|Hx]; [lia|by apply H1].
Qed.
End FirstMax.

Lemma lexlt_sorted_after (cs l1 l2 : list (nat * nat)) c c' :
  StronglySorted lexlt cs -> cs = l1 ++ c :: l2 -> c' ∈ l2 -> lexlt c c'.
Proof.
  intros Hs -> Hc'. apply StronglySorted_app_1_r in Hs.
  apply StronglySorted_cons in Hs as [Hs _]. rewrite Forall_forall in Hs.
  by apply Hs.
Qed.

Lemma sorted_filter (f : nat -> bool) l :
  StronglySorted lt l -> StronglySorted lt (List.filter f l).
Proof.
  induction l as [|x l IH]; simpl; [done|]. intros Hs.
  apply StronglySorted_cons in Hs as [Hx Hs]. destruct (f x); [|by apply IH].
  apply StronglySorted_cons. split; [|by apply IH].
  rewrite Forall_forall in Hx. apply Forall_forall. intros y Hy. apply Hx.
  rewrite list_elem_of_In, filter_In in Hy. rewrite list_elem_of_In. tauto.
Qed.

Lemma sorted_row (i : nat) (js : list nat) :
  StronglySorted lt js -> StronglySorted lexlt (List.map (pair i) js).
Proof.
  induction js as [|j js IH]; simpl; [constructor|]. intros Hs.
  apply StronglySorted_cons in Hs as [Hj Hs]. apply StronglySorted_cons.
  split; [|by apply IH]. rewrite Forall_forall in Hj. apply Forall_forall.
  intros c Hc.
  apply list_elem_of_In, in_map_iff in Hc as (j' & <- & Hj').
  right. split; [done|]. simpl. apply Hj. by apply list_elem_of_In.
Qed.

(** Rows of cells, one row after the other, are in the order of visit. *)
Lemma sorted_rows (row : nat -> list nat) n : forall i0,
  (forall i, StronglySorted lt (row i)) ->
  StronglySorted lexlt (flat_map (fun i => List.map (pair i) (row i)) (seq i0 n)).
Proof.
  induction n as [|n IH]; intros i0 Hrow; simpl; [constructor|].
  apply StronglySorted_app_2; [|by apply sorted_row|by apply IH].
  intros c1 c2 H1 H2.
  apply list_elem_of_In, in_map_iff in H1 as (j1 & <- & _).
  apply list_elem_of_In, in_flat_map in H2 as (i2 & Hi2 & H2).
  apply in_seq in Hi2. apply in_map_iff in H2 as (j2 & <- & _).
  left. simpl. lia.
Qed.

Lemma cells_sorted a b blo bhi i0 n :
  StronglySorted lexlt (cells a b blo bhi (seq i0 n)).
Proof.
  apply sorted_rows. intros i. unfold row_js. apply sorted_filter.
  destruct (a !! i); simpl; [apply b2j_sorted|constructor].
Qed.

Lemma list_prod_sorted alo n blo m :
  StronglySorted lexlt (list_prod (seq alo n) (seq blo m)).
Proof.
  assert (Hs : forall j0 k, StronglySorted lt (seq j0 k)).
  { intros j0 k. revert j0. induction k as [|k IH]; intros j0; simpl; [constructor|].
    apply StronglySorted_cons. split; [|apply IH].
    apply Forall_forall. intros x Hx. apply list_elem_of_In, in_seq in Hx. lia. }
  pose proof (sorted_rows (fun _ => seq blo m) n alo (fun _ => Hs blo m)) as H.
  replace (list_prod (seq alo n) (seq blo m))
    with (flat_map (fun i => List.map (pair i) (seq blo m)) (seq alo n)); [done|].
  generalize (seq alo n). intros l. induction l as [|x l IH]; simpl; [done|].
  by rewrite IH.
Qed.

Section Longest.
Variables a b : str.
Variables alo ahi blo bhi : nat.
Hypothesis no_popular : forall y, popular b y = false.
Hypothesis a_range : alo <= ahi <= length a.
Hypothesis b_range : blo <= bhi <= length b.
Local Abbreviation crun := (common_run a b alo blo).
Local Abbreviation ok := (block_ok a b alo ahi blo bhi).

(** Along a block, the runs grow by one at each step. *)
Lemma run_ge i j k t :
  ok (i, j, k) -> t < k ->
  eq_np a b (i + t) (j + t) = true /\ t + 1 <= crun (i + t) (j + t).
Proof.
  intros (H1 & H2 & H3 & H4 & H5) Ht.
  assert (Heq : forall t', t' < k -> eq_np a b (i + t') (j + t') = true).
  { intros t' Ht'. unfold eq_np. rewrite <- (H5 t' Ht').
    destruct (lookup_lt_is_Some_2 a (i + t')) as [x ->]; [lia|].
    rewrite no_popular. by rewrite bool_decide_true. }
  split; [by apply Heq|].
  induction t as [|t IH].
  - rewrite run_eq, Heq by done. rewrite !Nat.add_0_r.
    replace (alo <=? i) with true by (symmetry; apply Nat.leb_le; lia).
    replace (blo <=? j) with true by (symmetry; apply Nat.leb_le; lia).
    simpl. lia.
  - rewrite run_eq, Heq by done.
    replace (alo <=? i + S t) with true by (symmetry; apply Nat.leb_le; lia).
    replace (blo <=? j + S t) with true by (symmetry; apply Nat.leb_le; lia).
    simpl. rewrite !Nat.add_succ_r. simpl. specialize (IH ltac:(lia)). lia.
Qed.

(** The end cell of a block of one element or more is visited, and the run
    that ends there is as long as the block or longer. *)
Lemma block_end_cell i j k :
  ok (i, j, k) -> 1 <= k ->
  (i + k - 1, j + k - 1) ∈ cells a b blo bhi (seq alo (ahi - alo)) /\
  k <= crun (i + k - 1) (j + k - 1).
Proof.
  intros Hok Hk. destruct (run_ge i j k (k - 1) Hok) as [He Hr]; [lia|].
  replace (i + (k - 1)) with (i + k - 1) in * by lia.
  replace (j + (k - 1)) with (j + k - 1) in * by lia.
  split; [|lia]. destruct Hok as (H1 & H2 & H3 & H4 & _).
  unfold cells. apply list_elem_of_In, in_flat_map.
  exists (i + k - 1). split; [apply in_seq; lia|]. apply in_map.
  apply list_elem_of_In, elem_of_row_js. split; [lia|done].
Qed.

(** The two nested loops end with the longest block. *)
Lemma scan_is_longest :
  is_longest a b alo ahi blo bhi
    (foldl (best_step a b alo blo) (alo, blo, 0)
       (cells a b blo bhi (seq alo (ahi - alo)))).
Proof.
  set (cs := cells a b blo bhi (seq alo (ahi - alo))).
  set (v := fun ij : nat * nat => crun ij.1 ij.2).
  set (blk := fun ij : nat * nat =>
                ((ij.1 + 1 - crun ij.1 ij.2, ij.2 + 1 - crun ij.1 ij.2,
                  crun ij.1 ij.2) : block)).
  change (best_step a b alo blo) with (first_max_step v blk).
  assert (Hcell : forall c, c ∈ cs -> alo <= c.1 < ahi /\ blo <= c.2 < bhi).
  { intros [i j] Hc. apply elem_of_cells in Hc. simpl. lia. }
  destruct (foldl_first_max v blk (fun c => eq_refl) cs (alo, blo, 0))
    as [[-> Hall]|(l1 & [ie je] & l2 & Hcs & -> & Hlt & Hl1 & Hl2)].
  - (* no cell has a run *)
    split; [|split; [|split; [|done]]].
    + unfold block_ok. repeat split; try lia. all: intros; lia.
    + intros i' j' k' Hok. destruct (decide (1 <= k')) as [Hk|Hk]; [|lia].
      destruct (block_end_cell _ _ _ Hok Hk) as [Hin Hr].
      apply Hall in Hin. unfold v in Hin. simpl in Hin. lia.
    + intros i' j' Hk. lia.
  - subst blk v. simpl in *.
    assert (Hin : (ie, je) ∈ cs) by (rewrite Hcs; apply elem_of_app; right; by left).
    destruct (Hcell _ Hin) as [Hie Hje]. simpl in Hie, Hje.
    assert (Hok : ok (ie + 1 - crun ie je, je + 1 - crun ie je, crun ie je)).
    { apply best_inv_block_ok; [lia|lia|]. right. exists ie, je.
      repeat split; try lia. }
    assert (Hmax : forall c, c ∈ cs -> crun c.1 c.2 <= crun ie je).
    { intros c Hc. rewrite Hcs in Hc.
      apply elem_of_app in Hc as [Hc|Hc]; [apply Hl1 in Hc; lia|].
      apply elem_of_cons in Hc as [->|Hc]; [done|by apply Hl2]. }
    split; [done|]. split; [|split; [|lia]].
    + intros i' j' k' Hok'. destruct (decide (1 <= k')) as [Hk|Hk]; [|lia].
      destruct (block_end_cell _ _ _ Hok' Hk) as [Hin' Hr].
      apply Hmax in Hin'. simpl in Hin'. lia.
    + intros i' j' Hk Hok'.
      destruct (block_end_cell _ _ _ Hok' Hk) as [Hin' Hr].
      fold cs in Hin'.
      set (e' := (i' + crun ie je - 1, j' + crun ie je - 1)) in *.
      rewrite Hcs in Hin'. apply elem_of_app in Hin' as [Hin'|Hin'].
      { apply Hl1 in Hin'. simpl in Hin'. lia. }
      apply elem_of_cons in Hin' as [E|Hin'].
      { injection E as E1 E2. lia. }
      pose proof (lexlt_sorted_after cs l1 l2 (ie, je) e'
                    (cells_sorted a b blo bhi alo (ahi - alo)) Hcs Hin') as Hlex.
      subst e'. unfold lexlt in Hlex. simpl in Hlex.
      destruct (run_bound a b alo blo ie je) as [Hb1 Hb2]. lia.
Qed.

(** The longest block cannot be extended: the loops after the scan leave
    it as it is. *)
Lemma extend_left_longest i j k :
  is_longest a b alo ahi blo bhi (i, j, k) ->
  extend_left a b alo blo i j k = (i, j, k).
Proof.
  intros (Hok & Hmax & _). destruct i as [|i]; [done|]. destruct j as [|j]; [done|].
  simpl.
  destruct ((alo <? S i) && (blo <? S j) && bool_decide (a !! i = b !! j)) eqn:E;
    [|done].
  apply andb_true_iff in E as [E E3]. apply andb_true_iff in E as [E1 E2].
  apply Nat.ltb_lt in E1, E2. apply bool_decide_eq_true in E3.
  destruct Hok as (H1 & H2 & H3 & H4 & H5).
  assert (Hok' : ok (i, j, S k)).
  { unfold block_ok. repeat split; try lia.
    intros [|t] Ht; [by rewrite !Nat.add_0_r|].
    replace (i + S t) with (S i + t) by lia.
    replace (j + S t) with (S j + t) by lia. apply H5. lia. }
  apply Hmax in Hok'. lia.
Qed.

Lemma extend_right_longest rounds i j k :
  is_longest a b alo ahi blo bhi (i, j, k) ->
  extend_right a b rounds ahi bhi i j k = k.
Proof.
  intros (Hok & Hmax & _). destruct rounds as [|rounds]; [done|]. simpl.
  destruct ((i + k <? ahi) && (j + k <? bhi)
            && bool_decide (a !! (i + k) = b !! (j + k))) eqn:E; [|done].
  apply andb_true_iff in E as [E E3]. apply andb_true_iff in E as [E1 E2].
  apply Nat.ltb_lt in E1, E2. apply bool_decide_eq_true in E3.
  destruct Hok as (H1 & H2 & H3 & H4 & H5).
  assert (Hok' : ok (i, j, S k)).
  { unfold block_ok. repeat split; try lia.
    intros t Ht. destruct (decide (t = k)) as [->|Hne]; [done|]. apply H5. lia. }
  apply Hmax in Hok'. lia.
Qed.

(** With no popular element, [find_longest_match] returns the longest
    block of its range. *)
Lemma find_longest_match_is_longest :
  is_longest a b alo ahi blo bhi (find_longest_match a b alo ahi blo bhi).
Proof.
  unfold find_longest_match.
  rewrite (scan_rows_correct a b alo blo bhi); [|done|by apply prev_ok_first].
  pose proof scan_is_longest as H.
  destruct (foldl _ _ _) as [[i j] k].
  rewrite (extend_left_longest _ _ _ H).
  by rewrite (extend_right_longest _ _ _ _ H).
Qed.
End Longest.

Lemma common_prefix_match x : forall y t,
  t < common_prefix x y -> x !! t = y !! t.
Proof.
  induction x as [|c x IH]; intros [|d y] t; simpl; try lia.
  destruct (N.eqb_spec c d) as [->|Hne]; [|lia].
  intros Ht. destruct t as [|t]; [done|]. simpl. apply IH. lia.
Qed.

Lemma common_prefix_le x : forall y,
  common_prefix x y <= length x /\ common_prefix x y <= length y.
Proof.
  induction x as [|c x IH]; intros [|d y]; simpl; try lia.
  destruct (c =? d)%N; [|lia]. specialize (IH y). lia.
Qed.

Lemma common_prefix_ge x : forall y k,
  k <= length x -> k <= length y ->
  (forall t, t < k -> x !! t = y !! t) -> k <= common_prefix x y.
Proof.
  induction x as [|c x IH]; intros [|d y] k; simpl; try lia.
  intros Hx Hy H. destruct k as [|k]; [lia|].
  pose proof (H 0 ltac:(lia)) as H0. simpl in H0. injection H0 as ->.
  rewrite N.eqb_refl. apply le_n_S. apply IH; [lia|lia|].
  intros t Ht. apply (H (S t)). lia.
Qed.

Lemma slice_length (s : str) lo hi :
  lo <= hi <= length s -> length (slice s lo hi) = hi - lo.
Proof. intros H. unfold slice. rewrite length_take, length_drop. lia. Qed.

Lemma slice_lookup (s : str) lo hi t :
  t < hi - lo -> slice s lo hi !! t = s !! (lo + t).
Proof.
  intros H. unfold slice. rewrite lookup_take_lt by done. by rewrite lookup_drop.
Qed.

Section Brute.
Variables a b : str.
Variables alo ahi blo bhi : nat.
Hypothesis a_range : alo <= ahi <= length a.
Hypothesis b_range : blo <= bhi <= length b.
Local Abbreviation ok := (block_ok a b alo ahi blo bhi).
Local Abbreviation pairs := (list_prod (seq alo (ahi - alo)) (seq blo (bhi - blo))).

Lemma elem_of_pairs i j : (i, j) ∈ pairs <-> alo <= i < ahi /\ blo <= j < bhi.
Proof. rewrite list_elem_of_In, in_prod_iff, !in_seq. lia. Qed.

Lemma common_at_ok i j :
  alo <= i < ahi -> blo <= j < bhi -> ok (i, j, common_at a b ahi bhi (i, j)).
Proof.
  intros Hi Hj. unfold common_at. simpl.
  destruct (common_prefix_le (slice a i ahi) (slice b j bhi)) as [H1 H2].
  rewrite slice_length in H1, H2 by lia.
  unfold block_ok. repeat split; try lia.
  intros t Ht. rewrite <- !slice_lookup with (hi := ahi) by lia.
  rewrite <- (slice_lookup b j bhi) by lia. by apply common_prefix_match.
Qed.

Lemma block_start_cell i j k :
  ok (i, j, k) -> 1 <= k ->
  (i, j) ∈ pairs /\ k <= common_at a b ahi bhi (i, j).
Proof.
  intros (H1 & H2 & H3 & H4 & H5) Hk. split; [apply elem_of_pairs; lia|].
  unfold common_at. simpl. apply common_prefix_ge.
  - rewrite slice_length; lia.
  - rewrite slice_length; lia.
  - intros t Ht. rewrite !slice_lookup by lia. by apply H5.
Qed.

(** The search over all pairs of start positions finds the longest block. *)
Lemma longest_block_is_longest :
  is_longest a b alo ahi blo bhi (longest_block a b alo ahi blo bhi).
Proof.
  unfold longest_block.
  set (v := common_at a b ahi bhi).
  set (blk := fun ij : nat * nat => ((ij.1, ij.2, v ij) : block)).
  change (longest_step a b ahi bhi) with (first_max_step v blk).
  destruct (foldl_first_max v blk (fun c => eq_refl) pairs (alo, blo, 0))
    as [[-> Hall]|(l1 & [i j] & l2 & Hcs & -> & Hlt & Hl1 & Hl2)].
  - split; [|split; [|split; [|done]]].
    + unfold block_ok. repeat split; try lia. all: intros; lia.
    + intros i' j' k' Hok. destruct (decide (1 <= k')) as [Hk|Hk]; [|lia].
      destruct (block_start_cell _ _ _ Hok Hk) as [Hin Hr].
      apply Hall in Hin. unfold v in Hin. simpl in Hin. lia.
    + intros i' j' Hk. lia.
  - subst blk. simpl in *.
    assert (Hin : (i, j) ∈ pairs) by (rewrite Hcs; apply elem_of_app; right; by left).
    apply elem_of_pairs in Hin as [Hi Hj].
    assert (Hmax : forall c, c ∈ pairs -> v c <= v (i, j)).
    { intros c Hc. rewrite Hcs in Hc.
      apply elem_of_app in Hc as [Hc|Hc]; [apply Hl1 in Hc; lia|].
      apply elem_of_cons in Hc as [->|Hc]; [done|by apply Hl2]. }
    split; [by apply common_at_ok|]. split; [|split; [|lia]].
    + intros i' j' k' Hok'. destruct (decide (1 <= k')) as [Hk|Hk]; [|lia].
      destruct (block_start_cell _ _ _ Hok' Hk) as [Hin' Hr].
      apply Hmax in Hin'. fold v in Hr. lia.
    + intros i' j' Hk Hok'.
      destruct (block_start_cell _ _ _ Hok' Hk) as [Hin' Hr]. fold v in Hr.
      rewrite Hcs in Hin'. apply elem_of_app in Hin' as [Hin'|Hin'].
      { apply Hl1 in Hin'. lia. }
      apply elem_of_cons in Hin' as [E|Hin'].
      { injection E as E1 E2. lia. }
      pose proof (lexlt_sorted_after pairs l1 l2 (i, j) (i', j')
                    (list_prod_sorted alo (ahi - alo) blo (bhi - blo)) Hcs Hin')
        as Hlex.
      unfold lexlt in Hlex. simpl in Hlex. lia.
Qed.
End Brute.

(** The longest block of a range is determined. *)
Lemma is_longest_unique a b alo ahi blo bhi m1 m2 :
  is_longest a b alo ahi blo bhi m1 -> is_longest a b alo ahi blo bhi m2 ->
  m1 = m2.
Proof.
  destruct m1 as [[i1 j1] k1], m2 as [[i2 j2] k2].
  intros (Hok1 & Hmax1 & Hmin1 & Hz1) (Hok2 & Hmax2 & Hmin2 & Hz2).
  assert (k1 = k2) as <-.
  { apply Hmax1 in Hok2. apply Hmax2 in Hok1. lia. }
  destruct (decide (k1 = 0)) as [->|Hk].
  - destruct Hz1 as [-> ->]; [done|]. by destruct Hz2 as [-> ->].
  - specialize (Hmin1 i2 j2 ltac:(lia) Hok2).
    specialize (Hmin2 i1 j1 ltac:(lia) Hok1).
    assert (i1 = i2) as -> by lia. assert (j1 = j2) as -> by lia. done.
Qed.

(** For a second string of fewer than 200 characters, where no element is
    popular, [find_longest_match] is the search for the longest block. *)
Lemma find_longest_match_longest_block a b alo ahi blo bhi :
  length b < 200 ->
  alo <= ahi <= length a -> blo <= bhi <= length b ->
  find_longest_match a b alo ahi blo bhi = longest_block a b alo ahi blo bhi.
Proof.
  intros Hb Ha Hb'. apply (is_longest_unique a b alo ahi blo bhi).
  - apply find_longest_match_is_longest; [|done|done].
    intros y. unfold popular.
    by replace (200 <=? length b) with false by (symmetry; apply Nat.leb_gt; lia).
  - by apply longest_block_is_longest.
Qed.

(** * The work list and the recursion *)

Section Recursion.
Variables a b : str.
Local Abbreviation ro := (ro_matches a b).

Lemma longest_block_ok alo ahi blo bhi :
  alo <= ahi <= length a -> blo <= bhi <= length b ->
  block_ok a b alo ahi blo bhi (longest_block a b alo ahi blo bhi).
Proof.
  intros Ha Hb. pose proof (longest_block_is_longest a b alo ahi blo bhi Ha Hb) as H.
  destruct (longest_block a b alo ahi blo bhi) as [[i j] k]. by destruct H.
Qed.

(** Any depth above the number of characters of [a] in the range gives the
    same count. *)
Lemma ro_matches_depth d1 : forall d2 alo ahi blo bhi,
  alo <= ahi <= length a -> blo <= bhi <= length b ->
  ahi - alo < d1 -> ahi - alo < d2 ->
  ro d1 alo ahi blo bhi = ro d2 alo ahi blo bhi.
Proof.
  induction d1 as [|d1 IH]; intros d2 alo ahi blo bhi Ha Hb H1 H2; [lia|].
  destruct d2 as [|d2]; [lia|]. simpl.
  pose proof (longest_block_ok alo ahi blo bhi Ha Hb) as Hok.
  destruct (longest_block a b alo ahi blo bhi) as [[i j] k].
  destruct Hok as (Hi & Hik & Hj & Hjk & _).
  destruct (Nat.eqb_spec k 0) as [->|Hk]; [done|].
  rewrite (IH d2 alo i blo j) by lia.
  by rewrite (IH d2 (i + k) ahi (j + k) bhi) by lia.
Qed.

Lemma ro_range_eq alo ahi blo bhi :
  alo <= ahi <= length a -> blo <= bhi <= length b ->
  ro_range a b (alo, ahi, blo, bhi) =
  let '(i, j, k) := longest_block a b alo ahi blo bhi in
  if k =? 0 then 0
  else k + ro_range a b (alo, i, blo, j) + ro_range a b (i + k, ahi, j + k, bhi).
Proof.
  intros Ha Hb. unfold ro_range. simpl.
  pose proof (longest_block_ok alo ahi blo bhi Ha Hb) as Hok.
  destruct (longest_block a b alo ahi blo bhi) as [[i j] k].
  destruct Hok as (Hi & Hik & Hj & Hjk & _).
  destruct (Nat.eqb_spec k 0) as [->|Hk]; [done|].
  rewrite (ro_matches_depth (ahi - alo) (S (i - alo)) alo i blo j) by lia.
  by rewrite (ro_matches_depth (ahi - alo) (S (ahi - (i + k))) (i + k) ahi (j + k) bhi)
    by lia.
Qed.

(** A range with no character of [a], or none of [b], has no block. *)
Lemma ro_range_empty alo ahi blo bhi :
  alo <= ahi <= length a -> blo <= bhi <= length b ->
  alo = ahi \/ blo = bhi -> ro_range a b (alo, ahi, blo, bhi) = 0.
Proof.
  intros Ha Hb He. rewrite ro_range_eq by done.
  pose proof (longest_block_ok alo ahi blo bhi Ha Hb) as Hok.
  destruct (longest_block a b alo ahi blo bhi) as [[i j] k].
  destruct Hok as (Hi & Hik & Hj & Hjk & _).
  by replace k with 0 by lia.
Qed.

(** The work list of [get_matching_blocks] adds up what the recursion of
    the specification adds up, when it is given rounds enough. *)
Lemma blocks_loop_ro rounds : forall queue ms,
  length b < 200 ->
  Forall (range_in a b) queue ->
  weights queue <= rounds ->
  blocks_total (blocks_loop a b rounds queue ms) =
  blocks_total ms + ro_ranges a b queue.
Proof.
  induction rounds as [|rounds IH]; intros queue ms Hb Hq Hw.
  - destruct queue as [|[[[alo ahi] blo] bhi] queue]; simpl in *; lia.
  - destruct queue as [|[[[alo ahi] blo] bhi] queue]; [simpl; lia|].
    apply Forall_cons in Hq as [[Ha Hb'] Hq].
    cbn [blocks_loop ro_ranges foldr]. fold (ro_ranges a b queue).
    rewrite find_longest_match_longest_block by done.
    rewrite ro_range_eq by done.
    pose proof (longest_block_ok alo ahi blo bhi Ha Hb') as Hok.
    destruct (longest_block a b alo ahi blo bhi) as [[i j] k].
    destruct Hok as (Hi & Hik & Hj & Hjk & _).
    cbn [weights foldr weight] in Hw. fold (weights queue) in Hw.
    destruct (Nat.eqb_spec k 0) as [->|Hk].
    + rewrite IH; [lia|done|done|lia].
    + set (q1 := if (alo <? i) && (blo <? j) then (alo, i, blo, j) :: queue else queue).
      set (q2 := if (i + k <? ahi) && (j + k <? bhi)
                 then (i + k, ahi, j + k, bhi) :: q1 else q1).
      assert (H1 : Forall (range_in a b) q1 /\
                   weights q1 <= 2 * (i - alo) + 1 + weights queue /\
                   ro_ranges a b q1 = ro_range a b (alo, i, blo, j) + ro_ranges a b queue).
      { subst q1. destruct (Nat.ltb_spec alo i), (Nat.ltb_spec blo j); cbn [andb].
        - split; [|unfold weights, ro_ranges; cbn [foldr weight]; lia].
          apply Forall_cons. split; [simpl; lia|done].
        - rewrite (ro_range_empty alo i blo j) by lia. split; [done|lia].
        - rewrite (ro_range_empty alo i blo j) by lia. split; [done|lia].
        - rewrite (ro_range_empty alo i blo j) by lia. split; [done|lia]. }
      destruct H1 as (Hq1 & Hw1 & Hr1).
      assert (H2 : Forall (range_in a b) q2 /\
                   weights q2 <= 2 * (ahi - (i + k)) + 1 + weights q1 /\
                   ro_ranges a b q2 =
                     ro_range a b (i + k, ahi, j + k, bhi) + ro_ranges a b q1).
      { subst q2. destruct (Nat.ltb_spec (i + k) ahi), (Nat.ltb_spec (j + k) bhi);
          cbn [andb].
        - split; [|unfold weights, ro_ranges; cbn [foldr weight]; lia].
          apply Forall_cons. split; [simpl; lia|done].
        - rewrite (ro_range_empty (i + k) ahi (j + k) bhi) by lia. split; [done|lia].
        - rewrite (ro_range_empty (i + k) ahi (j + k) bhi) by lia. split; [done|lia].
        - rewrite (ro_range_empty (i + k) ahi (j + k) bhi) by lia. split; [done|lia]. }
      destruct H2 as (Hq2 & Hw2 & Hr2).
      rewrite IH; [|done|done|lia].
      rewrite blocks_total_app, Hr2, Hr1. cbn [blocks_total foldr block_size snd]. lia.
Qed.

(** For a second string of fewer than 200 characters, the matched
    characters that [ratio] counts are those of the recursion. *)
Lemma matches_ro :
  length b < 200 ->
  matches a b = ro (S (length a)) 0 (length a) 0 (length b).
Proof.
  intros Hb. unfold matches, get_matching_blocks.
  fold (blocks_total (blocks_loop a b (2 * length a + 1) [(0, length a, 0, length b)] [])).
  rewrite blocks_loop_ro; [|done| |].
  - unfold ro_ranges, ro_range. cbn [foldr blocks_total].
    rewrite Nat.sub_0_r. lia.
  - apply Forall_cons. split; [simpl; lia|constructor].
  - unfold weights, weight. cbn [foldr]. lia.
Qed.

(** ... and, unless both strings are empty, [ratio] is the similarity of
    the specification. *)
Lemma ratio_spec_similarity :
  length b < 200 -> length a + length b <> 0 ->
  ratio a b = spec_similarity a b.
Proof.
  intros Hb Hne. unfold ratio, spec_similarity. cbv zeta.
  destruct (Nat.eqb_spec (length a + length b) 0) as [E|_]; [done|].
  by rewrite matches_ro.
Qed.
End Recursion.

Section Rounds.
Variables a b : str.

(** The rounds given to the loops of the model are enough: more rounds
    change nothing. *)
Lemma extend_right_rounds rounds : forall ahi bhi i j k,
  ahi - (i + k) <= rounds ->
  extend_right a b rounds ahi bhi i j k =
  extend_right a b (ahi - (i + k)) ahi bhi i j k.
Proof.
  induction rounds as [|rounds IH]; intros ahi bhi i j k H.
  - by replace (ahi - (i + k)) with 0 by lia.
  - destruct (Nat.ltb_spec (i + k) ahi) as [Hlt|Hge].
    + replace (ahi - (i + k)) with (S (ahi - (i + S k))) by lia. simpl.
      destruct ((i + k <? ahi) && (j + k <? bhi)
                && bool_decide (a !! (i + k) = b !! (j + k))); [|done].
      apply IH. lia.
    + replace (ahi - (i + k)) with 0 by lia. simpl.
      by replace (i + k <? ahi) with false by (symmetry; apply Nat.ltb_ge; lia).
Qed.

Lemma blocks_loop_rounds rounds : forall rounds' queue ms,
  Forall range_ok queue ->
  weights queue <= rounds -> rounds <= rounds' ->
  blocks_loop a b rounds queue ms = blocks_loop a b rounds' queue ms.
Proof.
  induction rounds as [|rounds IH]; intros rounds' queue ms Hq Hw Hr.
  - destruct queue as [|[[[alo ahi] blo] bhi] queue]; [|simpl in Hw; lia].
    by destruct rounds'.
  - destruct rounds' as [|rounds']; [lia|].
    destruct queue as [|[[[alo ahi] blo] bhi] queue]; [done|].
    apply Forall_cons in Hq as [[Ha Hb] Hq]. simpl.
    pose proof (find_longest_match_ok a b alo ahi blo bhi Ha Hb) as Hok.
    destruct (find_longest_match a b alo ahi blo bhi) as [[i j] k].
    destruct Hok as (Hi & Hik & Hj & Hjk & _).
    cbn [weights foldr weight] in Hw. fold (weights queue) in Hw.
    destruct (Nat.eqb_spec k 0) as [->|Hk]; [apply IH; [done|lia|lia]|].
    set (q1 := if (alo <? i) && (blo <? j) then (alo, i, blo, j) :: queue else queue).
    set (q2 := if (i + k <? ahi) && (j + k <? bhi)
               then (i + k, ahi, j + k, bhi) :: q1 else q1).
    assert (H1 : Forall range_ok q1 /\ weights q1 <= 2 * (i - alo) + 1 + weights queue).
    { subst q1. destruct ((alo <? i) && (blo <? j)).
      - split; [|unfold weights; cbn [foldr weight]; lia].
        apply Forall_cons. split; [simpl; lia|done].
      - split; [done|lia]. }
    destruct H1 as [Hq1 Hw1].
    assert (H2 : Forall range_ok q2 /\
                 weights q2 <= 2 * (ahi - (i + k)) + 1 + weights q1).
    { subst q2. destruct ((i + k <? ahi) && (j + k <? bhi)).
      - split; [|unfold weights; cbn [foldr weight]; lia].
        apply Forall_cons. split; [simpl; lia|done].
      - split; [done|lia]. }
    destruct H2 as [Hq2 Hw2].
    apply IH; [done|lia|lia].
Qed.

Lemma get_matching_blocks_rounds extra :
  get_matching_blocks a b =
  blocks_loop a b (2 * length a + 1 + extra) [(0, length a, 0, length b)] [].
Proof.
  unfold get_matching_blocks. apply blocks_loop_rounds.
  - apply Forall_cons. split; [simpl; lia|constructor].
  - unfold weights, weight. cbn [foldr]. lia.
  - lia.
Qed.
End Rounds.

(** * The relevance score *)

Lemma foldl_word_boost title content tags ws : forall score,
  (foldl (word_boost title content tags) score ws ==
   score + Qsum (List.map (word_bonus title content tags) ws))%Q.
Proof.
  induction ws as [|w ws IH]; intros score; simpl.
  - ring.
  - rewrite IH. unfold word_boost, word_bonus, bonus.
    destruct (2 <? length w); [|ring].
    destruct (str_in w title), (str_in w content), (str_in w tags); ring.
Qed.

(** The score is the sum of its parts, with [SequenceMatcher.ratio] as the
    similarity. *)
Lemma calculate_score_sum lower r query :
  (_calculate_score lower r query == score_formula ratio lower r query)%Q.
Proof.
  unfold _calculate_score, score_formula. cbv zeta.
  rewrite foldl_word_boost. unfold bonus.
  destruct (str_in query _), (str_in query _), (str_in query _); ring.
Qed.

(** Every word of [s.split()] is a piece of [s]. *)
Lemma split_fold_in s :
  let '(w, ws) := fold_right split_step ([], []) s in
  (exists rest, s = w ++ rest) /\
  (forall w', w' ∈ ws -> str_in w' s = true).
Proof.
  induction s as [|c s IH]; simpl.
  - split; [by exists []|]. intros w' H. by apply elem_of_nil in H.
  - destruct (fold_right split_step ([], []) s) as [w ws].
    destruct IH as [[rest Hrest] Hws]. unfold split_step.
    assert (Hcons : forall x, str_in x s = true -> str_in x (c :: s) = true).
    { intros x. rewrite !str_in_spec. intros (pre & post & ->).
      by exists (c :: pre), post. }
    destruct (isspace c).
    + split; [by exists (c :: s)|]. intros w' Hw'.
      apply Hcons. destruct w as [|d w]; [by apply Hws|].
      apply elem_of_cons in Hw' as [->|Hw']; [|by apply Hws].
      apply str_in_spec. by exists [], rest.
    + split; [exists rest; by rewrite Hrest|].
      intros w' Hw'. by apply Hcons, Hws.
Qed.

Lemma str_split_in w s : w ∈ str_split s -> str_in w s = true.
Proof.
  unfold str_split. pose proof (split_fold_in s) as H.
  destruct (fold_right split_step ([], []) s) as [cur ws].
  destruct H as [[rest Hrest] Hws]. destruct cur as [|d cur]; [apply Hws|].
  intros Hw. apply elem_of_cons in Hw as [->|Hw]; [|by apply Hws].
  apply str_in_spec. by exists [], rest.
Qed.

Lemma bonus_nonneg w c : (0 <= w)%Q -> (0 <= bonus w c)%Q.
Proof. intros H. destruct c; simpl; [done|apply Qle_refl]. Qed.

Lemma Qsum_le {A} (f g : A -> Q) l :
  (forall x, x ∈ l -> (f x <= g x)%Q) ->
  (Qsum (List.map f l) <= Qsum (List.map g l))%Q.
Proof.
  induction l as [|x l IH]; intros H; simpl; [apply Qle_refl|].
  apply Qplus_le_compat; [apply H; by left|]. apply IH.
  intros y Hy. apply H. by right.
Qed.

(** C7. Of two records with the same content and tags, the one whose
    lower-cased title contains the query scores strictly higher than the
    one whose lower-cased title does not. *)
Theorem exact_title_match_dominates lower r1 r2 query :
  rec_content r1 = rec_content r2 ->
  rec_tags r1 = rec_tags r2 ->
  str_in query (lower (default [] (rec_title r1))) = true ->
  str_in query (lower (default [] (rec_title r2))) = false ->
  (_calculate_score lower r2 query < _calculate_score lower r1 query)%Q.
Proof.
  intros Hc Ht H1 H2. rewrite !calculate_score_sum. unfold score_formula.
  cbv zeta. rewrite <- Hc, <- Ht, H1, H2.
  set (t1 := lower (default [] (rec_title r1))) in *.
  set (t2 := lower (default [] (rec_title r2))) in *.
  set (content := lower (default [] (rec_content r1))).
  set (tags := lower (str_join (u " ") (default [] (rec_tags r1)))).
  assert (Hw : (Qsum (List.map (word_bonus t2 content tags) (str_split query))
                <= Qsum (List.map (word_bonus t1 content tags) (str_split query)))%Q).
  { apply Qsum_le. intros w Hw. unfold word_bonus.
    destruct (2 <? length w); [|apply Qle_refl].
    rewrite (str_in_trans w query t1); [|by apply str_split_in|done].
    destruct (str_in w t2), (str_in w content), (str_in w tags); simpl; lra. }
  destruct (ratio_bounds query t1) as [Hr1 _].
  destruct (ratio_bounds query t2) as [_ Hr2].
  unfold bonus at 1 4. lra.
Qed.

Lemma exact_title_match_dominates_witness :
  rec_content (titled (u "Python API tutorial")) = rec_content (titled (u "Cooking pasta")) /\
  str_in (u "api") (ascii_lower (default [] (rec_title (titled (u "Python API tutorial"))))) = true /\
  str_in (u "api") (ascii_lower (default [] (rec_title (titled (u "Cooking pasta"))))) = false /\
  (_calculate_score ascii_lower (titled (u "Cooking pasta")) (u "api")
   < _calculate_score ascii_lower (titled (u "Python API tutorial")) (u "api"))%Q.
Proof.
  assert (H1 : str_in (u "api")
                 (ascii_lower (default [] (rec_title (titled (u "Python API tutorial")))))
               = true) by (vm_compute; reflexivity).
  assert (H2 : str_in (u "api")
                 (ascii_lower (default [] (rec_title (titled (u "Cooking pasta")))))
               = false) by (vm_compute; reflexivity).
  split; [reflexivity|]. split; [exact H1|]. split; [exact H2|].
  exact (exact_title_match_dominates ascii_lower
           (titled (u "Python API tutorial")) (titled (u "Cooking pasta")) (u "api")
           eq_refl eq_refl H1 H2).
Defined.

(** ** Input that the specification calls malformed *)

Lemma score_empty_query lower r : (225 <= _calculate_score lower r [])%Q.
Proof.
  rewrite calculate_score_sum. unfold score_formula. cbv zeta.
  rewrite !str_in_nil. change (str_split []) with (@nil str). simpl.
  destruct (ratio_bounds [] (lower (default [] (rec_title r)))) as [H1 _].
  destruct (ratio_bounds [] (lower (default [] (rec_content r)))) as [H2 _].
  lra.
Qed.

Lemma scored_empty_query lower l :
  scored lower [] l = List.map (fun r => (_calculate_score lower r [], r)) l.
Proof.
  unfold scored. induction l as [|r l IH]; simpl; [done|].
  replace (Qltb 0 (_calculate_score lower r [])) with true; [by rewrite IH|].
  symmetry. apply Qltb_spec. pose proof (score_empty_query lower r). lra.
Qed.

Lemma upto_length {A} (l : list A) n :
  length (upto l n) =
  if (0 <=? n)%Z then Nat.min (Z.to_nat n) (length l)
  else length l - Z.to_nat (- n).
Proof.
  unfold upto. destruct (0 <=? n)%Z; rewrite length_take; lia.
Qed.

Lemma elem_of_upto {A} (l : list A) n x : x ∈ upto l n -> x ∈ l.
Proof. unfold upto. destruct (0 <=? n)%Z; apply subseteq_take. Qed.

Lemma elem_of_tag_filtered lower tag_filter l r :
  r ∈ tag_filtered lower tag_filter l -> r ∈ l.
Proof.
  unfold tag_filtered. destruct (is_empty tag_filter); [done|].
  rewrite !list_elem_of_In, filter_In. by intros [? _].
Qed.

Lemma map_result_complete lower q l :
  (forall x, x ∈ l -> complete x.2) ->
  exists hs, map_result (format_result lower q) l = Ok hs /\ length hs = length l.
Proof.
  induction l as [|[c r] l IH]; intros H; simpl.
  - by exists [].
  - destruct IH as (hs & -> & Hlen); [intros x Hx; apply H; by right|].
    destruct (H (c, r)) as ([i Hi] & [t Ht] & [ti Hti] & [co Hco]); [by left|].
    simpl in *. rewrite Hi, Ht, Hti, Hco. simpl.
    eexists. split; [done|]. simpl. by rewrite Hlen.
Qed.

(** C9, as stated, fails: an empty query is not rejected; [search] returns
    every record of the log. *)
Lemma empty_query_counterexample :
  ~ rejected (search ascii_lower two_notes [] 10 []) /\
  exists resp,
    search ascii_lower two_notes [] 10 [] = Ok resp /\
    length (resp_results resp) = 2.
Proof.
  assert (H : exists resp,
             search ascii_lower two_notes [] 10 [] = Ok resp /\
             length (resp_results resp) = 2).
  { eexists. split; [vm_compute; reflexivity|reflexivity]. }
  split; [|exact H]. destruct H as (resp & E & _).
  intros [e He]. rewrite E in He. discriminate He.
Qed.

(** * The score and the similarity of the specification *)

(** C1 (amended).  The score of a record is the sum of the specification:
    100, 50 and 75 for the query in title, content and tags, 30 and 20
    times the similarity of the query to title and content, and 10, 5 and
    15 for each query word longer than 2 characters in title, content and
    tags; where the similarity is that of [difflib]: 1 when both strings
    are empty; the Ratcliff-Obershelp ratio of the specification when the
    second string has fewer than 200 characters; and in any case
    [2M / (len(a) + len(b))] for the [M] matched characters that
    [SequenceMatcher] finds, a number between 0 and 1. *)
Theorem calculate_score_formula lower r query :
  (_calculate_score lower r query == score_formula ratio lower r query)%Q /\
  (forall a b : str, length a + length b = 0 -> ratio a b = 1%Q) /\
  (forall a b : str,
     length b < 200 -> length a + length b <> 0 ->
     ratio a b = spec_similarity a b) /\
  (forall a b : str,
     length a + length b <> 0 ->
     ratio a b = (2 * inject_Z (Z.of_nat (matches a b))
                  / inject_Z (Z.of_nat (length a + length b)))%Q /\
     matches a b <= length a /\ matches a b <= length b /\
     (0 <= ratio a b <= 1)%Q).
Proof.
  split; [apply calculate_score_sum|]. split; [|split].
  - intros a b H. rewrite ratio_eq. by rewrite H.
  - intros a b. apply ratio_spec_similarity.
  - intros a b H. split; [|split; [apply matches_le|split; [apply matches_le|]]].
    + rewrite ratio_eq.
      by destruct (Nat.eqb_spec (length a + length b) 0).
    + apply ratio_bounds.
Qed.

(** C1, as stated, fails: for an empty query and a record with an empty
    title (and here empty content), [SequenceMatcher] gives the similarity
    1, not 0, and the score is 275, not 225. *)
Lemma score_empty_strings_counterexample :
  (_calculate_score ascii_lower empty_note [] == 275)%Q /\
  (score_formula spec_similarity ascii_lower empty_note [] == 225)%Q /\
  ~ (_calculate_score ascii_lower empty_note []
     == score_formula spec_similarity ascii_lower empty_note [])%Q.
Proof.
  split; [vm_compute; reflexivity|]. split; [vm_compute; reflexivity|].
  intros H. vm_compute in H. discriminate H.
Qed.

(** With 200 characters or more in the second string, the popular ones are
    not looked for: here the one common character is missed. *)
Lemma autojunk_example :
  matches (u "xa") (List.repeat 0x61%N 200) = 0 /\
  ro_matches (u "xa") (List.repeat 0x61%N 200) 3 0 2 0 200 = 1.
Proof. split; vm_compute; reflexivity. Qed.

(** * Further properties of the record store *)

Lemma first_with_id_Some record_id records r :
  first_with_id record_id records = Some r <->
  exists l1 l2,
    records = l1 ++ r :: l2 /\ rec_id r = Some record_id /\
    forall r', r' ∈ l1 -> rec_id r' <> Some record_id.
Proof.
  induction records as [|x records IH]; simpl.
  - split; [done|]. intros (l1 & l2 & H & _). by destruct l1.
  - destruct (decide (rec_id x = Some record_id)) as [Hx|Hx].
    + split.
      * intros [= <-]. exists [], records. split; [done|]. split; [done|].
        intros r' Hr'. by apply elem_of_nil in Hr'.
      * intros (l1 & l2 & H & Hr & Hl1). destruct l1 as [|y l1].
        -- by injection H as -> _.
        -- injection H as -> _. destruct (Hl1 y); [by left|done].
    + rewrite IH. split.
      * intros (l1 & l2 & -> & Hr & Hl1). exists (x :: l1), l2.
        split; [done|]. split; [done|]. intros r' Hr'.
        apply elem_of_cons in Hr' as [->|Hr']; [done|by apply Hl1].
      * intros (l1 & l2 & H & Hr & Hl1). destruct l1 as [|y l1].
        -- injection H as -> _. done.
        -- injection H as -> ->. exists l1, l2. split; [done|]. split; [done|].
           intros r' Hr'. apply Hl1. by right.
Qed.

Lemma first_with_id_None record_id records :
  first_with_id record_id records = None <->
  forall r, r ∈ records -> rec_id r <> Some record_id.
Proof.
  induction records as [|x records IH]; simpl.
  - split; [|done]. intros _ r Hr. by apply elem_of_nil in Hr.
  - destruct (decide (rec_id x = Some record_id)) as [Hx|Hx].
    + split; [done|]. intros H. destruct (H x); [by left|done].
    + rewrite IH. split.
      * intros H r Hr. apply elem_of_cons in Hr as [->|Hr]; [done|by apply H].
      * intros H r Hr. apply H. by right.
Qed.

(** X1. On a readable log, [get_by_id] returns the first record of the log
    that has the id (the oldest when several have it), and [None], not an
    error, exactly when no record has it. *)
Theorem get_by_id_first_match fs record_id records :
  get_all_records fs = Ok records ->
  (forall r, get_by_id fs record_id = Ok (Some r) <->
     exists l1 l2,
       records = l1 ++ r :: l2 /\ rec_id r = Some record_id /\
       forall r', r' ∈ l1 -> rec_id r' <> Some record_id) /\
  (get_by_id fs record_id = Ok None <->
     forall r, r ∈ records -> rec_id r <> Some record_id).
Proof.
  intros Hread. unfold get_by_id. rewrite Hread. cbn [mbind result_bind]. split.
  - intros r. rewrite <- first_with_id_Some. split; [by intros [= ->]|by intros ->].
  - rewrite <- first_with_id_None. split; [by intros [= ->]|by intros ->].
Qed.

Lemma get_by_id_first_match_witness :
  get_all_records two_notes = Ok [note_a; note_b] /\
  get_by_id two_notes (u "b2") = Ok (Some note_b) /\
  get_by_id two_notes (u "zz") = Ok None.
Proof.
  assert (H : get_all_records two_notes = Ok [note_a; note_b]) by reflexivity.
  split; [exact H|].
  destruct (get_by_id_first_match two_notes (u "b2") _ H) as [H1 _].
  destruct (get_by_id_first_match two_notes (u "zz") _ H) as [_ H2].
  split.
  - apply H1. exists [note_a], []. split; [reflexivity|].
    split; [vm_compute; reflexivity|]. intros r' Hr'.
    apply list_elem_of_singleton in Hr'. subst r'. vm_compute. discriminate.
  - apply H2. intros r Hr. apply elem_of_cons in Hr as [->|Hr].
    + vm_compute. discriminate.
    + apply list_elem_of_singleton in Hr. subst r. vm_compute. discriminate.
Defined.

Local Arguments written : simpl never.

Lemma run_records lower data_file fs cs :
  lines fs = [] ->
  get_all_records (run lower data_file fs cs).2 =
  Ok (successes lower cs (run lower data_file fs cs).1).
Proof.
  intros Hempty. pose proof (run_lines lower data_file cs fs) as Hl.
  rewrite Hempty in Hl. simpl in Hl.
  rewrite get_all_records_readable; rewrite Hl.
  - by rewrite parsed_map_Json.
  - apply NotUtf8_not_Json.
Qed.

Lemma written_id lower c r x :
  written lower (c, r) = Some x ->
  exists e content title tags auto_tag,
    c = Store e content title tags auto_tag /\ rec_id x = Some (uuid4 e).
Proof.
  unfold written. destruct c; try discriminate.
  destruct r as [[s|?]| | | | |]; try discriminate.
  intros [= <-]. eauto 10.
Qed.

Lemma successes_ids lower cs : forall rs,
  List.map rec_id (successes lower cs rs) `sublist_of` List.map Some (store_ids cs).
Proof.
  unfold successes, store_ids.
  induction cs as [|c cs IH]; intros rs; [by destruct rs|].
  destruct rs as [|r rs]; [apply sublist_nil_l|].
  change (zip (c :: cs) (r :: rs)) with ((c, r) :: zip cs rs).
  cbn [omap list_omap]. fold (omap (written lower) (zip cs rs)).
  destruct (written lower (c, r)) as [x|] eqn:E.
  - destruct (written_id _ _ _ _ E) as (e & ? & ? & ? & ? & -> & Hx).
    cbn [List.map]. rewrite Hx. apply sublist_skip, IH.
  - destruct c; try apply IH. cbn [List.map]. apply sublist_cons, IH.
Qed.

Lemma first_with_id_NoDup record_id records r :
  NoDup (List.map rec_id records) -> r ∈ records -> rec_id r = Some record_id ->
  first_with_id record_id records = Some r.
Proof.
  intros Hnd Hr Hid. apply first_with_id_Some.
  apply list_elem_of_split in Hr as (l1 & l2 & ->). exists l1, l2.
  split; [done|]. split; [done|]. intros r' Hr' E.
  rewrite map_app in Hnd. apply NoDup_app in Hnd as (_ & Hnd & _).
  apply (Hnd (rec_id r')).
  - apply list_elem_of_In, in_map, list_elem_of_In, Hr'.
  - simpl. rewrite E, <- Hid. by left.
Qed.

(** X2. In a run that starts from an empty or absent data file and whose
    [store] calls get pairwise distinct ids, every record written is still
    found at the end by [get_by_id] on its id: later writes never hide or
    replace it. *)
Theorem stored_records_stay_found lower data_file fs cs rs fs' :
  lines fs = [] ->
  NoDup (store_ids cs) ->
  run lower data_file fs cs = (rs, fs') ->
  forall r, r ∈ successes lower cs rs ->
    exists record_id,
      rec_id r = Some record_id /\ get_by_id fs' record_id = Ok (Some r).
Proof.
  intros Hempty Hnd Hrun r Hr.
  pose proof (run_records lower data_file fs cs Hempty) as Hrec.
  rewrite Hrun in Hrec. simpl in Hrec.
  assert (Hids : NoDup (List.map rec_id (successes lower cs rs))).
  { apply (sublist_NoDup _ (List.map Some (store_ids cs)));
      [|apply successes_ids].
    apply (NoDup_fmap_2 Some), Hnd. }
  assert (Hid : exists record_id, rec_id r = Some record_id).
  { unfold successes in Hr. apply list_elem_of_omap in Hr as ([c x] & _ & E).
    destruct (written_id _ _ _ _ E) as (e & ? & ? & ? & ? & _ & Hx). eauto. }
  destruct Hid as [record_id Hid]. exists record_id. split; [done|].
  unfold get_by_id. rewrite Hrec. cbn [mbind result_bind].
  by rewrite (first_with_id_NoDup record_id _ r).
Qed.

Lemma stored_records_stay_found_witness :
  lines None = [] /\
  NoDup (store_ids two_stores) /\
  exists rs fs',
    run ascii_lower (u "knowledge.jsonl") None two_stores = (rs, fs') /\
    forall r, r ∈ successes ascii_lower two_stores rs ->
      exists record_id,
        rec_id r = Some record_id /\ get_by_id fs' record_id = Ok (Some r).
Proof.
  assert (H1 : lines None = []) by reflexivity.
  assert (H2 : NoDup (store_ids two_stores)).
  { apply (bool_decide_unpack _). vm_compute. exact I. }
  split; [exact H1|]. split; [exact H2|].
  destruct (run ascii_lower (u "knowledge.jsonl") None two_stores)
    as [rs fs'] eqn:E.
  exists rs, fs'. split; [reflexivity|].
  exact (stored_records_stay_found ascii_lower (u "knowledge.jsonl") None two_stores
           rs fs' H1 H2 E).
Defined.

(** ** What [store] writes *)

Lemma lstrip_fixed s :
  lstrip s = s <-> match s with [] => True | c :: _ => isspace c = false end.
Proof.
  destruct s as [|c s]; simpl; [done|]. destruct (isspace c) eqn:E; [|done].
  split; [|done]. intros H. destruct (lstrip_suffix s) as [w Hw].
  assert (Hlen : length (lstrip s) = length (c :: s)) by by rewrite H.
  rewrite Hw in Hlen at 2. simpl in Hlen. rewrite length_app in Hlen. lia.
Qed.

Lemma lstrip_idem s : lstrip (lstrip s) = lstrip s.
Proof.
  induction s as [|c s IH]; simpl; [done|].
  destruct (isspace c) eqn:E; [done|]. simpl. by rewrite E.
Qed.

Lemma rstrip_idem s : rstrip (rstrip s) = rstrip s.
Proof. unfold rstrip. by rewrite rev_involutive, lstrip_idem. Qed.

Lemma lstrip_rstrip s : lstrip s = s -> lstrip (rstrip s) = rstrip s.
Proof.
  intros H. apply lstrip_fixed. apply lstrip_fixed in H.
  destruct (rstrip_prefix s) as [w Hw].
  destruct (rstrip s) as [|c y]; [done|]. rewrite Hw in H. done.
Qed.

Lemma strip_trimmed s : trimmed (strip s).
Proof.
  unfold trimmed, strip. split; [|apply rstrip_idem].
  apply lstrip_rstrip, lstrip_idem.
Qed.

Lemma strip_length s : length (strip s) <= length s.
Proof.
  unfold strip. destruct (lstrip_suffix s) as [w Hw].
  destruct (rstrip_prefix (lstrip s)) as [w' Hw'].
  rewrite Hw at 2. rewrite Hw' at 2. rewrite !length_app. lia.
Qed.

Lemma suggested_in_table lower content title :
  _auto_suggest_tags lower content title `sublist_of` List.map fst tag_keywords.
Proof.
  unfold _auto_suggest_tags. cbv zeta.
  etransitivity; [apply sublist_take|].
  generalize tag_keywords. intros l. induction l as [|[t ks] l IH]; simpl; [done|].
  destruct (existsb _ ks); simpl; [by apply sublist_skip|by apply sublist_cons].
Qed.

Lemma table_tags_clean :
  Forall (fun t => t <> [] /\ trimmed t) (List.map fst tag_keywords).
Proof.
  repeat constructor; try discriminate; vm_compute; reflexivity.
Qed.

Lemma tags_of_clean lower content title tags auto_tag t :
  t ∈ tags_of lower content title tags auto_tag -> t <> [] /\ trimmed t.
Proof.
  unfold tags_of. rewrite elem_of_elements, elem_of_list_to_set, elem_of_app.
  intros [H|H].
  - apply elem_of_manual_tags in H as [Hne (piece & _ & ->)].
    split; [done|apply strip_trimmed].
  - destruct auto_tag; [|by apply elem_of_nil in H].
    pose proof table_tags_clean as Hall. rewrite Forall_forall in Hall.
    apply Hall. eapply elem_of_sublist; [exact H|apply suggested_in_table].
Qed.

(** X3. A [store] call that goes through appends exactly one line: a
    record with all its keys, the id of the summary, title and content
    without surrounding whitespace (the stored title is the summary's title
    trimmed), and the tags of the summary, which are without duplicates,
    non-empty and without surrounding whitespace. *)
Theorem store_writes_clean_record lower e fs content title tags auto_tag s fs' :
  store lower e fs content title tags auto_tag = (Ok s, fs') ->
  exists r,
    lines fs' = lines fs ++ [Json r] /\
    complete r /\ rec_id r = Some (sum_id s) /\
    rec_title r = Some (strip (sum_title s)) /\ trimmed (strip (sum_title s)) /\
    rec_content r = Some (strip content) /\ trimmed (strip content) /\
    rec_tags r = Some (sum_tags s) /\ NoDup (sum_tags s) /\
    forall t, t ∈ sum_tags s -> t <> [] /\ trimmed t.
Proof.
  intros Hstore. rewrite store_eq in Hstore.
  destruct (write_succeeds e); [|discriminate]. injection Hstore as <- <-.
  exists (record_of lower e content title tags auto_tag).
  split; [apply lines_append_line|]. cbn [sum_id sum_title sum_tags].
  split; [repeat split; by eexists|]. split; [done|]. split; [done|].
  split; [apply strip_trimmed|]. split; [done|]. split; [apply strip_trimmed|].
  split; [done|]. split; [apply NoDup_elements|]. apply tags_of_clean.
Qed.

Lemma store_writes_clean_record_witness :
  exists s fs' r,
    store ascii_lower env1 None (u "  second note ") (u " Title ") (u "x, y") false
      = (Ok s, fs') /\
    lines fs' = lines None ++ [Json r] /\
    rec_title r = Some (strip (sum_title s)) /\
    rec_content r = Some (strip (u "  second note ")) /\
    rec_tags r = Some (sum_tags s).
Proof.
  pose proof (store_eq ascii_lower env1 None (u "  second note ") (u " Title ")
                (u "x, y") false) as E.
  change (write_succeeds env1) with true in E. cbv iota in E.
  destruct (store_writes_clean_record _ _ _ _ _ _ _ _ _ E)
    as (r & H1 & _ & _ & H2 & _ & H3 & _ & H4 & _).
  eexists _, _, r. split; [exact E|]. split; [exact H1|].
  split; [exact H2|]. split; [exact H3|exact H4].
Defined.

(** * Further properties of [store]: retries, suggested tags, titles *)

Lemma forall_lt_3 (P : nat -> Prop) :
  (forall i, i < 3 -> P i) <-> P 0 /\ P 1 /\ P 2.
Proof.
  split.
  - intros H. repeat split; apply H; lia.
  - intros (H0 & H1 & H2) i Hi. destruct i as [|[|[|i]]]; [done..|lia].
Qed.

Lemma exists_lt_3 (P : nat -> Prop) :
  (exists i, i < 3 /\ P i) <-> P 0 \/ P 1 \/ P 2.
Proof.
  split.
  - intros (i & Hi & H). destruct i as [|[|[|i]]]; [auto..|lia].
  - intros [H|[H|H]]; [exists 0|exists 1|exists 2]; (split; [lia|done]).
Qed.

Lemma rejected_Ok {A} (a : A) : rejected (Ok a) <-> False.
Proof. split; [by intros [x [=]]|done]. Qed.

Lemma rejected_Raise {A} e : rejected (@Raise A e) <-> True.
Proof. split; [done|]. intros _. by exists e. Qed.

(** X4. [store] fails exactly when the first three write attempts all fail,
    whatever a later attempt would do; the failure is always the storage
    failure, and it adds no line and changes none: a data file that exists
    is left as it was, and an absent one is created, empty, exactly when one
    of the three attempts fails after it has opened the file. *)
Theorem store_fails_iff_three_attempts_fail lower e fs content title tags auto_tag :
  let out := store lower e fs content title tags auto_tag in
  (rejected out.1 <-> forall i, i < 3 -> write_ok e i = false) /\
  (rejected out.1 ->
     out.1 = Raise StorageFailed /\
     lines out.2 = lines fs /\
     (is_Some fs -> out.2 = fs) /\
     (fs = None ->
        (out.2 = Some [] <->
           exists i, i < 3 /\ attempts e i = FailedAfterOpen) /\
        (out.2 = None <-> forall i, i < 3 -> attempts e i = OpenFailed))).
Proof.
  cbv zeta. rewrite store_eq, !forall_lt_3, exists_lt_3.
  unfold write_succeeds, write_ok, after_failure, opens_then_fails.
  cbn [existsb].
  destruct (attempts e 0), (attempts e 1), (attempts e 2);
    cbn [orb fst snd]; rewrite ?rejected_Ok, ?rejected_Raise;
    (split; [by intuition|]); try done; intros _;
    (split; [done|]); (split; [by destruct fs|]);
    (split; [by intros [ls ->]|]); intros ->; cbn [open_append];
    intuition (discriminate || done).
Qed.

Lemma store_fails_iff_three_attempts_fail_witness :
  (forall i, i < 3 -> write_ok env_down i = false) /\
  write_ok env_down 3 = true /\
  store ascii_lower env_down None (u "note") [] [] true
    = (Raise StorageFailed, Some []).
Proof.
  assert (H : forall i, i < 3 -> write_ok env_down i = false).
  { intros i Hi. destruct i as [|[|[|i]]]; [reflexivity..|lia]. }
  split; [exact H|]. split; [reflexivity|].
  destruct (store_fails_iff_three_attempts_fail ascii_lower env_down None
              (u "note") [] [] true) as [[_ H1] H2].
  destruct (H2 (H1 H)) as (E1 & _ & _ & E2).
  destruct (E2 eq_refl) as [[_ E3] _].
  assert (E4 : exists i, i < 3 /\ attempts env_down i = FailedAfterOpen).
  { exists 0. split; [lia|reflexivity]. }
  apply E3 in E4.
  destruct (store ascii_lower env_down None (u "note") [] [] true) as [r f].
  simpl in E1, E4. by rewrite E1, E4.
Defined.

(** ** [_auto_suggest_tags] *)

Section BeforeIndex.
Context {A B : Type}.
Implicit Types (l : list A) (x y : A).

Lemma before_lookup l x y :
  before l x y <-> exists i j, i < j /\ l !! i = Some x /\ l !! j = Some y.
Proof.
  split.
  - intros (l1 & l2 & l3 & ->).
    exists (length l1), (length (l1 ++ x :: l2)). split; [|split].
    + rewrite length_app. simpl. lia.
    + by apply list_lookup_middle.
    + change (l1 ++ x :: l2 ++ y :: l3) with (l1 ++ (x :: l2) ++ y :: l3).
      rewrite app_assoc. by apply list_lookup_middle.
  - intros (i & j & Hij & Hi & Hj).
    apply list_elem_of_split_length in Hi as (l1 & r & -> & ->).
    rewrite lookup_app_r in Hj by lia.
    destruct (j - length l1) as [|k] eqn:E; [lia|]. simpl in Hj.
    apply list_elem_of_split_length in Hj as (l2 & l3 & -> & _).
    by exists l1, l2, l3.
Qed.

Lemma before_total l x y :
  x ∈ l -> y ∈ l -> x = y \/ before l x y \/ before l y x.
Proof.
  intros [i Hi]%list_elem_of_lookup [j Hj]%list_elem_of_lookup.
  destruct (Nat.lt_total i j) as [H|[->|H]].
  - right; left. apply before_lookup. by exists i, j.
  - left. congruence.
  - right; right. apply before_lookup. by exists j, i.
Qed.

Lemma before_NoDup l x y : NoDup l -> before l x y -> x <> y /\ ~ before l y x.
Proof.
  intros Hnd (i & j & Hij & Hi & Hj)%before_lookup. split.
  - intros ->. pose proof (NoDup_lookup _ _ _ _ Hnd Hi Hj). lia.
  - intros (i' & j' & Hij' & Hi' & Hj')%before_lookup.
    pose proof (NoDup_lookup _ _ _ _ Hnd Hi Hj').
    pose proof (NoDup_lookup _ _ _ _ Hnd Hj Hi'). lia.
Qed.

Lemma before_take_closed l n x y :
  NoDup l -> before l x y -> y ∈ take n l -> x ∈ take n l.
Proof.
  intros Hnd (i & j & Hij & Hi & Hj)%before_lookup [k Hk]%list_elem_of_lookup.
  apply lookup_take_Some in Hk as [Hk Hkn].
  pose proof (NoDup_lookup _ _ _ _ Hnd Hj Hk) as ->.
  apply list_elem_of_lookup. exists i. apply lookup_take_Some. split; [done|lia].
Qed.

Lemma before_map (f : A -> B) l x y :
  before l x y -> before (List.map f l) (f x) (f y).
Proof.
  intros (l1 & l2 & l3 & ->).
  exists (List.map f l1), (List.map f l2), (List.map f l3).
  by rewrite map_app, map_cons, map_app, map_cons.
Qed.
End BeforeIndex.

Lemma str_in_occurs sub s : str_in sub s = true -> occurs s sub.
Proof. intros (pre & post & H)%str_in_spec. by exists (length pre), pre, post. Qed.

Lemma table_tags_NoDup : NoDup (List.map fst tag_keywords).
Proof. apply (bool_decide_unpack _). vm_compute. exact I. Qed.

Lemma elem_of_suggested lower content title tag :
  tag ∈ List.map fst
          (List.filter
             (fun '(tag, keywords) =>
                existsb (fun keyword =>
                           str_in keyword (lower (title ++ u " " ++ content)))
                        keywords)
             tag_keywords) <->
  exists keywords keyword,
    (tag, keywords) ∈ tag_keywords /\ keyword ∈ keywords /\
    occurs (lower (title ++ u " " ++ content)) keyword.
Proof.
  rewrite list_elem_of_In, in_map_iff. split.
  - intros ([t ks] & <- & H). apply filter_In in H as [H1 H2].
    apply existsb_exists in H2 as (k & Hk & H2).
    exists ks, k. rewrite !list_elem_of_In. split; [done|]. split; [done|].
    apply str_in_spec in H2 as (pre & post & H2).
    exists (length pre), pre, post. done.
  - intros (ks & k & H1 & H2 & p & pre & post & H3 & _).
    exists (tag, ks). split; [done|]. apply filter_In.
    rewrite list_elem_of_In in H1. split; [done|].
    apply existsb_exists. exists k. rewrite list_elem_of_In in H2.
    split; [done|]. apply str_in_spec. by exists pre, post.
Qed.

(** X5. The suggested tags are at most three tags of the keyword table,
    without duplicates and in table order; each one has a keyword that
    occurs in the lower-cased title, a space and the content; and a tag of the
    table with such a keyword is left out only when three tags that come
    before it in the table are suggested. *)
Theorem auto_suggest_tags_first_three lower content title :
  let text := lower (title ++ u " " ++ content) in
  let justified tag :=
    exists keywords keyword,
      (tag, keywords) ∈ tag_keywords /\ keyword ∈ keywords /\ occurs text keyword in
  let suggested := _auto_suggest_tags lower content title in
  length suggested <= 3 /\ NoDup suggested /\
  suggested `sublist_of` List.map fst tag_keywords /\
  (forall tag, tag ∈ suggested -> justified tag) /\
  (forall tag, justified tag -> tag ∉ suggested ->
     length suggested = 3 /\
     forall tag', tag' ∈ suggested -> before (List.map fst tag_keywords) tag' tag).
Proof.
  cbv zeta. pose proof (suggested_in_table lower content title) as Hsub.
  pose proof table_tags_NoDup as Hnd.
  assert (Hnd' : NoDup (_auto_suggest_tags lower content title))
    by exact (sublist_NoDup _ _ Hnd Hsub).
  unfold _auto_suggest_tags in *. cbv zeta in *.
  set (S := List.map fst (List.filter _ tag_keywords)) in *.
  assert (HS : S `sublist_of` List.map fst tag_keywords).
  { unfold S. generalize tag_keywords. intros l.
    induction l as [|[t ks] l IH]; simpl; [done|].
    destruct (existsb _ ks); simpl; [by apply sublist_skip|by apply sublist_cons]. }
  assert (HndS : NoDup S) by exact (sublist_NoDup _ _ Hnd HS).
  split; [rewrite length_take; lia|]. split; [done|]. split; [done|]. split.
  - intros tag H. apply elem_of_suggested. by apply (subseteq_take 3).
  - intros tag Hj Hno. apply elem_of_suggested in Hj. fold S in Hj.
    assert (Hlen : 3 < length S).
    { destruct (Nat.lt_ge_cases 3 (length S)) as [H|H]; [done|].
      rewrite take_ge in Hno by done. done. }
    split; [rewrite length_take; lia|].
    intros tag' H'.
    assert (H'S : tag' ∈ S) by by apply (subseteq_take 3).
    destruct (before_total S tag' tag H'S Hj) as [->|[H|H]]; [done| |].
    + unfold S in H. apply before_map_inv in H as ([t1 k1] & [t2 k2] & H & <- & <-).
      apply before_filter_inv in H. by apply (before_map fst) in H.
    + destruct Hno. by apply (before_take_closed S 3 tag tag').
Qed.

Lemma auto_suggest_tags_first_three_witness :
  (u "想法" ∉ _auto_suggest_tags ascii_lower busy_note []) /\
  length (_auto_suggest_tags ascii_lower busy_note []) = 3 /\
  forall tag', tag' ∈ _auto_suggest_tags ascii_lower busy_note [] ->
    before (List.map fst tag_keywords) tag' (u "想法").
Proof.
  assert (Hno : u "想法" ∉ _auto_suggest_tags ascii_lower busy_note []).
  { apply (bool_decide_unpack _). vm_compute. exact I. }
  split; [exact Hno|].
  destruct (auto_suggest_tags_first_three ascii_lower busy_note [])
    as (_ & _ & _ & _ & H).
  apply H; [|exact Hno].
  exists [u "想法"; u "思考"; u "观点"; u "感悟"; u "心得"; u "反思"], (u "思考").
  split; [apply (bool_decide_unpack _); vm_compute; exact I|].
  split; [apply (bool_decide_unpack _); vm_compute; exact I|].
  apply str_in_occurs. vm_compute. reflexivity.
Defined.

(** ** [_generate_title] *)

Lemma lstrip_nil s : lstrip s = [] <-> forallb isspace s = true.
Proof.
  induction s as [|c s IH]; simpl; [done|].
  destruct (isspace c); simpl; [done|]. split; discriminate.
Qed.

Lemma strip_nil s : strip s = [] <-> forallb isspace s = true.
Proof.
  unfold strip, rstrip. rewrite <- lstrip_nil. split.
  - intros H. apply (f_equal (@rev N)) in H. rewrite rev_involutive in H.
    simpl in H. apply lstrip_nil in H.
    pose proof (lstrip_idem s) as Hi. apply lstrip_fixed in Hi.
    destruct (lstrip s) as [|c r]; [done|].
    rewrite forallb_forall in H. rewrite (H c) in Hi; [done|].
    apply in_rev. rewrite rev_involutive. by left.
  - by intros ->.
Qed.

Lemma strip_full s : length s <= length (strip s) -> strip s = s.
Proof.
  unfold strip. destruct (lstrip_suffix s) as [w Hw].
  destruct (rstrip_prefix (lstrip s)) as [w' Hw'].
  intros H. rewrite Hw in H at 1. rewrite Hw' in H at 1.
  rewrite !length_app in H.
  destruct w; [|simpl in H; lia]. destruct w'; [|simpl in H; lia].
  rewrite app_nil_r in Hw'. simpl in Hw. by rewrite <- Hw', <- Hw.
Qed.

Lemma strip_idem s : strip (strip s) = strip s.
Proof.
  destruct (strip_trimmed s) as [H1 H2]. unfold strip at 1. by rewrite H1, H2.
Qed.

Lemma title_loop_cases ds content title :
  (forall d, d ∈ ds -> d <> []) ->
  title_loop ds content title = title \/
  exists p, 10 < p < length title /\
            title_loop ds content title = take (p + 1) content.
Proof.
  induction ds as [|d ds IH]; intros Hne; simpl; [by left|].
  destruct (10 <? str_find title d)%Z eqn:E.
  - right. apply Z.ltb_lt in E.
    destruct (str_find_spec title d) as [[H _]|(p & H & Hp)]; [lia|].
    exists p. rewrite H in *. apply first_occurrence_lt in Hp.
    assert (d <> []) by (apply Hne; by left).
    destruct d; [done|]. simpl in Hp.
    split; [lia|]. f_equal. lia.
  - apply IH. intros d' Hd'. apply Hne. by right.
Qed.

Lemma delimiters_nonempty d : d ∈ delimiters -> d <> [].
Proof.
  assert (H : Forall (fun d => d <> []) delimiters)
    by (repeat constructor; discriminate).
  rewrite Forall_forall in H. apply H.
Qed.

(** X6. A generated title has at most 53 characters (50 and the ellipsis),
    and it is blank only for the empty content: whatever non-empty content
    is stored without a title gets a title that is not empty after
    trimming. *)
Theorem generated_title_bounded content :
  length (_generate_title content) <= 53 /\
  (strip (_generate_title content) = [] <-> content = []).
Proof.
  unfold _generate_title. cbv zeta.
  set (T := strip (take 50 content)).
  assert (HT : length T <= 50 /\ length T <= length content).
  { pose proof (strip_length (take 50 content)) as H.
    rewrite length_take in H. fold T in H. lia. }
  assert (He : length ellipsis = 3) by reflexivity.
  destruct (title_loop_cases delimiters content T delimiters_nonempty)
    as [->|(p & Hp & ->)].
  - split.
    + destruct (_ <? _); [rewrite length_app|]; lia.
    + destruct (length T <? length content) eqn:E.
      * apply Nat.ltb_lt in E. rewrite strip_nil, forallb_app. split.
        -- intros [_ H]%andb_true_iff. by vm_compute in H.
        -- intros ->. simpl in E. lia.
      * apply Nat.ltb_ge in E. unfold T at 1. rewrite strip_idem. fold T. split.
        -- intros H. rewrite H in E. destruct content; [done|simpl in E; lia].
        -- intros ->. reflexivity.
  - split.
    + destruct (_ <? _); [rewrite length_app|]; rewrite length_take; lia.
    + destruct (_ <? _) eqn:E.
      * apply Nat.ltb_lt in E. rewrite strip_nil, forallb_app. split.
        -- intros [_ H]%andb_true_iff. by vm_compute in H.
        -- intros ->. simpl in E. lia.
      * apply Nat.ltb_ge in E. rewrite length_take in E.
        assert (HTc : length T = length content) by lia.
        assert (Hc : take 50 content = content) by (apply take_ge; lia).
        rewrite take_ge by lia. split.
        -- intros H. unfold T in HTc. rewrite Hc, H in HTc.
           destruct content; [done|discriminate].
        -- intros ->. reflexivity.
Qed.

(** * Tag search and recent records *)

Lemma str_ltb_asym x y : str_ltb x y = true -> str_ltb y x = false.
Proof.
  revert y. induction x as [|c x IH]; intros [|d y]; simpl; try done.
  destruct (N.ltb_spec c d), (N.eqb_spec c d), (N.ltb_spec d c), (N.eqb_spec d c);
    simpl; try lia; try done.
  apply IH.
Qed.

Lemma str_ltb_negtrans x y z :
  str_ltb x y = false -> str_ltb y z = false -> str_ltb x z = false.
Proof.
  revert y z. induction x as [|c x IH]; intros [|d y] [|e z]; simpl; try done.
  destruct (N.ltb_spec c d), (N.eqb_spec c d), (N.ltb_spec d e), (N.eqb_spec d e),
    (N.ltb_spec c e), (N.eqb_spec c e); simpl; try lia; try done.
  apply IH.
Qed.

Lemma str_ltb_irrefl x : str_ltb x x = false.
Proof.
  destruct (str_ltb x x) eqn:E; [|done]. by rewrite (str_ltb_asym _ _ E) in E.
Qed.

Lemma length_filter_le {A} (P : A -> bool) l :
  length (List.filter P l) <= length l.
Proof. induction l as [|a l IH]; simpl; [done|]. destruct (P a); simpl; lia. Qed.

Lemma upto_all {A} (l : list A) n : (Z.of_nat (length l) <= n)%Z -> upto l n = l.
Proof.
  intros H. unfold upto. destruct (0 <=? n)%Z eqn:E; [|apply Z.leb_gt in E; lia].
  apply take_ge. lia.
Qed.

Lemma has_tag_spec lower tags r :
  existsb
    (fun tag => bool_decide (lower tag ∈ List.map lower (default [] (rec_tags r))))
    tags = true <-> has_tag lower tags r.
Proof.
  rewrite existsb_exists. unfold has_tag. split.
  - intros (tag & Hin & H). apply bool_decide_eq_true in H.
    apply list_elem_of_In, in_map_iff in H as (t & Ht & Hin').
    exists tag, t. by rewrite !list_elem_of_In.
  - intros (tag & t & Hin & Hin' & E). exists tag.
    rewrite list_elem_of_In in Hin. split; [done|].
    apply bool_decide_eq_true, list_elem_of_In, in_map_iff. exists t.
    by rewrite list_elem_of_In in Hin'.
Qed.

(** X7. On a readable log [search_by_tags] returns records of the log that
    have one of the given tags, compared without regard to case; no record
    comes before one with a later timestamp, records with the same
    timestamp keep the order of the log, and a limit that is not negative
    bounds their number.  With a limit of at least the number of records,
    every record with one of the tags is returned. *)
Theorem search_by_tags_newest_first lower fs tags limit records :
  get_all_records fs = Ok records ->
  exists found,
    search_by_tags lower fs tags limit = Ok found /\
    (forall r, r ∈ found -> r ∈ records /\ has_tag lower tags r) /\
    (forall r1 r2, before found r1 r2 ->
       str_ltb (timestamp_of r1) (timestamp_of r2) = false /\
       (timestamp_of r1 = timestamp_of r2 -> before records r1 r2)) /\
    length found <= length records /\
    ((0 <= limit)%Z -> length found <= Z.to_nat limit) /\
    ((Z.of_nat (length records) <= limit)%Z ->
       forall r, r ∈ records -> has_tag lower tags r -> r ∈ found).
Proof.
  intros Hread. unfold search_by_tags. rewrite Hread. cbn [mbind result_bind].
  eexists. split; [reflexivity|].
  set (matching := List.filter _ records).
  assert (Hm : forall r, r ∈ matching <-> r ∈ records /\ has_tag lower tags r).
  { intros r. unfold matching.
    by rewrite list_elem_of_In, filter_In, has_tag_spec, <- list_elem_of_In. }
  assert (Hlen : length matching <= length records) by apply length_filter_le.
  split; [|split; [|split; [|split]]].
  - intros r Hr. apply Hm. eapply elem_of_sort_desc. eapply elem_of_upto, Hr.
  - intros r1 r2 Hb. apply before_upto in Hb. split.
    + exact (sort_desc_sorted str_ltb _ _ _ _ str_ltb_negtrans str_ltb_asym Hb).
    + intros E. apply before_sort_desc in Hb as [Hb|Hb].
      * by apply before_filter_inv in Hb.
      * unfold timestamp_of in E. rewrite E, str_ltb_irrefl in Hb. done.
  - rewrite upto_length, sort_desc_length. destruct (0 <=? limit)%Z; lia.
  - intros Hl. rewrite upto_length, sort_desc_length.
    apply Z.leb_le in Hl. rewrite Hl. lia.
  - intros Hl r Hr Ht. rewrite upto_all.
    + apply elem_of_sort_desc, Hm. done.
    + rewrite sort_desc_length. lia.
Qed.

Lemma search_by_tags_newest_first_witness :
  get_all_records two_notes = Ok [note_a; note_b] /\
  exists found,
    search_by_tags ascii_lower two_notes [u "技术"] 20 = Ok found /\
    (forall r, r ∈ found -> r ∈ [note_a; note_b] /\ has_tag ascii_lower [u "技术"] r) /\
    length found <= 2.
Proof.
  assert (H : get_all_records two_notes = Ok [note_a; note_b])
    by (vm_compute; reflexivity).
  split; [exact H|].
  destruct (search_by_tags_newest_first ascii_lower two_notes [u "技术"] 20 _ H)
    as (found & H1 & H2 & _ & H3 & _).
  exists found. split; [exact H1|]. split; [exact H2|exact H3].
Defined.

(** ** [search_recent] *)

Lemma map_result_Raise {A B} (f : A -> result B) l e :
  map_result f l = Raise e -> exists x, x ∈ l /\ f x = Raise e.
Proof.
  induction l as [|x l IH]; simpl; [done|].
  destruct (f x) as [y|e'] eqn:E; simpl.
  - destruct (map_result f l) as [ys|e'] eqn:E'; simpl; [done|].
    intros [= ->]. destruct IH as (x' & H1 & H2); [done|].
    exists x'. split; [by right|done].
  - intros [= ->]. exists x. split; [by left|done].
Qed.

Lemma format_recent_Ok r h :
  format_recent r = Ok h ->
  exists content,
    rec_content r = Some content /\ rec_id r = Some (hit_id h) /\
    rec_title r = Some (hit_title h) /\
    rec_timestamp r = Some (hit_timestamp h) /\
    hit_tags h = default [] (rec_tags r) /\ hit_score h = None /\
    hit_snippet h =
      (if 150 <? length content then take 150 content ++ ellipsis else content).
Proof.
  unfold format_recent.
  destruct (rec_content r) as [content|], (rec_id r), (rec_title r),
    (rec_timestamp r); simpl; try discriminate.
  intros [= <-]. exists content. simpl. repeat split.
  destruct (150 <? length content) eqn:E; [done|].
  apply Nat.ltb_ge in E. by rewrite take_ge.
Qed.

Lemma format_recent_Raise r e :
  format_recent r = Raise e -> (exists key, e = KeyError key) /\ ~ complete r.
Proof.
  unfold format_recent, complete.
  destruct (rec_content r) as [content|] eqn:E1; simpl.
  - destruct (rec_id r) eqn:E2; simpl.
    + destruct (rec_title r) eqn:E3; simpl.
      * destruct (rec_timestamp r) eqn:E4; simpl; [done|].
        intros [= <-]. split; [by eexists|]. by intros (_ & [? [=]] & _).
      * intros [= <-]. split; [by eexists|]. by intros (_ & _ & [? [=]] & _).
    + intros [= <-]. split; [by eexists|]. by intros ([? [=]] & _).
  - intros [= <-]. split; [by eexists|]. by intros (_ & _ & _ & [? [=]]).
Qed.

Lemma map_result_length {A B} (f : A -> result B) l ys :
  map_result f l = Ok ys -> length ys = length l.
Proof. intros H%map_result_Ok. symmetry. by eapply Forall2_length. Qed.

(** X8. On a readable log [search_recent] either returns one entry for each
    of the first [limit] records in the order newest first, or fails with a
    [KeyError] because a record of the log lacks one of the keys [id],
    [timestamp], [title], [content]; it returns when all records have
    them.  An entry carries no score and the id, title, timestamp and tags of
    its record; its snippet is the whole content up to 150 characters, and
    the first 150 with the ellipsis for a longer one; no entry comes before
    one with a later timestamp. *)
Theorem search_recent_newest_first fs limit records :
  get_all_records fs = Ok records ->
  (Forall complete records -> exists hits, search_recent fs limit = Ok hits) /\
  (forall e, search_recent fs limit = Raise e ->
     (exists key, e = KeyError key) /\ exists r, r ∈ records /\ ~ complete r) /\
  (forall hits, search_recent fs limit = Ok hits ->
     length hits = length (upto records limit) /\
     (forall h, h ∈ hits ->
        hit_score h = None /\ length (hit_snippet h) <= 153 /\
        exists r content,
          r ∈ records /\ rec_id r = Some (hit_id h) /\
          rec_title r = Some (hit_title h) /\
          rec_timestamp r = Some (hit_timestamp h) /\
          hit_tags h = default [] (rec_tags r) /\
          rec_content r = Some content /\
          hit_snippet h =
            (if 150 <? length content then take 150 content ++ ellipsis
             else content)) /\
     (forall h1 h2, before hits h1 h2 ->
        str_ltb (hit_timestamp h1) (hit_timestamp h2) = false)).
Proof.
  intros Hread. unfold search_recent. rewrite Hread. cbn [mbind result_bind].
  set (sorted := sort_desc str_ltb _ records).
  assert (Hin : forall r, r ∈ upto sorted limit -> r ∈ records).
  { intros r Hr. eapply elem_of_sort_desc. eapply elem_of_upto, Hr. }
  split; [|split].
  - intros Hc. rewrite Forall_forall in Hc.
    destruct (map_result format_recent (upto sorted limit)) as [hits|e] eqn:E;
      [by eexists|].
    apply map_result_Raise in E as (r & Hr & E).
    apply format_recent_Raise in E as [_ E]. destruct E. apply Hc, Hin, Hr.
  - intros e E. apply map_result_Raise in E as (r & Hr & E).
    apply format_recent_Raise in E as [E1 E2]. split; [done|].
    exists r. split; [by apply Hin|done].
  - intros hits E. split; [|split].
    + rewrite (map_result_length _ _ _ E), !upto_length.
      unfold sorted. by rewrite sort_desc_length.
    + intros h Hh. apply map_result_Ok in E.
      apply list_elem_of_lookup in Hh as [i Hi].
      destruct (Forall2_lookup_r _ _ _ _ _ E Hi) as (r & Hr & Hf).
      apply format_recent_Ok in Hf
        as (content & H1 & H2 & H3 & H4 & H5 & H6 & H7).
      split; [done|]. split.
      * rewrite H7. destruct (150 <? length content) eqn:El.
        -- rewrite length_app, length_take.
           change (length ellipsis) with 3. lia.
        -- apply Nat.ltb_ge in El. lia.
      * exists r, content. split; [|done].
        apply Hin. apply list_elem_of_lookup. by exists i.
    + intros h1 h2 Hb. apply map_result_Ok in E.
      destruct (before_Forall2 _ _ _ _ _ E Hb) as (r1 & r2 & Hx & Hf1 & Hf2).
      apply before_upto in Hx.
      pose proof (sort_desc_sorted str_ltb _ _ _ _ str_ltb_negtrans
                    str_ltb_asym Hx) as Hle.
      apply format_recent_Ok in Hf1 as (? & _ & _ & _ & H1 & _).
      apply format_recent_Ok in Hf2 as (? & _ & _ & _ & H2 & _).
      simpl in Hle. by rewrite H1, H2 in Hle.
Qed.

Lemma search_recent_newest_first_witness :
  get_all_records two_notes = Ok [note_a; note_b] /\
  Forall complete [note_a; note_b] /\
  exists hits,
    search_recent two_notes 1 = Ok hits /\
    length hits = length (upto [note_a; note_b] 1).
Proof.
  assert (H : get_all_records two_notes = Ok [note_a; note_b])
    by (vm_compute; reflexivity).
  assert (Hc : Forall complete [note_a; note_b]).
  { repeat constructor; by eexists. }
  split; [exact H|]. split; [exact Hc|].
  destruct (search_recent_newest_first two_notes 1 _ H) as (H1 & _ & H2).
  destruct (H1 Hc) as [hits Hh]. exists hits. split; [exact Hh|].
  exact (proj1 (H2 hits Hh)).
Defined.

(** * Statistics *)

Lemma occurrences_snoc t l x :
  occurrences t (l ++ [x]) = occurrences t l + (if decide (x = t) then 1 else 0).
Proof.
  unfold occurrences. rewrite List.filter_app, length_app. simpl.
  destruct (decide (x = t)) as [->|H].
  - by rewrite bool_decide_eq_true_2.
  - by rewrite bool_decide_eq_false_2.
Qed.

Lemma occurrences_pos t l : 0 < occurrences t l <-> t ∈ l.
Proof.
  unfold occurrences. induction l as [|x l IH]; simpl.
  - split; [lia|]. by intros ?%elem_of_nil.
  - rewrite elem_of_cons. destruct (decide (x = t)) as [->|H].
    + rewrite bool_decide_eq_true_2 by done. simpl. split; [by left|lia].
    + rewrite bool_decide_eq_false_2 by done. rewrite IH. split; [by right|].
      by intros [->|?].
Qed.

Lemma counter_add_other x c t n :
  t <> x -> (t, n) ∈ counter_add x c <-> (t, n) ∈ c.
Proof.
  intros Hne. induction c as [|[y k] c IH]; simpl.
  - rewrite list_elem_of_singleton. split; [by intros [= -> _]|].
    by intros ?%elem_of_nil.
  - destruct (decide (y = x)) as [->|H]; rewrite !elem_of_cons.
    + split; (intros [[= -> _]|?]; [done|by right]).
    + by rewrite IH.
Qed.

Lemma elem_of_keys (c : list (str * nat)) t n : (t, n) ∈ c -> t ∈ List.map fst c.
Proof.
  intros H. apply list_elem_of_In, in_map_iff. exists (t, n).
  by rewrite <- list_elem_of_In.
Qed.

Lemma counter_add_same x c n :
  NoDup (List.map fst c) ->
  (x, n) ∈ counter_add x c <->
  (n = 1 /\ x ∉ List.map fst c) \/ (exists m, n = S m /\ (x, m) ∈ c).
Proof.
  induction c as [|[y k] c IH]; simpl; intros Hnd.
  - rewrite list_elem_of_singleton. split.
    + intros [= ->]. left. split; [done|]. by intros ?%elem_of_nil.
    + intros [[-> _]|(m & _ & ?%elem_of_nil)]; done.
  - apply NoDup_cons in Hnd as [Hy Hnd]. specialize (IH Hnd).
    destruct (decide (y = x)) as [->|H]; rewrite !elem_of_cons.
    + split.
      * intros [E|H%elem_of_keys]; [|done]. simplify_eq. right. exists k.
        split; [done|]. by left.
      * intros [[_ H]|(m & -> & Hm)].
        -- destruct H. by left.
        -- apply elem_of_cons in Hm as [E|H%elem_of_keys]; [|done].
           simplify_eq. by left.
    + rewrite IH. split.
      * intros [E|[[-> Hx]|(m & -> & Hm)]]; [by simplify_eq| |].
        -- left. split; [done|]. by intros [->|?].
        -- right. exists m. split; [done|]. by right.
      * intros [[-> Hx]|(m & -> & Hm)].
        -- right. left. split; [done|]. intros ?. apply Hx. by right.
        -- apply elem_of_cons in Hm as [E|Hm]; [by simplify_eq|].
           right. right. by exists m.
Qed.

Lemma counter_add_keys x c :
  List.map fst (counter_add x c) =
  if decide (x ∈ List.map fst c) then List.map fst c else List.map fst c ++ [x].
Proof.
  induction c as [|[y k] c IH].
  - case_decide as H; [by apply elem_of_nil in H|done].
  - cbn [counter_add]. destruct (decide (y = x)) as [->|H]; cbn [List.map fst].
    + clear IH. case_decide as H; [done|]. destruct H. by left.
    + rewrite IH. destruct (decide (x ∈ List.map fst c)) as [Hx|Hx];
        destruct (decide (x ∈ y :: List.map fst c)) as [Hx'|Hx']; try done.
      * destruct Hx'. by right.
      * apply elem_of_cons in Hx' as [->|?]; done.
Qed.

(** What [Counter] holds: one entry for each element of the list, with the
    number of times it occurs. *)
Lemma Counter_spec l :
  NoDup (List.map fst (Counter l)) /\
  forall t n, (t, n) ∈ Counter l <-> n = occurrences t l /\ 0 < n.
Proof.
  unfold Counter. induction l as [|x l IH] using rev_ind.
  - simpl. split; [constructor|]. intros t n. split; [by intros ?%elem_of_nil|].
    unfold occurrences. simpl. lia.
  - rewrite foldl_app. simpl. destruct IH as [Hnd IH].
    set (c := foldl _ [] l) in *. split.
    + rewrite counter_add_keys. case_decide as Hx; [done|].
      apply NoDup_app. split; [done|]. split; [|apply NoDup_singleton].
      by intros y Hy ->%list_elem_of_singleton.
    + intros t n. rewrite occurrences_snoc.
      destruct (decide (x = t)) as [<-|Hne].
      * rewrite counter_add_same by done. split.
        -- intros [[-> Hx]|(m & -> & Hm)].
           ++ destruct (occurrences x l) as [|k] eqn:E; [lia|].
              destruct Hx. apply (elem_of_keys _ _ (S k)), IH. lia.
           ++ apply IH in Hm. lia.
        -- intros [-> _]. destruct (occurrences x l) as [|k] eqn:E.
           ++ left. split; [done|]. intros Hx.
              apply list_elem_of_In, in_map_iff in Hx as ([t m] & Et & Hm).
              simpl in Et. subst t. apply list_elem_of_In, IH in Hm. lia.
           ++ right. exists (S k). split; [lia|]. apply IH. lia.
      * rewrite counter_add_other by done. rewrite IH. lia.
Qed.

Lemma Counter_keys l t : t ∈ List.map fst (Counter l) <-> t ∈ l.
Proof.
  destruct (Counter_spec l) as [_ H]. split.
  - intros ([t' n] & Et & Hn)%list_elem_of_In%in_map_iff. simpl in Et. subst t'.
    apply list_elem_of_In, H in Hn. apply occurrences_pos. lia.
  - intros Hp%occurrences_pos.
    apply (elem_of_keys _ _ (occurrences t l)), H. done.
Qed.

Section SortPermutation.
Context {A K : Type} (ltb : K -> K -> bool) (key : A -> K).

Lemma insert_desc_Permutation a l : insert_desc ltb key a l ≡ₚ a :: l.
Proof.
  induction l as [|y l IH]; simpl; [done|].
  destruct (ltb (key a) (key y)); [|done]. rewrite IH. apply Permutation_swap.
Qed.

Lemma sort_desc_Permutation l : sort_desc ltb key l ≡ₚ l.
Proof.
  induction l as [|a l IH]; simpl; [done|].
  rewrite insert_desc_Permutation. by rewrite IH.
Qed.
End SortPermutation.

Lemma before_take_drop {A} (l : list A) n x y :
  x ∈ take n l -> y ∈ drop n l -> before l x y.
Proof.
  intros (a & b & Ha)%list_elem_of_split (c & d & Hd)%list_elem_of_split.
  exists a, (b ++ c), d. rewrite <- (take_drop n l), Ha, Hd.
  by rewrite <- !app_assoc.
Qed.

Lemma ltb_negtrans k1 k2 k3 :
  Nat.ltb k1 k2 = false -> Nat.ltb k2 k3 = false -> Nat.ltb k1 k3 = false.
Proof. rewrite !Nat.ltb_ge. lia. Qed.

Lemma ltb_asym k1 k2 : Nat.ltb k1 k2 = true -> Nat.ltb k2 k1 = false.
Proof. rewrite Nat.ltb_lt, Nat.ltb_ge. lia. Qed.

(** X9. On a readable log [get_stats] returns the number of records, the
    number of distinct tags, and as top tags the ten tags that occur most
    often (all of them when there are fewer), each once with the number of
    times it occurs in the tag lists of the records, by falling count: a tag
    that is left out occurs no more often than any tag that is listed. *)
Theorem get_stats_counts data_file fs records :
  get_all_records fs = Ok records ->
  exists st,
    get_stats data_file fs = Ok st /\
    data_location st = data_file /\
    total_records st = length records /\
    (forall l, NoDup l -> (forall t, t ∈ l <-> t ∈ all_tags_of records) ->
       total_tags st = length l) /\
    length (top_tags st) = Nat.min 10 (total_tags st) /\
    NoDup (List.map fst (top_tags st)) /\
    (forall t n, (t, n) ∈ top_tags st ->
       n = occurrences t (all_tags_of records) /\ 0 < n) /\
    (forall p1 p2, before (top_tags st) p1 p2 -> p2.2 <= p1.2) /\
    (forall t, t ∈ all_tags_of records -> t ∉ List.map fst (top_tags st) ->
       forall p, p ∈ top_tags st -> occurrences t (all_tags_of records) <= p.2).
Proof.
  intros Hread. unfold get_stats. rewrite Hread. cbn [mbind result_bind].
  eexists. split; [reflexivity|].
  cbn [data_location total_records total_tags top_tags].
  fold (all_tags_of records). set (tags := all_tags_of records).
  destruct (Counter_spec tags) as [Hnd Hc].
  set (sorted := sort_desc Nat.ltb snd (Counter tags)).
  assert (Hperm : sorted ≡ₚ Counter tags) by apply sort_desc_Permutation.
  assert (Hdistinct : forall l, NoDup l -> (forall t, t ∈ l <-> t ∈ tags) ->
            length (elements (list_to_set tags : gset str)) = length l).
  { intros l Hl Hin. apply Permutation_length, NoDup_Permutation.
    - apply NoDup_elements.
    - done.
    - intros t. by rewrite elem_of_elements, elem_of_list_to_set, Hin. }
  assert (Hsorted : forall p1 p2, before sorted p1 p2 -> p2.2 <= p1.2).
  { intros p1 p2 Hb.
    pose proof (sort_desc_sorted Nat.ltb snd _ _ _ ltb_negtrans ltb_asym Hb) as H.
    by apply Nat.ltb_ge in H. }
  split; [done|]. split; [done|]. split; [exact Hdistinct|].
  split; [|split; [|split; [|split]]].
  - rewrite length_take. rewrite (Hdistinct (List.map fst (Counter tags)) Hnd).
    + rewrite length_map, <- (Permutation_length Hperm). done.
    + apply Counter_keys.
  - rewrite <- firstn_map. apply (sublist_NoDup _ (List.map fst sorted)).
    + rewrite (Permutation_map fst Hperm). done.
    + apply sublist_take.
  - intros t n Hin. apply Hc. rewrite <- Hperm. by apply (subseteq_take 10).
  - intros p1 p2 Hb. by apply Hsorted, (before_take _ 10).
  - intros t Ht Hno p Hp.
    apply (Hsorted p (t, occurrences t tags)).
    apply (before_take_drop _ 10); [done|].
    assert (Hin : (t, occurrences t tags) ∈ sorted).
    { rewrite Hperm. apply Hc. split; [done|]. by apply occurrences_pos. }
    rewrite <- (take_drop 10 sorted) in Hin.
    apply elem_of_app in Hin as [Hin|Hin]; [|done].
    destruct Hno. eapply elem_of_keys, Hin.
Qed.

Lemma get_stats_counts_witness :
  get_all_records two_notes = Ok [note_a; note_b] /\
  exists st,
    get_stats (u "knowledge.jsonl") two_notes = Ok st /\
    total_records st = 2 /\
    forall t n, (t, n) ∈ top_tags st ->
      n = occurrences t (all_tags_of [note_a; note_b]) /\ 0 < n.
Proof.
  assert (H : get_all_records two_notes = Ok [note_a; note_b])
    by (vm_compute; reflexivity).
  split; [exact H|].
  destruct (get_stats_counts (u "knowledge.jsonl") two_notes _ H)
    as (st & H1 & _ & H2 & _ & _ & _ & H3 & _).
  exists st. split; [exact H1|]. split; [exact H2|exact H3].
Defined.

(** * A log that cannot be decoded, and the shape of search results *)

Local Arguments written : simpl never.

Lemma exec_unreadable lower data_file fs c :
  NotUtf8 ∈ lines fs ->
  is_store c = false -> reply_raises (exec lower data_file fs c).1 UnicodeDecodeError.
Proof.
  intros H Hc.
  assert (E : get_all_records fs = Raise UnicodeDecodeError).
  { destruct fs as [ls|]; simpl in *; [by apply read_lines_unreadable|].
    by apply elem_of_nil in H. }
  destruct c; try discriminate; simpl;
    unfold get_by_id, search_by_tags, get_stats, search, search_recent;
    by rewrite E.
Qed.

(** X10. A line that is not UTF-8 is never repaired: in a run that starts
    from a log with such a line, every call other than [store] fails with
    [UnicodeDecodeError], whatever was stored before or after, while each
    [store] whose write goes through still adds its line. *)
Theorem unreadable_log_fails_every_read lower data_file fs cs rs fs' :
  NotUtf8 ∈ lines fs ->
  run lower data_file fs cs = (rs, fs') ->
  NotUtf8 ∈ lines fs' /\
  length (lines fs') = length (lines fs) + length (List.filter stored_ok rs) /\
  Forall2 (fun c r => is_store c = false -> reply_raises r UnicodeDecodeError)
    cs rs.
Proof.
  revert fs rs fs'. induction cs as [|c cs IH]; intros fs rs fs' H; simpl.
  - intros [= <- <-]. simpl. split; [done|]. split; [lia|constructor].
  - pose proof (exec_lines lower data_file fs c) as Hl.
    pose proof (exec_unreadable lower data_file fs c H) as Hr.
    destruct (exec lower data_file fs c) as [r fs1] eqn:E. simpl in Hl, Hr.
    destruct (run lower data_file fs1 cs) as [rs1 fs2] eqn:E'.
    intros [= <- <-].
    assert (H1 : NotUtf8 ∈ lines fs1) by (rewrite Hl; apply elem_of_app; by left).
    destruct (IH fs1 rs1 fs2 H1 E') as (IH1 & IH2 & IH3).
    split; [done|]. split; [|by constructor].
    assert (Hw : length (match written lower (c, r) with
                         | Some r0 => [Json r0] | None => [] end) =
                 if stored_ok r then 1 else 0).
    { destruct c; simpl in E; try (injection E as <- <-; done).
      destruct (store lower e fs content title tags auto_tag) as [x f].
      injection E as <- <-. by destruct x. }
    rewrite IH2, Hl, length_app, Hw. cbn [List.filter].
    destruct (stored_ok r); simpl; lia.
Qed.

Lemma unreadable_log_fails_every_read_witness :
  NotUtf8 ∈ lines damaged_log /\
  exists rs fs',
    run ascii_lower (u "knowledge.jsonl") damaged_log calls_on_damaged_log
      = (rs, fs') /\
    NotUtf8 ∈ lines fs' /\
    Forall2 (fun c r => is_store c = false -> reply_raises r UnicodeDecodeError)
      calls_on_damaged_log rs.
Proof.
  assert (H : NotUtf8 ∈ lines damaged_log).
  { apply (bool_decide_unpack _). vm_compute. exact I. }
  split; [exact H|].
  destruct (run ascii_lower (u "knowledge.jsonl") damaged_log calls_on_damaged_log)
    as [rs fs'] eqn:E.
  exists rs, fs'. split; [reflexivity|].
  destruct (unreadable_log_fails_every_read _ _ _ _ _ _ H E) as (H1 & _ & H2).
  split; [exact H1|exact H2].
Defined.

(** ** [search] *)

Lemma passes_filter_spec lower tag_filter l r :
  r ∈ tag_filtered lower tag_filter l <-> r ∈ l /\ passes_filter lower tag_filter r.
Proof.
  unfold tag_filtered, passes_filter. destruct tag_filter as [|c s]; simpl.
  - split; [by intros H; split; [|left]|by intros [H _]].
  - set (tf := c :: s).
    rewrite list_elem_of_In, filter_In, existsb_exists, <- list_elem_of_In.
    split; intros [Hr H]; (split; [done|]).
    + right. destruct H as (ftag & Hf & Hin).
      apply in_map_iff in Hf as (piece & <- & Hp).
      apply bool_decide_eq_true in Hin.
      apply list_elem_of_In, in_map_iff in Hin as (t & Ht & Hin).
      exists piece, t. by rewrite !list_elem_of_In.
    + destruct H as [H|(piece & t & Hp & Ht & E)]; [done|].
      exists (lower (strip piece)). split.
      * apply in_map_iff. exists piece. by rewrite <- list_elem_of_In.
      * apply bool_decide_eq_true. rewrite E.
        apply list_elem_of_In, in_map_iff. exists t.
        by rewrite <- list_elem_of_In.
Qed.

Lemma format_result_Ok lower q x h :
  format_result lower q x = Ok h ->
  exists content,
    rec_content x.2 = Some content /\ rec_id x.2 = Some (hit_id h) /\
    rec_title x.2 = Some (hit_title h) /\
    rec_timestamp x.2 = Some (hit_timestamp h) /\
    hit_tags h = default [] (rec_tags x.2) /\ hit_score h = Some x.1 /\
    hit_snippet h = _generate_snippet lower content q 150.
Proof.
  destruct x as [c r]. unfold format_result. cbn [fst snd].
  destruct (rec_content r) as [content|], (rec_id r), (rec_title r),
    (rec_timestamp r); simpl; try discriminate.
  intros [= <-]. exists content. simpl. repeat split.
Qed.

Lemma format_result_Raise lower q x e :
  format_result lower q x = Raise e ->
  (exists key, e = KeyError key) /\ ~ complete x.2.
Proof.
  destruct x as [c r]. unfold format_result, complete. simpl.
  destruct (rec_content r) as [content|] eqn:E1; simpl.
  - destruct (rec_id r) eqn:E2; simpl.
    + destruct (rec_title r) eqn:E3; simpl.
      * destruct (rec_timestamp r) eqn:E4; simpl; [done|].
        intros [= <-]. split; [by eexists|]. by intros (_ & [? [=]] & _).
      * intros [= <-]. split; [by eexists|]. by intros (_ & _ & [? [=]] & _).
    + intros [= <-]. split; [by eexists|]. by intros ([? [=]] & _).
  - intros [= <-]. split; [by eexists|]. by intros (_ & _ & _ & [? [=]]).
Qed.

Lemma scored_spec lower q l x :
  x ∈ scored lower q l <->
  x.2 ∈ l /\ x.1 = _calculate_score lower x.2 q /\ (0 < x.1)%Q.
Proof.
  unfold scored. rewrite list_elem_of_In, filter_In, in_map_iff, Qltb_spec.
  split.
  - intros [(r & <- & Hin) H]. by rewrite list_elem_of_In.
  - intros (Hin & E & H). split; [|done]. exists x.2.
    rewrite <- list_elem_of_In. split; [|done]. destruct x; simpl in *. by subst.
Qed.

(** X11. On a readable log [search] either returns a response or fails
    with a [KeyError] because a record of the log lacks one of the keys
    [id], [timestamp], [title], [content]; it returns when all records have
    them.  The response repeats the query as given; [total] is at most the
    number of records and counts the results before the cut to [limit];
    each result is a record of the log that passes the tag filter, with its
    score for the lower-cased query, which is positive, and its snippet for
    that query; and with a limit of at least the number of records, every
    record that passes the filter and has a positive score is among the
    results. *)
Theorem search_response_shape lower fs query limit tag_filter records :
  get_all_records fs = Ok records ->
  (Forall complete records ->
     exists resp, search lower fs query limit tag_filter = Ok resp) /\
  (forall e, search lower fs query limit tag_filter = Raise e ->
     (exists key, e = KeyError key) /\ exists r, r ∈ records /\ ~ complete r) /\
  (forall resp, search lower fs query limit tag_filter = Ok resp ->
     resp_query resp = query /\
     resp_total resp <= length records /\
     length (resp_results resp) =
       (if (0 <=? limit)%Z then Nat.min (Z.to_nat limit) (resp_total resp)
        else resp_total resp - Z.to_nat (- limit)) /\
     (forall h, h ∈ resp_results resp ->
        exists r content,
          r ∈ records /\ passes_filter lower tag_filter r /\
          hit_score h = Some (_calculate_score lower r (lower query)) /\
          (0 < _calculate_score lower r (lower query))%Q /\
          rec_id r = Some (hit_id h) /\ rec_title r = Some (hit_title h) /\
          rec_timestamp r = Some (hit_timestamp h) /\
          hit_tags h = default [] (rec_tags r) /\
          rec_content r = Some content /\
          hit_snippet h = _generate_snippet lower content (lower query) 150) /\
     ((Z.of_nat (length records) <= limit)%Z ->
      forall r, r ∈ records -> passes_filter lower tag_filter r ->
        (0 < _calculate_score lower r (lower query))%Q ->
        exists h, h ∈ resp_results resp /\ rec_id r = Some (hit_id h) /\
                  hit_score h = Some (_calculate_score lower r (lower query)))).
Proof.
  intros Hread. unfold search. rewrite Hread. cbn [mbind result_bind].
  set (q := lower query).
  set (sorted := sort_desc Qltb fst (scored lower q _)).
  assert (Hs : forall x, x ∈ sorted <->
            x.2 ∈ records /\ passes_filter lower tag_filter x.2 /\
            x.1 = _calculate_score lower x.2 q /\ (0 < x.1)%Q).
  { intros x. unfold sorted.
    rewrite elem_of_sort_desc, scored_spec, passes_filter_spec. tauto. }
  assert (Hlen : length sorted <= length records).
  { unfold sorted, scored, tag_filtered. rewrite sort_desc_length.
    etransitivity; [apply length_filter_le|]. rewrite length_map.
    destruct (is_empty tag_filter); [done|apply length_filter_le]. }
  split; [|split].
  - intros Hc. rewrite Forall_forall in Hc.
    destruct (map_result (format_result lower q) (upto sorted limit))
      as [hits|e] eqn:E; [by eexists|].
    apply map_result_Raise in E as (x & Hx & E).
    apply format_result_Raise in E as [_ E]. destruct E.
    apply Hc. by apply elem_of_upto, Hs in Hx as [Hx _].
  - intros e E.
    destruct (map_result (format_result lower q) (upto sorted limit))
      as [hits|e'] eqn:E'; [done|]. simpl in E. injection E as ->.
    apply map_result_Raise in E' as (x & Hx & E).
    apply format_result_Raise in E as [E1 E2]. split; [done|].
    exists x.2. split; [|done]. by apply elem_of_upto, Hs in Hx as [Hx _].
  - intros resp E.
    destruct (map_result (format_result lower q) (upto sorted limit))
      as [hits|e'] eqn:E'; [|done]. simpl in E. injection E as <-.
    cbn [resp_query resp_total resp_results].
    split; [done|]. split; [done|]. split; [|split].
    + by rewrite (map_result_length _ _ _ E'), upto_length.
    + intros h Hh. apply map_result_Ok in E'.
      apply list_elem_of_lookup in Hh as [i Hi].
      destruct (Forall2_lookup_r _ _ _ _ _ E' Hi) as (x & Hx & Hf).
      apply format_result_Ok in Hf
        as (content & H1 & H2 & H3 & H4 & H5 & H6 & H7).
      assert (Hin : x ∈ upto sorted limit)
        by (apply list_elem_of_lookup; by exists i).
      apply elem_of_upto, Hs in Hin as (Hr & Hp & Hsc & Hpos).
      exists x.2, content. rewrite <- Hsc. done.
    + intros Hl r Hr Hp Hpos. apply map_result_Ok in E'.
      rewrite upto_all in E' by lia.
      assert (Hin : (_calculate_score lower r q, r) ∈ sorted) by by apply Hs.
      apply list_elem_of_lookup in Hin as [i Hi].
      destruct (Forall2_lookup_l _ _ _ _ _ E' Hi) as (h & Hh & Hf).
      apply format_result_Ok in Hf as (content & _ & H2 & _ & _ & _ & H6 & _).
      exists h. split; [|done]. apply list_elem_of_lookup. by exists i.
Qed.

Lemma search_response_shape_witness :
  get_all_records two_notes = Ok [note_a; note_b] /\
  Forall complete [note_a; note_b] /\
  exists resp,
    search ascii_lower two_notes (u "API") 1 (u "技术") = Ok resp /\
    resp_query resp = u "API" /\
    resp_total resp <= 2 /\
    length (resp_results resp) = Nat.min 1 (resp_total resp).
Proof.
  assert (H : get_all_records two_notes = Ok [note_a; note_b])
    by (vm_compute; reflexivity).
  assert (Hc : Forall complete [note_a; note_b]).
  { repeat constructor; by eexists. }
  split; [exact H|]. split; [exact Hc|].
  destruct (search_response_shape ascii_lower two_notes (u "API") 1 (u "技术") _ H)
    as (H1 & _ & H2).
  destruct (H1 Hc) as [resp Hr]. exists resp. split; [exact Hr|].
  destruct (H2 resp Hr) as (H3 & H4 & H5 & _).
  split; [exact H3|]. split; [exact H4|exact H5].
Defined.

(** * Bounds on scores and snippets *)

Lemma word_bonus_bounds title content tags w :
  (0 <= word_bonus title content tags w <= 30)%Q.
Proof.
  unfold word_bonus, bonus.
  destruct (2 <? length w), (str_in w title), (str_in w content), (str_in w tags);
    lra.
Qed.

Lemma Qsum_const (c : Q) {A} (l : list A) :
  (Qsum (List.map (fun _ => c) l) == c * inject_Z (Z.of_nat (length l)))%Q.
Proof.
  induction l as [|x l IH]; simpl length.
  - simpl. ring.
  - rewrite Nat2Z.inj_succ, <- Z.add_1_r, inject_Z_plus. simpl. rewrite IH.
    change (inject_Z 1) with 1%Q. ring.
Qed.

Lemma word_bonuses_bounds title content tags ws :
  (0 <= Qsum (List.map (word_bonus title content tags) ws)
   <= 30 * inject_Z (Z.of_nat (length ws)))%Q.
Proof.
  split.
  - pose proof (Qsum_le (fun _ => 0%Q) (word_bonus title content tags) ws) as H.
    rewrite Qsum_const in H. rewrite Qmult_0_l in H. apply H.
    intros w _. apply word_bonus_bounds.
  - pose proof (Qsum_le (word_bonus title content tags) (fun _ => 30%Q) ws) as H.
    rewrite Qsum_const in H. apply H. intros w _. apply word_bonus_bounds.
Qed.

(** X12. The score of a record is never negative and is at most 275 plus
    30 for each word of the query.  It is 100 or more when the query occurs
    in the lower-cased title, 50 or more when it occurs in the content, and
    75 or more when it occurs in the joined tags: such a record is never
    left out of the scored ones. *)
Theorem score_bounds lower r query :
  let title := lower (default [] (rec_title r)) in
  let content := lower (default [] (rec_content r)) in
  let tags := lower (str_join (u " ") (default [] (rec_tags r))) in
  let score := _calculate_score lower r query in
  (0 <= score)%Q /\
  (score <= 275 + 30 * inject_Z (Z.of_nat (length (str_split query))))%Q /\
  (str_in query title = true -> (100 <= score)%Q) /\
  (str_in query content = true -> (50 <= score)%Q) /\
  (str_in query tags = true -> (75 <= score)%Q).
Proof.
  cbv zeta. rewrite calculate_score_sum. unfold score_formula. cbv zeta.
  set (title := lower (default [] (rec_title r))).
  set (content := lower (default [] (rec_content r))).
  set (tags := lower (str_join (u " ") (default [] (rec_tags r)))).
  destruct (ratio_bounds query title) as [Ht0 Ht1].
  destruct (ratio_bounds query content) as [Hc0 Hc1].
  destruct (word_bonuses_bounds title content tags (str_split query)) as [Hw0 Hw1].
  set (ws := Qsum _) in *. set (n := inject_Z _) in *.
  set (rt := ratio query title) in *. set (rc := ratio query content) in *.
  unfold bonus.
  destruct (str_in query title), (str_in query content), (str_in query tags);
    repeat split; intros; try discriminate; lra.
Qed.

Lemma score_bounds_witness :
  str_in (u "api") (ascii_lower (default [] (rec_title note_a))) = true /\
  (100 <= _calculate_score ascii_lower note_a (u "api"))%Q.
Proof.
  assert (H : str_in (u "api") (ascii_lower (default [] (rec_title note_a))) = true)
    by (vm_compute; reflexivity).
  split; [exact H|].
  destruct (score_bounds ascii_lower note_a (u "api")) as (_ & _ & H1 & _).
  exact (H1 H).
Defined.

(** ** Snippets *)

(** X13. A snippet is a piece of the content of at most [max_length]
    characters, between ellipsis markers or without, trimmed: it has no
    surrounding whitespace and at most [max_length + 6] characters, and
    when there is no marker in front the piece is the beginning of the
    content. *)
Theorem snippet_is_piece_of_content lower content query max_length :
  let snippet := _generate_snippet lower content query max_length in
  trimmed snippet /\ length snippet <= max_length + 6 /\
  exists pre piece post e1 e2,
    content = pre ++ piece ++ post /\ (length piece <= max_length) /\
    snippet = strip (e1 ++ piece ++ e2) /\
    (e1 = [] /\ pre = [] \/ e1 = ellipsis) /\ (e2 = [] \/ e2 = ellipsis).
Proof.
  cbv zeta.
  assert (Hpiece : exists pre piece post e1 e2,
            (content = pre ++ piece ++ post) /\ (length piece <= max_length) /\
            (_generate_snippet lower content query max_length
               = strip (e1 ++ piece ++ e2)) /\
            (e1 = [] /\ pre = [] \/ e1 = ellipsis) /\ (e2 = [] \/ e2 = ellipsis)).
  { unfold _generate_snippet. cbv zeta.
    set (best_pos := if negb _ then _ else _).
    destruct (best_pos =? -1)%Z.
    - exists [], (take max_length content), (drop max_length content), [], [].
      rewrite app_nil_r, take_drop, length_take. simpl.
      split; [done|]. split; [lia|]. split; [done|]. split; by left.
    - set (start := Z.to_nat _). unfold slice.
      replace (start + max_length - start) with max_length by lia.
      exists (take start content), (take max_length (drop start content)),
        (drop max_length (drop start content)),
        (if 0 <? start then ellipsis else []),
        (if start + max_length <? length content then ellipsis else []).
      rewrite !take_drop, length_take. split; [done|]. split; [lia|].
      split; [|split].
      + destruct (0 <? start), (start + max_length <? length content);
          by rewrite ?app_nil_r, <- ?app_assoc.
      + destruct (0 <? start) eqn:E; [by right|left].
        apply Nat.ltb_ge in E. by replace start with 0 by lia.
      + destruct (_ <? length content); [by right|by left]. }
  destruct Hpiece as (pre & piece & post & e1 & e2 & H1 & H2 & H3 & H4 & H5).
  split; [rewrite H3; apply strip_trimmed|]. split.
  - rewrite H3. etransitivity; [apply strip_length|]. rewrite !length_app.
    assert (He : length ellipsis = 3) by reflexivity.
    destruct H4 as [[-> _]| ->], H5 as [-> | ->]; simpl length; lia.
  - by exists pre, piece, post, e1, e2.
Qed.

(** ** The similarity of a string to itself *)

Lemma ratio_identical s : length s < 200 -> (ratio s s == 1)%Q.
Proof.
  intros Hs. rewrite ratio_eq.
  destruct (Nat.eqb_spec (length s + length s) 0) as [E|E]; [reflexivity|].
  rewrite matches_ro by done. set (n := length s) in *.
  assert (Hro : ro_matches s s (S n) 0 n 0 n = n).
  { change (ro_matches s s (S n) 0 n 0 n)
      with (ro_matches s s (S (n - 0)) 0 n 0 n) || rewrite <- (Nat.sub_0_r n) at 1.
    fold (ro_range s s (0, n, 0, n)).
    rewrite ro_range_eq by (unfold n; lia).
    assert (Hl : longest_block s s 0 n 0 n = (0, 0, n)).
    { apply (is_longest_unique s s 0 n 0 n).
      - apply longest_block_is_longest; unfold n; lia.
      - split; [|split; [|split]].
        + repeat split; lia.
        + intros i' j' k' (? & ? & ? & ? & _). lia.
        + intros i' j' ? (? & ? & ? & ? & _). lia.
        + done. }
    rewrite Hl. destruct (Nat.eqb_spec n 0) as [?|_]; [lia|].
    rewrite !ro_range_empty; unfold n; lia. }
  rewrite Hro.
  assert (Hn : (0 < inject_Z (Z.of_nat n))%Q).
  { change 0%Q with (inject_Z 0). rewrite <- Zlt_Qlt. lia. }
  rewrite Nat2Z.inj_add, inject_Z_plus. field. lra.
Qed.

Lemma score_identical_title lower r query :
  length query < 200 ->
  lower (default [] (rec_title r)) = query ->
  (130 <= _calculate_score lower r query)%Q.
Proof.
  intros Hlen Ht. pose proof (ratio_identical query Hlen) as Hr.
  rewrite calculate_score_sum. unfold score_formula. cbv zeta. rewrite Ht.
  assert (Hin : str_in query query = true).
  { apply str_in_spec. exists [], []. by rewrite app_nil_r. }
  rewrite Hin, Hr. unfold bonus at 1.
  set (content := lower (default [] (rec_content r))).
  set (tags := lower (str_join (u " ") (default [] (rec_tags r)))).
  destruct (ratio_bounds query content) as [Hc0 _].
  destruct (word_bonuses_bounds query content tags (str_split query)) as [Hw0 _].
  set (ws := Qsum _) in *. set (rc := ratio query content) in *.
  unfold bonus. destruct (str_in query content), (str_in query tags); lra.
Qed.

(** X14. A string of fewer than 200 characters has similarity 1 to
    itself, so a record whose lower-cased title is the query scores 130 or
    more. *)
Theorem identical_title_scores_130 lower r query :
  length query < 200 ->
  lower (default [] (rec_title r)) = query ->
  (ratio query query == 1)%Q /\ (130 <= _calculate_score lower r query)%Q.
Proof.
  intros Hlen Ht. split; [by apply ratio_identical|by apply score_identical_title].
Qed.

Lemma identical_title_scores_130_witness :
  length (u "python api tutorial") < 200 /\
  ascii_lower (default [] (rec_title note_a)) = u "python api tutorial" /\
  (130 <= _calculate_score ascii_lower note_a (u "python api tutorial"))%Q.
Proof.
  assert (H1 : length (u "python api tutorial") < 200).
  { apply Nat.ltb_lt. vm_compute. reflexivity. }
  assert (H2 : ascii_lower (default [] (rec_title note_a)) = u "python api tutorial")
    by (vm_compute; reflexivity).
  split; [exact H1|]. split; [exact H2|].
  exact (proj2 (identical_title_scores_130 ascii_lower note_a _ H1 H2)).
Defined.

(** * Storing, then searching *)

Lemma get_all_records_after_store lower e fs content title tags auto_tag s fs' records :
  store lower e fs content title tags auto_tag = (Ok s, fs') ->
  get_all_records fs = Ok records ->
  get_all_records fs' = Ok (records ++ [record_of lower e content title tags auto_tag]) /\
  sum_id s = uuid4 e /\
  sum_tags s = tags_of lower content title tags auto_tag /\
  rec_title (record_of lower e content title tags auto_tag) = Some (strip (sum_title s)).
Proof.
  intros Hstore Hread. rewrite store_eq in Hstore.
  destruct (write_succeeds e); [|discriminate]. injection Hstore as <- <-.
  apply get_all_records_Ok in Hread as [Hok ->]. split; [|done].
  rewrite get_all_records_readable.
  - by rewrite lines_append_line, parsed_app.
  - rewrite lines_append_line, elem_of_app, list_elem_of_singleton.
    by intros [?|?].
Qed.

(** X15. A record that [store] has written is found by its tags: on a
    readable log, [search_by_tags] with a tag that agrees, up to case, with
    one of the tags of the summary and with a limit above the number of
    records returns the record just stored. *)
Theorem stored_record_is_found_by_tag lower e fs content title tags auto_tag
    s fs' records tag tag' limit :
  store lower e fs content title tags auto_tag = (Ok s, fs') ->
  get_all_records fs = Ok records ->
  tag ∈ sum_tags s -> lower tag' = lower tag ->
  (Z.of_nat (length records) < limit)%Z ->
  exists found r,
    search_by_tags lower fs' [tag'] limit = Ok found /\ r ∈ found /\
    rec_id r = Some (sum_id s) /\ rec_tags r = Some (sum_tags s) /\
    rec_content r = Some (strip content).
Proof.
  intros Hstore Hread Htag Hcase Hlimit.
  destruct (get_all_records_after_store _ _ _ _ _ _ _ _ _ _ Hstore Hread)
    as (Hread' & Hid & Htags & _).
  set (r := record_of lower e content title tags auto_tag) in *.
  unfold search_by_tags. rewrite Hread'. cbn [mbind result_bind].
  eexists _, r. split; [reflexivity|]. rewrite Hid, Htags. split; [|done].
  rewrite upto_all.
  - apply elem_of_sort_desc, list_elem_of_In, filter_In. split.
    + apply in_or_app. right. by left.
    + apply has_tag_spec. exists tag', tag. split; [by left|].
      split; [|done]. simpl. by rewrite <- Htags.
  - rewrite sort_desc_length.
    etransitivity; [apply inj_le, length_filter_le|].
    rewrite length_app. simpl. lia.
Qed.

Lemma stored_record_is_found_by_tag_witness :
  exists s fs' found r,
    store ascii_lower env1 two_notes (u "  second note ") (u " Title ") (u "x, y") false
      = (Ok s, fs') /\
    get_all_records two_notes = Ok [note_a; note_b] /\
    u "x" ∈ sum_tags s /\ ascii_lower (u "X") = ascii_lower (u "x") /\
    search_by_tags ascii_lower fs' [u "X"] 3 = Ok found /\ r ∈ found /\
    rec_id r = Some (sum_id s).
Proof.
  pose proof (store_eq ascii_lower env1 two_notes (u "  second note ") (u " Title ")
                (u "x, y") false) as E.
  change (write_succeeds env1) with true in E. cbv iota in E.
  assert (H1 : get_all_records two_notes = Ok [note_a; note_b])
    by (vm_compute; reflexivity).
  assert (H2 : u "x" ∈ tags_of ascii_lower (u "  second note ") (u " Title ")
                       (u "x, y") false).
  { apply (bool_decide_unpack _). vm_compute. exact I. }
  assert (H3 : ascii_lower (u "X") = ascii_lower (u "x")) by (vm_compute; reflexivity).
  assert (H4 : (Z.of_nat (length [note_a; note_b]) < 3)%Z) by (simpl; lia).
  destruct (stored_record_is_found_by_tag _ _ _ _ _ _ _ _ _ _ (u "x") (u "X") 3
              E H1 H2 H3 H4) as (found & r & Hf & Hr & Hi & _).
  eexists _, _, found, r. split; [exact E|]. split; [exact H1|].
  split; [exact H2|]. split; [exact H3|]. split; [exact Hf|].
  split; [exact Hr|exact Hi].
Defined.

Lemma search_on_complete_log lower fs query limit tag_filter records :
  get_all_records fs = Ok records -> Forall complete records ->
  exists hits,
    search lower fs query limit tag_filter =
      Ok {| resp_query := query;
            resp_total :=
              length (scored lower (lower query)
                        (tag_filtered lower tag_filter records));
            resp_results := hits |} /\
    Forall2 (fun x h => format_result lower (lower query) x = Ok h)
      (upto (sort_desc Qltb fst
               (scored lower (lower query)
                  (tag_filtered lower tag_filter records))) limit)
      hits.
Proof.
  intros Hread Hc. unfold search. rewrite Hread. cbn [mbind result_bind].
  set (sorted := sort_desc Qltb fst _).
  destruct (map_result_complete lower (lower query) (upto sorted limit))
    as (hits & E & _).
  { intros x Hx. rewrite Forall_forall in Hc. apply Hc.
    apply elem_of_upto, elem_of_sort_desc, elem_of_scored in Hx as [_ Hx].
    by apply elem_of_tag_filtered in Hx. }
  exists hits. rewrite E. cbn [mbind result_bind]. unfold sorted.
  rewrite sort_desc_length. split; [done|]. by apply map_result_Ok.
Qed.

(** X16. A record that [store] has written is found by its title: on a
    readable log whose records have their keys, [search] for the title as
    stored (of fewer than 200 characters when lower-cased), without a tag
    filter and with a limit above the number of records, lists the record
    just stored with a score of 130 or more. *)
Theorem stored_record_is_found_by_title lower e fs content title tags auto_tag
    s fs' records limit :
  store lower e fs content title tags auto_tag = (Ok s, fs') ->
  get_all_records fs = Ok records -> Forall complete records ->
  length (lower (strip (sum_title s))) < 200 ->
  (Z.of_nat (length records) < limit)%Z ->
  exists resp h c,
    search lower fs' (strip (sum_title s)) limit [] = Ok resp /\
    h ∈ resp_results resp /\ hit_id h = sum_id s /\
    hit_title h = strip (sum_title s) /\
    hit_score h = Some c /\ (130 <= c)%Q.
Proof.
  intros Hstore Hread Hc Hlen Hlimit.
  destruct (get_all_records_after_store _ _ _ _ _ _ _ _ _ _ Hstore Hread)
    as (Hread' & Hid & _ & Htitle).
  set (r := record_of lower e content title tags auto_tag) in *.
  set (q := strip (sum_title s)) in *.
  assert (Hc' : Forall complete (records ++ [r])).
  { apply Forall_app. split; [done|]. repeat constructor; by eexists. }
  destruct (search_on_complete_log lower fs' q limit [] _ Hread' Hc')
    as (hits & Hs & Hf).
  assert (Hscore : (130 <= _calculate_score lower r (lower q))%Q).
  { apply score_identical_title; [done|]. by rewrite Htitle. }
  set (sorted := sort_desc Qltb fst _) in Hf.
  assert (Hin : (_calculate_score lower r (lower q), r) ∈ sorted).
  { apply elem_of_sort_desc. unfold scored.
    apply list_elem_of_In, filter_In. split.
    - apply in_map_iff. exists r. split; [done|]. apply in_or_app. right. by left.
    - apply Qltb_spec. simpl. lra. }
  rewrite upto_all in Hf.
  - apply list_elem_of_lookup in Hin as [i Hi].
    destruct (Forall2_lookup_l _ _ _ _ _ Hf Hi) as (h & Hh & Hfmt).
    apply format_result_Ok in Hfmt as (? & _ & H2 & H3 & _ & _ & H6 & _).
    cbn [fst snd] in H2, H3, H6. rewrite Htitle in H3.
    exists {| resp_query := q;
              resp_total := length (scored lower (lower q)
                                      (tag_filtered lower [] (records ++ [r])));
              resp_results := hits |}, h, (_calculate_score lower r (lower q)).
    split; [exact Hs|]. cbn [resp_results].
    split; [apply list_elem_of_lookup; by exists i|].
    split; [rewrite Hid; by injection H2|]. split; [by injection H3|done].
  - unfold sorted. rewrite sort_desc_length. unfold scored.
    etransitivity; [apply inj_le, length_filter_le|].
    rewrite length_map. unfold tag_filtered. cbn [is_empty].
    rewrite length_app. simpl. lia.
Qed.

Lemma stored_record_is_found_by_title_witness :
  exists s fs' resp h c,
    store ascii_lower env1 two_notes (u "  second note ") (u " Title ") (u "x, y") false
      = (Ok s, fs') /\
    get_all_records two_notes = Ok [note_a; note_b] /\
    Forall complete [note_a; note_b] /\
    search ascii_lower fs' (strip (sum_title s)) 3 [] = Ok resp /\
    h ∈ resp_results resp /\ hit_id h = sum_id s /\
    hit_score h = Some c /\ (130 <= c)%Q.
Proof.
  pose proof (store_eq ascii_lower env1 two_notes (u "  second note ") (u " Title ")
                (u "x, y") false) as E.
  change (write_succeeds env1) with true in E. cbv iota in E.
  assert (H1 : get_all_records two_notes = Ok [note_a; note_b])
    by (vm_compute; reflexivity).
  assert (H2 : Forall complete [note_a; note_b]).
  { repeat constructor; by eexists. }
  assert (H3 : length (ascii_lower (strip (u " Title "))) < 200).
  { apply Nat.ltb_lt. vm_compute. reflexivity. }
  assert (H4 : (Z.of_nat (length [note_a; note_b]) < 3)%Z) by (simpl; lia).
  destruct (stored_record_is_found_by_title _ _ _ _ _ _ _ _ _ _ 3 E H1 H2 H3 H4)
    as (resp & h & c & Hs & Hh & Hi & _ & Hc & Hle).
  eexists _, _, resp, h, c. split; [exact E|]. split; [exact H1|].
  split; [exact H2|]. split; [exact Hs|]. split; [exact Hh|].
  split; [exact Hi|]. split; [exact Hc|exact Hle].
Defined.

(** * The order of search results, with the floats of the code *)

Section FloatOrder.
Import Floats.

Lemma SFcompare_antisym x y :
  SFcompare y x = option_map CompOpp (SFcompare x y).
Proof.
  destruct x as [s1|s1| |s1 m1 e1], y as [s2|s2| |s2 m2 e2]; simpl;
    try reflexivity; try (by destruct s1); try (by destruct s2);
    try (by destruct s1, s2).
  change (Pos.compare_cont Eq m2 m1) with (Pos.compare m2 m1).
  change (Pos.compare_cont Eq m1 m2) with (Pos.compare m1 m2).
  rewrite (Z.compare_antisym e1 e2), (Pos.compare_antisym m1 m2).
  by destruct s1, s2, (e1 ?= e2)%Z, (m1 ?= m2)%positive.
Qed.

Lemma float_ltb_asym x y :
  PrimFloat.ltb x y = true -> PrimFloat.ltb y x = false.
Proof.
  rewrite !ltb_spec. unfold SFltb.
  rewrite (SFcompare_antisym (Prim2SF x) (Prim2SF y)).
  by destruct (SFcompare (Prim2SF x) (Prim2SF y)) as [[]|].
Qed.

(** Of two floats that are equal ([==]), neither is less than the other. *)
Lemma float_eqb_not_ltb x y :
  PrimFloat.eqb x y = true -> PrimFloat.ltb y x = false.
Proof.
  rewrite eqb_spec, ltb_spec. unfold SFeqb, SFltb.
  rewrite (SFcompare_antisym (Prim2SF x) (Prim2SF y)).
  by destruct (SFcompare (Prim2SF x) (Prim2SF y)) as [[]|].
Qed.
End FloatOrder.

Section NextTo.
Context {A B K : Type}.
Implicit Types (l : list A) (x y : A).

Lemma next_to_cons_inv l a x y :
  next_to (a :: l) x y -> (x = a /\ exists l', l = y :: l') \/ next_to l x y.
Proof.
  intros (l1 & l2 & H). destruct l1 as [|b l1]; simplify_eq/=.
  - left. split; [done|]. by exists l2.
  - right. by exists l1, l2.
Qed.

Lemma next_to_cons l a x y : next_to l x y -> next_to (a :: l) x y.
Proof. intros (l1 & l2 & ->). by exists (a :: l1), l2. Qed.

Lemma next_to_take l n x y : next_to (take n l) x y -> next_to l x y.
Proof.
  intros (l1 & l2 & H). exists l1, (l2 ++ drop n l).
  rewrite <- (take_drop n l) at 1. rewrite H.
  by rewrite <- app_assoc.
Qed.

Lemma next_to_upto l n x y : next_to (upto l n) x y -> next_to l x y.
Proof. unfold upto. destruct (0 <=? n)%Z; apply next_to_take. Qed.

Lemma next_to_Forall2 (R : A -> B -> Prop) l (m : list B) (x y : B) :
  Forall2 R l m -> next_to m x y ->
  exists a b, next_to l a b /\ R a x /\ R b y.
Proof.
  intros HF (m1 & m2 & ->).
  apply Forall2_app_inv_r in HF as (l1 & r1 & _ & HF & ->).
  apply Forall2_cons_inv_r in HF as (a & r2 & Ha & HF & ->).
  apply Forall2_cons_inv_r in HF as (b & l2 & Hb & _ & ->).
  exists a, b. split; [|done]. by exists l1, l2.
Qed.

(** The sort is by descending key as far as [<] is asymmetric: no element
    is immediately followed by one with a greater key. *)
Lemma sort_desc_next_to (ltb : K -> K -> bool) (key : A -> K) l x y :
  (forall k1 k2, ltb k1 k2 = true -> ltb k2 k1 = false) ->
  next_to (sort_desc ltb key l) x y -> ltb (key x) (key y) = false.
Proof.
  intros Hasym. revert x y.
  assert (Hins : forall a s,
             (forall x y, next_to s x y -> ltb (key x) (key y) = false) ->
             forall x y, next_to (insert_desc ltb key a s) x y ->
                         ltb (key x) (key y) = false).
  { intros a s. induction s as [|b s IH]; intros Hs x y; simpl.
    - intros (l1 & l2 & H). destruct l1 as [|? [|]]; simplify_eq/=.
    - destruct (ltb (key a) (key b)) eqn:E.
      + intros H. apply next_to_cons_inv in H as [[-> [l' Hl']]|H].
        * destruct s as [|c s]; simpl in Hl'.
          -- injection Hl' as <- _. by apply Hasym.
          -- destruct (ltb (key a) (key c)) eqn:E'.
             ++ injection Hl' as <- _. apply Hs. by exists [], s.
             ++ injection Hl' as <- _. by apply Hasym.
        * apply IH; [|done]. intros x' y' H'. apply Hs. by apply next_to_cons.
      + intros H. apply next_to_cons_inv in H as [[-> [l' Hl']]|H].
        * by injection Hl' as <- _.
        * by apply Hs. }
  induction l as [|a l IH]; simpl.
  - intros x y (l1 & l2 & H). by destruct l1.
  - by apply Hins.
Qed.
End NextTo.

Lemma float_format_result_Ok lower q x h :
  Binary64.format_result lower q x = Ok h ->
  exists content,
    rec_content x.2 = Some content /\ rec_id x.2 = Some (Binary64.hit_id h) /\
    rec_title x.2 = Some (Binary64.hit_title h) /\
    rec_timestamp x.2 = Some (Binary64.hit_timestamp h) /\
    Binary64.hit_tags h = default [] (rec_tags x.2) /\
    Binary64.hit_score h = x.1 /\
    Binary64.hit_snippet h = _generate_snippet lower content q 150.
Proof.
  destruct x as [c r]. unfold Binary64.format_result. cbn [fst snd].
  destruct (rec_content r) as [content|], (rec_id r), (rec_title r),
    (rec_timestamp r); simpl; try discriminate.
  intros [= <-]. exists content. simpl. repeat split.
Qed.

Lemma elem_of_float_scored lower q l x :
  x ∈ Binary64.scored lower q l ->
  x = (Binary64._calculate_score lower x.2 q, x.2) /\ x.2 ∈ l.
Proof.
  unfold Binary64.scored. rewrite list_elem_of_In, filter_In, in_map_iff.
  intros [(r & <- & Hin) _]. split; [done|]. by apply list_elem_of_In.
Qed.

Lemma before_float_scored lower q l x y :
  before (Binary64.scored lower q l) x y -> before l x.2 y.2.
Proof.
  unfold Binary64.scored. intros H. apply before_filter_inv in H.
  apply before_map_inv in H as (a & b & H & <- & <-). done.
Qed.

Lemma before_tag_filtered lower tag_filter l x y :
  before (tag_filtered lower tag_filter l) x y -> before l x y.
Proof.
  unfold tag_filtered. destruct (is_empty tag_filter); [done|].
  apply before_filter_inv.
Qed.

(** C6. In the results of [search], with the scores computed in floats as
    the code computes them, two entries with equal scores are in the order
    their records have in the sequence left by the tag filter and so in
    the log, which is the order in which they were stored: the sort by
    descending score is stable and there is no second key.  The sort is by
    descending score: no entry is immediately followed by one with a higher
    score. *)
Theorem search_ties_keep_store_order lower fs query limit tag_filter resp :
  Binary64.search lower fs query limit tag_filter = Ok resp ->
  exists records,
    get_all_records fs = Ok records /\
    (forall data_file fs0 cs rs,
       lines fs0 = [] -> run lower data_file fs0 cs = (rs, fs) ->
       records = successes lower cs rs) /\
    (forall h1 h2, before (Binary64.resp_results resp) h1 h2 ->
       exists r1 r2,
         let q := lower query in
         Binary64.format_result lower q (Binary64._calculate_score lower r1 q, r1)
           = Ok h1 /\
         Binary64.format_result lower q (Binary64._calculate_score lower r2 q, r2)
           = Ok h2 /\
         Binary64.hit_score h1 = Binary64._calculate_score lower r1 q /\
         Binary64.hit_score h2 = Binary64._calculate_score lower r2 q /\
         (PrimFloat.eqb (Binary64.hit_score h1) (Binary64.hit_score h2) = true ->
          before (tag_filtered lower tag_filter records) r1 r2 /\
          before records r1 r2)) /\
    (forall h1 h2, next_to (Binary64.resp_results resp) h1 h2 ->
       PrimFloat.ltb (Binary64.hit_score h1) (Binary64.hit_score h2) = false).
Proof.
  unfold Binary64.search.
  destruct (get_all_records fs) as [records|e] eqn:Hread; [|done].
  cbn [mbind result_bind].
  set (q := lower query). set (post := tag_filtered lower tag_filter records).
  destruct (map_result _ _) as [results|e] eqn:Hres; [|done].
  intros [= <-]. exists records. split; [done|]. cbn [Binary64.resp_results].
  apply map_result_Ok in Hres. split; [|split].
  - intros data_file fs0 cs rs Hempty Hrun.
    pose proof (run_records lower data_file fs0 cs Hempty) as H.
    rewrite Hrun in H. simpl in H. congruence.
  - intros h1 h2 Hb.
    destruct (before_Forall2 _ _ _ _ _ Hres Hb) as (x1 & x2 & Hx & Hf1 & Hf2).
    apply before_upto in Hx.
    pose proof (before_elem_of_l _ _ _ Hx) as H1.
    pose proof (before_elem_of_r _ _ _ Hx) as H2.
    apply elem_of_sort_desc, elem_of_float_scored in H1 as [E1 _].
    apply elem_of_sort_desc, elem_of_float_scored in H2 as [E2 _].
    pose proof (float_format_result_Ok _ _ _ _ Hf1) as (? & _ & _ & _ & _ & _ & S1 & _).
    pose proof (float_format_result_Ok _ _ _ _ Hf2) as (? & _ & _ & _ & _ & _ & S2 & _).
    exists x1.2, x2.2. cbn zeta. rewrite <- E1, <- E2.
    split; [done|]. split; [done|].
    split; [by rewrite S1, E1|]. split; [by rewrite S2, E2|].
    intros Heq. rewrite S1, S2 in Heq. apply float_eqb_not_ltb in Heq.
    apply before_sort_desc in Hx as [Hx|Hx]; [|congruence].
    apply before_float_scored in Hx. split; [done|].
    by apply before_tag_filtered in Hx.
  - intros h1 h2 Hn.
    destruct (next_to_Forall2 _ _ _ _ _ Hres Hn) as (x1 & x2 & Hx & Hf1 & Hf2).
    apply next_to_upto in Hx.
    pose proof (float_format_result_Ok _ _ _ _ Hf1) as (? & _ & _ & _ & _ & _ & S1 & _).
    pose proof (float_format_result_Ok _ _ _ _ Hf2) as (? & _ & _ & _ & _ & _ & S2 & _).
    rewrite S1, S2.
    exact (sort_desc_next_to PrimFloat.ltb fst _ _ _ float_ltb_asym Hx).
Qed.

Lemma search_ties_keep_store_order_witness :
  exists resp,
    Binary64.search ascii_lower two_notes (u "API") 10 [] = Ok resp /\
    List.map Binary64.hit_id (Binary64.resp_results resp) = [u "a1"; u "b2"] /\
    forall h1 h2, before (Binary64.resp_results resp) h1 h2 ->
      exists r1 r2,
        Binary64.hit_score h1
          = Binary64._calculate_score ascii_lower r1 (ascii_lower (u "API")) /\
        Binary64.hit_score h2
          = Binary64._calculate_score ascii_lower r2 (ascii_lower (u "API")) /\
        (PrimFloat.eqb (Binary64.hit_score h1) (Binary64.hit_score h2) = true ->
         before [note_a; note_b] r1 r2).
Proof.
  destruct (Binary64.search ascii_lower two_notes (u "API") 10 []) as [resp|e] eqn:E.
  - destruct (search_ties_keep_store_order _ _ _ _ _ _ E)
      as (records & H1 & _ & H2 & _).
    assert (Hr : records = [note_a; note_b]).
    { vm_compute in H1. by injection H1 as <-. }
    exists resp. split; [reflexivity|]. split.
    + vm_compute in E. injection E as <-. vm_compute. reflexivity.
    + intros h1 h2 Hb. destruct (H2 h1 h2 Hb) as (r1 & r2 & _ & _ & S1 & S2 & Ht).
      exists r1, r2. split; [exact S1|]. split; [exact S2|].
      intros Heq. rewrite <- Hr. exact (proj2 (Ht Heq)).
  - vm_compute in E. discriminate E.
Defined.

(** Rounding can break a tie: the two notes have the same score in the
    rationals and not in floats, where the second of the log scores 8 and
    the first a little less, so that the code lists the second first. *)
Lemma rounding_breaks_a_tie :
  (_calculate_score ascii_lower note_y (u "abcde")
   == _calculate_score ascii_lower note_x (u "abcde"))%Q /\
  PrimFloat.ltb (Binary64._calculate_score ascii_lower note_y (u "abcde"))
    (Binary64._calculate_score ascii_lower note_x (u "abcde")) = true /\
  (exists resp,
     Binary64.search ascii_lower y_then_x (u "abcde") 10 [] = Ok resp /\
     List.map Binary64.hit_id (Binary64.resp_results resp) = [u "x1"; u "y1"]) /\
  (exists resp,
     search ascii_lower y_then_x (u "abcde") 10 [] = Ok resp /\
     List.map hit_id (resp_results resp) = [u "y1"; u "x1"]).
Proof.
  split; [vm_compute; reflexivity|]. split; [vm_compute; reflexivity|]. split.
  - destruct (Binary64.search ascii_lower y_then_x (u "abcde") 10 [])
      as [resp|e] eqn:E; vm_compute in E; [|discriminate E].
    exists resp. split; [reflexivity|]. injection E as <-. vm_compute. reflexivity.
  - destruct (search ascii_lower y_then_x (u "abcde") 10 [])
      as [resp|e] eqn:E; vm_compute in E; [|discriminate E].
    exists resp. split; [reflexivity|]. injection E as <-. vm_compute. reflexivity.
Qed.

(** * No validation *)

Lemma float_map_result_complete lower q (l : list (PrimFloat.float * record)) :
  (forall x, x ∈ l -> complete x.2) ->
  exists hs, map_result (Binary64.format_result lower q) l = Ok hs.
Proof.
  induction l as [|[c r] l IH]; intros H; simpl.
  - by exists [].
  - destruct IH as (hs & ->); [intros x Hx; apply H; by right|].
    destruct (H (c, r)) as ([i Hi] & [t Ht] & [ti Hti] & [co Hco]); [by left|].
    simpl in *. rewrite Hi, Ht, Hti, Hco. simpl. by eexists.
Qed.

Lemma float_search_on_complete_log lower fs query limit tag_filter records :
  get_all_records fs = Ok records -> Forall complete records ->
  exists resp, Binary64.search lower fs query limit tag_filter = Ok resp.
Proof.
  intros Hread Hc. unfold Binary64.search. rewrite Hread.
  cbn [mbind result_bind]. set (sorted := sort_desc PrimFloat.ltb fst _).
  destruct (float_map_result_complete lower (lower query) (upto sorted limit))
    as (hits & E).
  { intros x Hx. rewrite Forall_forall in Hc. apply Hc.
    apply elem_of_upto, elem_of_sort_desc, elem_of_float_scored in Hx as [_ Hx].
    by apply elem_of_tag_filtered in Hx. }
  rewrite E. by eexists.
Qed.

Lemma search_recent_on_complete_log fs limit records :
  get_all_records fs = Ok records -> Forall complete records ->
  exists hits, search_recent fs limit = Ok hits.
Proof.
  intros Hread Hc. unfold search_recent. rewrite Hread.
  cbn [mbind result_bind]. set (sorted := sort_desc str_ltb _ records).
  destruct (map_result format_recent (upto sorted limit)) as [hits|e] eqn:E;
    [by eexists|].
  apply map_result_Raise in E as (r & Hr & E).
  apply format_recent_Raise in E as [_ E]. destruct E.
  rewrite Forall_forall in Hc. apply Hc.
  eapply elem_of_sort_desc. eapply elem_of_upto, Hr.
Qed.

Lemma Forall2_map_l {A B C} (f : A -> B) (P : B -> C -> Prop) l k :
  Forall2 (fun x y => P (f x) y) l k -> Forall2 P (List.map f l) k.
Proof. induction 1; simpl; by constructor. Qed.

Lemma take_submseteq {A} (l : list A) n : take n l ⊆+ l.
Proof. apply sublist_submseteq, sublist_take. Qed.

Lemma upto_submseteq {A} (l : list A) n : upto l n ⊆+ l.
Proof. unfold upto. destruct (0 <=? n)%Z; apply take_submseteq. Qed.

Lemma upto_map {A B} (f : A -> B) (l : list A) n :
  upto (List.map f l) n = List.map f (upto l n).
Proof.
  unfold upto. rewrite length_map. destruct (0 <=? n)%Z; apply firstn_map.
Qed.

(** C9 (amended).  No input is rejected as malformed: the code has no
    validation.  On a readable log whose records have their keys, every
    operation returns a result for every argument, [store] whenever its
    write goes through, and [search] also with the scores computed in
    floats; and no operation other than [store] changes the data file.  In
    particular [search] with the empty query (which lower-casing leaves
    empty) returns: every record left by the tag filter scores 225 or more
    and counts in [total]; the results show records left by the filter,
    none more often than the filter leaves it, as many as the cut to
    [limit] leaves, and all of them when [limit] is at least their number.
    An empty tag filter leaves all records.  [store] with an empty tag
    string, when the write goes through, appends the record, with the
    suggested tags only. *)
Theorem no_input_is_rejected lower data_file fs records :
  get_all_records fs = Ok records ->
  Forall complete records ->
  (forall c,
     (forall e content title tags auto_tag,
        c = Store e content title tags auto_tag -> write_succeeds e = true) ->
     returns (exec lower data_file fs c).1) /\
  (forall query limit tag_filter,
     exists resp, Binary64.search lower fs query limit tag_filter = Ok resp) /\
  (forall c, is_store c = false -> (exec lower data_file fs c).2 = fs) /\
  (lower [] = [] ->
   forall limit tag_filter,
     let kept := tag_filtered lower tag_filter records in
     exists resp shown,
       search lower fs [] limit tag_filter = Ok resp /\
       resp_query resp = [] /\
       resp_total resp = length kept /\
       (forall r, r ∈ kept -> (225 <= _calculate_score lower r [])%Q) /\
       shown ⊆+ kept /\
       length shown = length (upto kept limit) /\
       ((Z.of_nat (length kept) <= limit)%Z -> shown ≡ₚ kept) /\
       Forall2
         (fun r h =>
            format_result lower [] (_calculate_score lower r [], r) = Ok h /\
            hit_score h = Some (_calculate_score lower r []) /\
            (225 <= _calculate_score lower r [])%Q)
         shown (resp_results resp)) /\
  tag_filtered lower [] records = records /\
  (forall e content title auto_tag,
     write_succeeds e = true ->
     exists s fs',
       store lower e fs content title [] auto_tag = (Ok s, fs') /\
       get_all_records fs' =
         Ok (records ++ [record_of lower e content title [] auto_tag]) /\
       forall t, t ∈ sum_tags s <->
         auto_tag = true /\ t ∈ _auto_suggest_tags lower content title).
Proof.
  intros Hread Hcomplete.
  split; [|split; [|split; [|split; [|split; [done|]]]]].
  - intros c Hw. destruct c; simpl.
    + rewrite store_eq, (Hw _ _ _ _ _ eq_refl). done.
    + by rewrite Hread.
    + unfold get_by_id. by rewrite Hread.
    + unfold search_by_tags. by rewrite Hread.
    + unfold get_stats. by rewrite Hread.
    + destruct (search_on_complete_log lower fs query limit tag_filter _
                  Hread Hcomplete) as (hits & -> & _). done.
    + destruct (search_recent_on_complete_log fs limit _ Hread Hcomplete)
        as (hits & ->). done.
  - intros query limit tag_filter.
    by apply (float_search_on_complete_log _ _ _ _ _ records).
  - intros c Hc. by destruct c.
  - intros Hlow limit tag_filter kept.
    destruct (search_on_complete_log lower fs [] limit tag_filter _
                Hread Hcomplete) as (hits & Hs & Hf).
    rewrite Hlow in Hs, Hf. fold kept in Hs, Hf.
    rewrite scored_empty_query in Hs, Hf.
    set (with_score := fun r : record => (_calculate_score lower r [], r)) in *.
    set (sorted := sort_desc Qltb fst (List.map with_score kept)) in *.
    assert (Hperm : List.map snd sorted ≡ₚ kept).
    { unfold sorted. rewrite sort_desc_Permutation, map_map.
      unfold with_score. simpl. by rewrite map_id. }
    assert (Hlen : length sorted = length kept).
    { unfold sorted. by rewrite sort_desc_length, length_map. }
    eexists _, (List.map snd (upto sorted limit)).
    split; [exact Hs|]. cbn [resp_query resp_total resp_results].
    split; [done|]. split; [by rewrite length_map|].
    split; [intros r _; apply score_empty_query|]. split; [|split; [|split]].
    + rewrite <- upto_map, <- Hperm. apply upto_submseteq.
    + by rewrite length_map, !upto_length, Hlen.
    + intros Hl. rewrite upto_all by lia. done.
    + apply Forall2_map_l, Forall2_same_length_lookup.
      split; [by eapply Forall2_length|]. intros i x h Hx Hh.
      pose proof (Forall2_lookup_lr _ _ _ _ _ _ Hf Hx Hh) as Hfmt.
      assert (Ex : x = with_score x.2).
      { apply list_elem_of_lookup_2, elem_of_upto, elem_of_sort_desc in Hx.
        by apply list_elem_of_In, in_map_iff in Hx as (r & <- & _). }
      unfold with_score in Ex. rewrite <- Ex. split; [done|].
      split; [|apply score_empty_query].
      rewrite (format_result_score _ _ _ _ Hfmt). by rewrite Ex.
  - intros e content title auto_tag Hw. rewrite store_eq, Hw.
    eexists _, _. split; [done|]. apply get_all_records_Ok in Hread as [Hr ->].
    split.
    + rewrite get_all_records_readable; rewrite lines_append_line.
      * by rewrite parsed_app.
      * rewrite not_elem_of_app. split; [done|].
        apply not_elem_of_cons. split; [done|apply not_elem_of_nil].
    + intros t. cbn [sum_tags]. unfold tags_of.
      rewrite elem_of_elements, elem_of_list_to_set.
      change (manual_tags []) with (@nil str). simpl.
      destruct auto_tag; [by split; [|intros [_ ?]]|].
      rewrite elem_of_nil. split; [done|by intros [? _]].
Qed.

Lemma no_input_is_rejected_witness :
  get_all_records two_notes = Ok [note_a; note_b] /\
  Forall complete [note_a; note_b] /\
  ascii_lower [] = [] /\
  write_succeeds env0 = true /\
  returns (exec ascii_lower (u "knowledge.jsonl") two_notes
             (Store env0 [] [] [] true)).1 /\
  (exists resp,
     search ascii_lower two_notes [] 10 [] = Ok resp /\
     resp_total resp = length (tag_filtered ascii_lower [] [note_a; note_b])).
Proof.
  assert (H1 : get_all_records two_notes = Ok [note_a; note_b]) by reflexivity.
  assert (H2 : Forall complete [note_a; note_b]).
  { repeat constructor; by eexists. }
  assert (H3 : ascii_lower [] = []) by reflexivity.
  assert (H4 : write_succeeds env0 = true) by reflexivity.
  split; [exact H1|]. split; [exact H2|]. split; [exact H3|]. split; [exact H4|].
  destruct (no_input_is_rejected ascii_lower (u "knowledge.jsonl") two_notes _
              H1 H2) as (R1 & _ & _ & R2 & _).
  split.
  - apply R1. intros e content title tags auto_tag [= <- _ _ _ _]. exact H4.
  - destruct (R2 H3 10%Z []) as (resp & shown & E1 & _ & E2 & _).
    exists resp. split; [exact E1|exact E2].
Defined.

